(** * KVStorage: the chained hash table with incremental rehash and the
      in-memory key-value storage built on it.

    The development follows the two headers of the repository:
    - [Dict] embeds [src/dict/Dictionary.h] (with [Bucket.h]);
    - [Storage] embeds [src/InMemoryKVStorage.h].

    Conventions of the embedding.
    - [size_t] is an [N] below [2^64]; increments and decrements wrap.
    - [double] is a binary64 [spec_float]; the conversions and the division
      round as IEEE 754 does.
    - An operation that the C++ standard leaves undefined (reading an array
      out of its bounds, dereferencing an empty [shared_ptr], a remainder by
      zero, an [int] sum out of range) or that throws
      ([std::optional::value] on an empty optional, an array allocation
      with more initialisers than elements) yields [Raise]; every other
      operation yields [Done].
    - A bucket chain (the [next]-linked [Bucket] nodes) is the list of its
      (key, value) contents, head first.
    - [Ttl] and the clock's time are [int], the type the repository
      instantiates the template with: a [Z] from [INT_MIN] to [INT_MAX],
      whose sums fault when they leave that range. *)

From Stdlib Require Import ZArith NArith List Bool String Ascii Lia.
From Stdlib Require Import Floats.SpecFloat.
From Stdlib Require Import Sorting.Sorted Structures.OrderedTypeEx.
From stdpp Require Import base list strings pretty.

Set Default Proof Using "Type*".

(** ** Outcomes of a call *)

Inductive fault : Type :=
| OutOfBounds          (* an array read or written outside its allocation *)
| NullDereference      (* [*p] on an empty [shared_ptr] *)
| DivisionByZero       (* [x % 0] *)
| BadOptionalAccess    (* [std::optional::value()] on an empty optional *)
| SignedOverflow       (* an [int] sum outside the range of [int] *)
| BadArrayNewLength.   (* [new T[n]{...}] with more initialisers than elements *)

Inductive outcome (A : Type) : Type :=
| Done (a : A)
| Raise (f : fault).
Arguments Done {A} a.
Arguments Raise {A} f.

Definition bind {A B : Type} (m : outcome A) (k : A -> outcome B) : outcome B :=
  match m with
  | Done a => k a
  | Raise f => Raise f
  end.

Notation "x <- m ;; k" := (bind m (fun x => k))
  (at level 100, m at next level, right associativity).
Notation "'let*' p := m 'in' k" := (bind m (fun x => match x with p => k end))
  (at level 10, p pattern, m at level 200, k at level 200).

(** [std::optional<T>::value()] *)
Definition value {A : Type} (o : option A) : outcome A :=
  match o with
  | Some a => Done a
  | None => Raise BadOptionalAccess
  end.

(** [std::optional<T>::has_value()] *)
Definition has_value {A : Type} (o : option A) : bool :=
  match o with
  | Some _ => true
  | None => false
  end.

(** ** [size_t] and [double] *)

Definition SIZE_MAX : N := 2 ^ 64 - 1.
Definition size_incr (n : N) : N := ((n + 1) mod 2 ^ 64)%N.
Definition size_decr (n : N) : N := ((n + SIZE_MAX) mod 2 ^ 64)%N.
Definition size_mul (n m : N) : N := ((n * m) mod 2 ^ 64)%N.

Definition double : Type := spec_float.
Definition double_of_size (n : N) : double :=
  binary_normalize 53 1024 (Z.of_N n) 0 false.
Definition double_div (x y : double) : double := SFdiv 53 1024 x y.
Definition double_lt (x y : double) : bool := SFltb x y.

(** ** Dictionary.h *)

Module Dict.

Definition BASIC_DICTIONARY_SIZE : N := 8.
Definition DICTIONARY_REHASH_BUCKET_COUNT : nat := 32.
(** [0.01f] converted to [double]: 10737418 * 2^-30. *)
Definition DICTIONARY_LOW_LIMIT_REHASH : double :=
  S754_finite false 5764607394185216 (-59).
(** [1.2f] converted to [double]: 10066330 * 2^-23. *)
Definition DICTIONARY_HIGH_LIMIT_REHASH : double :=
  S754_finite false 5404319767592960 (-52).

Section Dictionary.
Context {Key Value : Type} `{EqDecision Key}.

(** [Hash _hashFunction]: any function into [size_t]. *)
Variable _hashFunction : Key -> N.

(** The nodes of one bucket, head first. An empty chain is [nullptr]. *)
Definition chain : Type := list (Key * Value).

(** The members of [Dictionary]. An array that was never allocated
    ([nullptr]) is the array of no element. *)
Record Dictionary : Type := mkDictionary {
  _dictionary : list chain;
  _dictionarySize : N;
  _dictionaryUsed : N;
  _alternativeDictionary : list chain;
  _alternativeDictionarySize : N;
  _rehashIndex : N
}.

(** The array a [Bucket **pDictionary] argument points to: the call sites
    pass one of the two member arrays. *)
Inductive array_ref : Type := ref_dictionary | ref_alternativeDictionary.

Definition deref (p : array_ref) (d : Dictionary) : list chain :=
  match p with
  | ref_dictionary => _dictionary d
  | ref_alternativeDictionary => _alternativeDictionary d
  end.

Definition assign (p : array_ref) (a : list chain) (d : Dictionary) : Dictionary :=
  match p with
  | ref_dictionary =>
      mkDictionary a (_dictionarySize d) (_dictionaryUsed d)
        (_alternativeDictionary d) (_alternativeDictionarySize d) (_rehashIndex d)
  | ref_alternativeDictionary =>
      mkDictionary (_dictionary d) (_dictionarySize d) (_dictionaryUsed d)
        a (_alternativeDictionarySize d) (_rehashIndex d)
  end.

Definition set_used (n : N) (d : Dictionary) : Dictionary :=
  mkDictionary (_dictionary d) (_dictionarySize d) n
    (_alternativeDictionary d) (_alternativeDictionarySize d) (_rehashIndex d).

(** [a[i]] as an rvalue *)
Definition read (a : list chain) (i : N) : outcome chain :=
  match a !! N.to_nat i with
  | Some c => Done c
  | None => Raise OutOfBounds
  end.

(** [a[i] = c] *)
Definition write (a : list chain) (i : N) (c : chain) : outcome (list chain) :=
  if decide (N.to_nat i < length a)%nat then Done (<[N.to_nat i := c]> a)
  else Raise OutOfBounds.

(** *** Walking a chain *)

(** [while (p != nullptr && *(p->key) != key) p = p->next;] and the node
    it stops at. *)
Fixpoint chain_find (key : Key) (c : chain) : option (Key * Value) :=
  match c with
  | [] => None
  | (k, v) :: next => if decide (k = key) then Some (k, v) else chain_find key next
  end.

(** [pBucket->value = value] at the node the walk stops at. *)
Fixpoint chain_assign (key : Key) (value : Value) (c : chain) : chain :=
  match c with
  | [] => []
  | (k, v) :: next =>
      if decide (k = key) then (k, value) :: next
      else (k, v) :: chain_assign key value next
  end.

(** Unlinking the node the walk stops at. *)
Fixpoint chain_unlink (key : Key) (c : chain) : chain :=
  match c with
  | [] => []
  | (k, v) :: next =>
      if decide (k = key) then next else (k, v) :: chain_unlink key next
  end.

(** *** Common methods *)

Definition getBucketIndex (key : Key) (dictionarySize : N) : outcome N :=
  if (dictionarySize =? 0)%N then Raise DivisionByZero
  else Done (_hashFunction key mod dictionarySize)%N.

Definition fillFactor (d : Dictionary) : double :=
  double_div (double_of_size (_dictionaryUsed d)) (double_of_size (_dictionarySize d)).

(** *** Commands with dictionaries *)

(** The new node of the last branch is linked to [_dictionary[index]],
    whichever array [pDictionary] is. *)
Definition _set (key : Key) (value : Value) (pDictionary : array_ref)
    (dictionarySize : N) (d : Dictionary) : outcome Dictionary :=
  index <- getBucketIndex key dictionarySize ;;
  head <- read (deref pDictionary d) index ;;
  match head with
  | [] =>
      a <- write (deref pDictionary d) index [(key, value)] ;;
      Done (set_used (size_incr (_dictionaryUsed d)) (assign pDictionary a d))
  | _ :: _ =>
      match chain_find key head with
      | Some _ =>
          a <- write (deref pDictionary d) index (chain_assign key value head) ;;
          Done (assign pDictionary a d)
      | None =>
          next <- read (_dictionary d) index ;;
          a <- write (deref pDictionary d) index ((key, value) :: next) ;;
          Done (set_used (size_incr (_dictionaryUsed d)) (assign pDictionary a d))
      end
  end.

Definition _get (key : Key) (pDictionary : list chain) (dictionarySize : N)
    : outcome (option (Key * Value)) :=
  index <- getBucketIndex key dictionarySize ;;
  head <- read pDictionary index ;;
  Done (chain_find key head).

Definition _remove (key : Key) (pDictionary : array_ref) (dictionarySize : N)
    (d : Dictionary) : outcome (bool * Dictionary) :=
  index <- getBucketIndex key dictionarySize ;;
  head <- read (deref pDictionary d) index ;;
  match chain_find key head with
  | None => Done (false, d)
  | Some _ =>
      a <- write (deref pDictionary d) index (chain_unlink key head) ;;
      Done (true, set_used (size_decr (_dictionaryUsed d)) (assign pDictionary a d))
  end.

(** *** Commands for rehash dictionary *)

Definition isNeedRehash (d : Dictionary) : bool :=
  (BASIC_DICTIONARY_SIZE <? _dictionarySize d)%N
  && negb (_dictionaryUsed d =? 0)%N
  && (double_lt (fillFactor d) DICTIONARY_LOW_LIMIT_REHASH
      || double_lt DICTIONARY_HIGH_LIMIT_REHASH (fillFactor d)).

Definition isRehashing (d : Dictionary) : bool :=
  negb (_rehashIndex d =? SIZE_MAX)%N.

Definition prepareRehash (d : Dictionary) : Dictionary :=
  let size :=
    if double_lt (fillFactor d) DICTIONARY_LOW_LIMIT_REHASH
    then (_dictionarySize d / 2)%N
    else size_mul (_dictionarySize d) 2 in
  mkDictionary (_dictionary d) (_dictionarySize d) (_dictionaryUsed d)
    (replicate (N.to_nat size) []) size 0.

(** The [for] loop of [rehash]: [budget] is what is left of the
    [DICTIONARY_REHASH_BUCKET_COUNT] iterations. The nodes of the bucket
    under the cursor are deleted. *)
Fixpoint rehash_loop (budget : nat) (d : Dictionary) : outcome Dictionary :=
  match budget with
  | O => Done d
  | S budget' =>
      if (_rehashIndex d <? _dictionarySize d)%N then
        head <- read (_dictionary d) (_rehashIndex d) ;;
        a <- match head with
             | [] => Done (_dictionary d)
             | _ :: _ => write (_dictionary d) (_rehashIndex d) []
             end ;;
        rehash_loop budget'
          (mkDictionary a (_dictionarySize d) (_dictionaryUsed d)
             (_alternativeDictionary d) (_alternativeDictionarySize d)
             (size_incr (_rehashIndex d)))
      else Done d
  end.

Definition rehash (d : Dictionary) : outcome Dictionary :=
  d <- rehash_loop DICTIONARY_REHASH_BUCKET_COUNT d ;;
  if (_rehashIndex d =? _dictionarySize d)%N then
    Done (mkDictionary (_alternativeDictionary d) (_dictionarySize d)
            (_dictionaryUsed d) [] (_alternativeDictionarySize d) SIZE_MAX)
  else Done d.

Definition preCommandActions (d : Dictionary) : outcome Dictionary :=
  if isRehashing d then rehash d
  else if isNeedRehash d then rehash (prepareRehash d)
  else Done d.

(** *** Public members *)

(** The members as [Dictionary(size)] initialises them, for a [size] of
    at least 1. *)
Definition create (size : N) : Dictionary :=
  mkDictionary (replicate (N.to_nat size) []) size 0 [] 0 SIZE_MAX.

(** [Dictionary(size)]. The array is allocated by
    [new Bucket<Key, Value> *[size]{nullptr}], one initialiser for [size]
    elements: with [size] 0 the allocation throws
    [std::bad_array_new_length] and there is no dictionary. *)
Definition construct (size : N) : outcome Dictionary :=
  if (size =? 0)%N then Raise BadArrayNewLength else Done (create size).

(** In the rehashing branch [key] has been moved into the argument of
    [_set] when [*key] is evaluated for [_remove]. *)
Definition set (key : Key) (value : Value) (d : Dictionary) : outcome Dictionary :=
  d <- preCommandActions d ;;
  if isRehashing d then
    _ <- _set key value ref_alternativeDictionary (_alternativeDictionarySize d) d ;;
    Raise NullDereference
  else _set key value ref_dictionary (_dictionarySize d) d.

Definition remove (key : Key) (d : Dictionary) : outcome (bool * Dictionary) :=
  d <- preCommandActions d ;;
  if isRehashing d then
    let* (found, d) := _remove key ref_alternativeDictionary (_alternativeDictionarySize d) d in
    if found then Done (true, d)
    else _remove key ref_dictionary (_dictionarySize d) d
  else _remove key ref_dictionary (_dictionarySize d) d.

Definition get (key : Key) (d : Dictionary) : outcome (option Value * Dictionary) :=
  d <- preCommandActions d ;;
  if isRehashing d then
    alternativeResult <- _get key (_alternativeDictionary d) (_alternativeDictionarySize d) ;;
    match alternativeResult with
    | Some (_, v) => Done (Some v, d)
    | None =>
        result <- _get key (_dictionary d) (_dictionarySize d) ;;
        Done (snd <$> result, d)
    end
  else
    result <- _get key (_dictionary d) (_dictionarySize d) ;;
    Done (snd <$> result, d).

Definition size (d : Dictionary) : N := _dictionaryUsed d.
Definition empty (d : Dictionary) : bool := (_dictionaryUsed d =? 0)%N.

(** *** What a dictionary holds *)

(** The chain of the bucket of [key] in the primary array. *)
Definition bucket (key : Key) (d : Dictionary) : chain :=
  default [] (_dictionary d !! N.to_nat (_hashFunction key mod _dictionarySize d)%N).

(** The value a walk of that chain finds. *)
Definition lookup (key : Key) (d : Dictionary) : option Value :=
  snd <$> chain_find key (bucket key d).

(** The fill factor is outside the band of the two limits. *)
Definition outside_band (d : Dictionary) : bool :=
  double_lt (fillFactor d) DICTIONARY_LOW_LIMIT_REHASH
  || double_lt DICTIONARY_HIGH_LIMIT_REHASH (fillFactor d).

(** The scheduling rule in the words of the specification: a rehash is
    due exactly when the capacity exceeds the base one and the fill factor
    is outside the band. *)
Definition rehash_due_by_band_alone (d : Dictionary) : Prop :=
  isNeedRehash d = true
  <-> (BASIC_DICTIONARY_SIZE < _dictionarySize d)%N /\ outside_band d = true.

(** A dictionary that is not rehashing and whose capacity, at most the
    base one, keeps it from ever starting: the array has its declared
    length and no chain holds a key twice. *)
Definition settled (d : Dictionary) : Prop :=
  _rehashIndex d = SIZE_MAX
  /\ (0 < _dictionarySize d <= BASIC_DICTIONARY_SIZE)%N
  /\ length (_dictionary d) = N.to_nat (_dictionarySize d)
  /\ Forall (fun c : chain => NoDup (c.*1)) (_dictionary d).

(** The recorded capacity and count are those of the primary array:
    [_dictionarySize] is the number of its buckets, [_dictionaryUsed] the
    number of its nodes, and no rehash is in progress. The constructor
    leaves the dictionary so, and [rehash], which swaps the arrays and
    updates neither member, does not. *)
Definition accurate (d : Dictionary) : Prop :=
  isRehashing d = false
  /\ length (_dictionary d) = N.to_nat (_dictionarySize d)
  /\ _dictionaryUsed d = N.of_nat (length (concat (_dictionary d))).

(** *** The other public member and sequences of commands *)

(** [find]: the key and the value of the node found. The two
    [shared_ptr]s it returns are given by what they point to. *)
Definition find (key : Key) (d : Dictionary)
    : outcome (option (Key * Value) * Dictionary) :=
  d <- preCommandActions d ;;
  if isRehashing d then
    alternativeResult <- _get key (_alternativeDictionary d) (_alternativeDictionarySize d) ;;
    match alternativeResult with
    | Some node => Done (Some node, d)
    | None =>
        result <- _get key (_dictionary d) (_dictionarySize d) ;;
        Done (result, d)
    end
  else
    result <- _get key (_dictionary d) (_dictionarySize d) ;;
    Done (result, d).

(** A command on a dictionary; a sequence of commands is executed in
    order and the results are dropped. *)
Inductive command : Type :=
| do_set (key : Key) (value : Value)
| do_remove (key : Key)
| do_get (key : Key)
| do_find (key : Key).

Definition exec (c : command) (d : Dictionary) : outcome Dictionary :=
  match c with
  | do_set key value => set key value d
  | do_remove key => let* (_, d) := remove key d in Done d
  | do_get key => let* (_, d) := get key d in Done d
  | do_find key => let* (_, d) := find key d in Done d
  end.

Fixpoint exec_all (cs : list command) (d : Dictionary) : outcome Dictionary :=
  match cs with
  | [] => Done d
  | c :: cs' => d <- exec c d ;; exec_all cs' d
  end.

(** The map a sequence of commands describes, starting from [m]: the last
    value set for a key, unless the key was removed since. *)
Fixpoint contents (cs : list command) (m : Key -> option Value) : Key -> option Value :=
  match cs with
  | [] => m
  | do_set key value :: cs' =>
      contents cs' (fun k => if decide (k = key) then Some value else m k)
  | do_remove key :: cs' =>
      contents cs' (fun k => if decide (k = key) then None else m k)
  | _ :: cs' => contents cs' m
  end.

(** The keys of all the nodes of the primary array. *)
Definition stored_keys (d : Dictionary) : list Key := (concat (_dictionary d)).*1.

(** A settled dictionary whose nodes sit in the bucket of their key and
    whose counter is the number of nodes (as far as a [size_t] counts). *)
Definition tidy (d : Dictionary) : Prop :=
  settled d
  /\ (forall i c k, _dictionary d !! i = Some c -> k ∈ c.*1 ->
                    N.to_nat (_hashFunction k mod _dictionarySize d) = i)
  /\ _dictionaryUsed d = (N.of_nat (length (concat (_dictionary d))) mod 2 ^ 64)%N.

End Dictionary.

Arguments Dictionary : clear implicits.
Arguments chain : clear implicits.
Arguments command : clear implicits.

End Dict.

(** ** [std::set] as the sequence its iterators walk *)

Module StdSet.
Section StdSet.
Context {A : Type}.
(** The comparator of the set. *)
Variable less : A -> A -> bool.

(** [insert(x)]: no effect when an equivalent element is present. *)
Fixpoint insert (x : A) (l : list A) : list A :=
  match l with
  | [] => [x]
  | y :: l' =>
      if less x y then x :: l
      else if less y x then y :: insert x l'
      else l
  end.

(** [lower_bound(x)]: the range from the first element not less than
    [x] to [end()]. *)
Fixpoint lower_bound (x : A) (l : list A) : list A :=
  match l with
  | [] => []
  | y :: l' => if less y x then lower_bound x l' else l
  end.

(** [it = find(x); if (it != end()) erase(it);] *)
Fixpoint find_erase (x : A) (l : list A) : list A :=
  match l with
  | [] => []
  | y :: l' =>
      if less y x then y :: find_erase x l'
      else if less x y then l
      else l'
  end.

(** [it = std::find_if(begin(), end(), p); if (it != end()) erase(it);] *)
Fixpoint find_if_erase (p : A -> bool) (l : list A) : list A :=
    match l with
    | [] => []
    | y :: l' => if p y then l' else y :: find_if_erase p l'
    end.
End StdSet.
End StdSet.

(** ** InMemoryKVStorage.h *)

Module Storage.

(** A [std::shared_ptr<T>]: the address of the object it owns, which is
    what [operator<] of two pointers compares, and the object. *)
Record shared_ptr (T : Type) : Type := make_shared { address : N; pointee : T }.
Arguments make_shared {T} address pointee.
Arguments address {T} s.
Arguments pointee {T} s.

(** [ComparatorPtrKey]: [*lhs < *rhs] on [std::string]. *)
Definition ComparatorPtrKey (lhs rhs : string) : bool := String.ltb lhs rhs.

(** [std::less] of [std::pair<std::shared_ptr<Key>, std::shared_ptr<Ttl>>]:
    the lexicographic order of the two addresses. *)
Definition less_pair {K T : Type} (x y : shared_ptr K * shared_ptr T) : bool :=
  (address (fst x) <? address (fst y))%N
  || (negb (address (fst y) <? address (fst x))%N
      && (address (snd x) <? address (snd y))%N).

(** [Ttl] is [int], the type the repository instantiates the storage
    with, and so is what the clock's [now()] returns: an integer from
    [INT_MIN] to [INT_MAX]. *)
Definition INT_MIN : Z := - 2 ^ 31.
Definition INT_MAX : Z := 2 ^ 31 - 1.

Definition in_int (z : Z) : bool := (INT_MIN <=? z)%Z && (z <=? INT_MAX)%Z.

(** [x += y] on [int]: a sum outside the range of [int] is undefined
    behaviour. *)
Definition int_add (x y : Z) : outcome Z :=
  if in_int (x + y) then Done (x + y)%Z else Raise SignedOverflow.

Section InMemoryKVStorage.
Context {Value : Type}.

(** [std::hash<std::string>] *)
Variable std_hash : string -> N.

Local Abbreviation Key := string (only parsing).
Local Abbreviation Ttl := Z (only parsing).

(** The members. [_setSortedKeyPtr] lists the strings its pointers own:
    its comparator never looks at an address. The clock is read through
    the argument [now] of the operations. *)
Record InMemoryKVStorage : Type := mkStorage {
  _keyValueDictionary : Dict.Dictionary Key Value;
  _keyTtlDictionary : Dict.Dictionary Key Ttl;
  _setSortedKeyPtr : list Key;
  _setSortedTtlPtr : list (shared_ptr Key * shared_ptr Ttl)
}.

(** [InMemoryKVStorage(clock)] *)
Definition create : InMemoryKVStorage :=
  mkStorage (Dict.create Dict.BASIC_DICTIONARY_SIZE)
    (Dict.create Dict.BASIC_DICTIONARY_SIZE) [] [].

Definition with_keyValueDictionary (kv : Dict.Dictionary Key Value)
    (s : InMemoryKVStorage) : InMemoryKVStorage :=
  mkStorage kv (_keyTtlDictionary s) (_setSortedKeyPtr s) (_setSortedTtlPtr s).

Definition with_keyTtlDictionary (kt : Dict.Dictionary Key Ttl)
    (s : InMemoryKVStorage) : InMemoryKVStorage :=
  mkStorage (_keyValueDictionary s) kt (_setSortedKeyPtr s) (_setSortedTtlPtr s).

Definition isExist (key : Key) (s : InMemoryKVStorage)
    : outcome (bool * InMemoryKVStorage) :=
  let* (value, kv) := Dict.get std_hash key (_keyValueDictionary s) in
  Done (has_value value, with_keyValueDictionary kv s).

Definition isExpired (key : Key) (now : Ttl) (s : InMemoryKVStorage)
    : outcome (bool * InMemoryKVStorage) :=
  let* (ttl, kt) := Dict.get std_hash key (_keyTtlDictionary s) in
  match ttl with
  | Some t => Done ((t <? now)%Z, with_keyTtlDictionary kt s)
  | None => Done (false, with_keyTtlDictionary kt s)
  end.

(** [pKey] and [pTtl] are the addresses [std::make_shared] returns for
    the key and the ttl of this call. [*pTtl += _clock.now()] is the [int]
    sum [int_add ttl now]. *)
Definition set (pKey pTtl : N) (key : Key) (value : Value) (ttl : Ttl) (now : Ttl)
    (s : InMemoryKVStorage) : outcome InMemoryKVStorage :=
  kv <- Dict.set std_hash key value (_keyValueDictionary s) ;;
  let keys := StdSet.insert ComparatorPtrKey key (_setSortedKeyPtr s) in
  if (ttl =? 0)%Z then
    Done (mkStorage kv (_keyTtlDictionary s) keys (_setSortedTtlPtr s))
  else
    expiration <- int_add ttl now ;;
    kt <- Dict.set std_hash key expiration (_keyTtlDictionary s) ;;
    Done (mkStorage kv kt keys
            (StdSet.insert less_pair
               (make_shared pKey key, make_shared pTtl expiration)
               (_setSortedTtlPtr s))).

(** [oTtl] is read from [_keyValueDictionary]. *)
Definition remove (key : Key) (s : InMemoryKVStorage)
    : outcome (bool * InMemoryKVStorage) :=
  let* (found, s) := isExist key s in
  if negb found then Done (false, s)
  else
    let* (oTtl, kv) := Dict.get std_hash key (_keyValueDictionary s) in
    let* (_, kv) := Dict.remove std_hash key kv in
    let keys := StdSet.find_erase ComparatorPtrKey key (_setSortedKeyPtr s) in
    if has_value oTtl then
      let* (_, kt) := Dict.remove std_hash key (_keyTtlDictionary s) in
      Done (true,
            mkStorage kv kt keys
              (StdSet.find_if_erase
                 (fun pair => bool_decide (pointee (fst pair) = key))
                 (_setSortedTtlPtr s)))
    else Done (true, mkStorage kv (_keyTtlDictionary s) keys (_setSortedTtlPtr s)).

Definition get (key : Key) (now : Ttl) (s : InMemoryKVStorage)
    : outcome (option Value * InMemoryKVStorage) :=
  let* (found, s) := isExist key s in
  if negb found then Done (None, s)
  else
    let* (expired, s) := isExpired key now s in
    if expired then Done (None, s)
    else
      let* (o, kv) := Dict.get std_hash key (_keyValueDictionary s) in
      v <- value o ;;
      Done (Some v, with_keyValueDictionary kv s).

(** The [for] loop of [getManySorted]: [it] is the range from the
    iterator to [end()], [i] the [size_t] counter, [count] the
    [uint32_t] bound. *)
Fixpoint getManySorted_loop (it : list Key) (i count : N) (now : Ttl)
    (result : list (Key * Value)) (s : InMemoryKVStorage)
    : outcome (list (Key * Value) * InMemoryKVStorage) :=
  match it with
  | [] => Done (result, s)
  | k :: it' =>
      if (i <? count)%N then
        let* (expired, s) := isExpired k now s in
        if expired then
          getManySorted_loop it' (size_incr (size_decr i)) count now result s
        else
          let* (o, s) := get k now s in
          v <- value o ;;
          getManySorted_loop it' (size_incr i) count now (result ++ [(k, v)]) s
      else Done (result, s)
  end.

Definition getManySorted (key : Key) (count : N) (now : Ttl) (s : InMemoryKVStorage)
    : outcome (list (Key * Value) * InMemoryKVStorage) :=
  getManySorted_loop
    (StdSet.lower_bound ComparatorPtrKey key (_setSortedKeyPtr s))
    0 count now [] s.

Definition removeOneExpiredEntry (now : Ttl) (s : InMemoryKVStorage)
    : outcome (option (Key * Value) * InMemoryKVStorage) :=
  match _setSortedTtlPtr s with
  | [] => Done (None, s)
  | it :: _ =>
      if (pointee (snd it) <? now)%Z then
        let key := pointee (fst it) in
        let* (o, kv) := Dict.get std_hash key (_keyValueDictionary s) in
        value <- value o ;;
        let* (_, s) := remove key (with_keyValueDictionary kv s) in
        Done (Some (key, value), s)
      else Done (None, s)
  end.

(** *** What a storage holds *)

(** The entry of the value index and of the expiration index for [key]. *)
Definition value_of (key : Key) (s : InMemoryKVStorage) : option Value :=
  Dict.lookup std_hash key (_keyValueDictionary s).

Definition expiration_of (key : Key) (s : InMemoryKVStorage) : option Ttl :=
  Dict.lookup std_hash key (_keyTtlDictionary s).

(** The expiration index holds for [key] a time strictly before [now]. *)
Definition expired (key : Key) (now : Ttl) (s : InMemoryKVStorage) : bool :=
  match expiration_of key s with
  | Some t => (t <? now)%Z
  | None => false
  end.

(** The states the public operations lead to from the empty storage. *)
Inductive reachable : InMemoryKVStorage -> Prop :=
| reachable_create : reachable create
| reachable_set s pKey pTtl key value ttl now s' :
    reachable s ->
    set pKey pTtl key value ttl now s = Done s' ->
    reachable s'
| reachable_remove s key r s' :
    reachable s -> remove key s = Done (r, s') -> reachable s'
| reachable_get s key now r s' :
    reachable s -> get key now s = Done (r, s') -> reachable s'
| reachable_getManySorted s key count now r s' :
    reachable s -> getManySorted key count now s = Done (r, s') -> reachable s'
| reachable_removeOneExpiredEntry s now r s' :
    reachable s -> removeOneExpiredEntry now s = Done (r, s') -> reachable s'.

(** The TTL property in the words of the specification: after
    [set(key, value, ttl)] at clock [T0], [get] returns the value while the
    clock reads less than [T0 + ttl] and nothing from [T0 + ttl] on. *)
Definition expires_from_deadline_on (s : InMemoryKVStorage) (pKey pTtl : N)
    (key : Key) (value : Value) (ttl T0 : Ttl) : Prop :=
  exists s',
    set pKey pTtl key value ttl T0 s = Done s'
    /\ forall now,
         ((now < T0 + ttl)%Z -> get key now s' = Done (Some value, s'))
         /\ ((T0 + ttl <= now)%Z -> get key now s' = Done (None, s')).

(** Re-use of an expired key in the words of the specification:
    [set(key, value, ttl)] makes [get(key)] return the value. *)
Definition revived_by_set (s : InMemoryKVStorage) (pKey pTtl : N)
    (key : Key) (value : Value) (ttl now : Ttl) : Prop :=
  exists s',
    set pKey pTtl key value ttl now s = Done s'
    /\ get key now s' = Done (Some value, s').

(** A call of a public operation, with the clock reading it sees, and a
    sequence of calls; results are dropped. *)
Inductive call : Type :=
| call_set (pKey pTtl : N) (key : Key) (value : Value) (ttl now : Ttl)
| call_remove (key : Key)
| call_get (key : Key) (now : Ttl)
| call_getManySorted (key : Key) (count : N) (now : Ttl)
| call_removeOneExpiredEntry (now : Ttl).

Definition step (c : call) (s : InMemoryKVStorage) : outcome InMemoryKVStorage :=
  match c with
  | call_set pKey pTtl key value ttl now => set pKey pTtl key value ttl now s
  | call_remove key => let* (_, s) := remove key s in Done s
  | call_get key now => let* (_, s) := get key now s in Done s
  | call_getManySorted key count now =>
      let* (_, s) := getManySorted key count now s in Done s
  | call_removeOneExpiredEntry now =>
      let* (_, s) := removeOneExpiredEntry now s in Done s
  end.

Fixpoint run (cs : list call) (s : InMemoryKVStorage) : outcome InMemoryKVStorage :=
  match cs with
  | [] => Done s
  | c :: cs' => s <- step c s ;; run cs' s
  end.

(** Both dictionaries are settled and the key-ordered set lists, in
    increasing order, exactly the keys of the value index. *)
Definition consistent (s : InMemoryKVStorage) : Prop :=
  Dict.settled (_keyValueDictionary s)
  /\ Dict.settled (_keyTtlDictionary s)
  /\ StronglySorted (fun a b => ComparatorPtrKey a b = true) (_setSortedKeyPtr s)
  /\ forall key, key ∈ _setSortedKeyPtr s <-> is_Some (value_of key s).

End InMemoryKVStorage.

Arguments InMemoryKVStorage : clear implicits.
Arguments call : clear implicits.

End Storage.


(** ** The instances the scenarios run on *)

Module Scenario.

(** [ConflictHash] of tests/test_dictionary.cpp *)
Definition ConflictHash (key : string) : N := 1.

(** [FillDictionary(dict, count, prefix)] of tests/test_dictionary.cpp *)
Fixpoint FillDictionary_from (hash : string -> N) (i : nat) (count : nat)
    (prefix : string) (dict : Dict.Dictionary string string)
    : outcome (Dict.Dictionary string string) :=
  match count with
  | O => Done dict
  | S count' =>
      dict <- Dict.set hash (prefix +:+ pretty i) ("val_" +:+ pretty i) dict ;;
      FillDictionary_from hash (S i) count' prefix dict
  end.

Definition FillDictionary (hash : string -> N) (dict : Dict.Dictionary string string)
    (count : nat) (prefix : string) : outcome (Dict.Dictionary string string) :=
  FillDictionary_from hash 0 count prefix dict.

(** [std::hash<std::string>] is left to the implementation; the scenarios
    of the storage run with 64-bit FNV-1a in its place. *)
Definition std_hash_model (key : string) : N :=
  fold_left (fun h c => ((N.lxor h (N_of_ascii c)) * 1099511628211) mod 2 ^ 64)%N
    (list_ascii_of_string key) 14695981039346656037%N.

(** [TestStorage] of tests/test_kvstorage.cpp, on that hash. *)
Definition TestStorage : Type := Storage.InMemoryKVStorage string.

(** The storage a sequence of calls leaves behind when run from the empty
    storage (the empty storage itself when one of the calls raises). *)
Definition storage_after (cs : list (Storage.call string)) : TestStorage :=
  match Storage.run std_hash_model cs Storage.create with
  | Done s => s
  | Raise _ => Storage.create
  end.

(** [Set("a",v1,0); Set("b",v2,0); Set("d",v3,0); Set("e",v4,0)]. *)
Definition four_keys : list (Storage.call string) :=
  [ Storage.call_set 16 17 "a" "val1" 0 0;
    Storage.call_set 32 33 "b" "val2" 0 0;
    Storage.call_set 48 49 "d" "val3" 0 0;
    Storage.call_set 64 65 "e" "val4" 0 0 ].

(** [Set("key1","value1",5)] at clock 0. *)
Definition one_key_ttl5 : list (Storage.call string) :=
  [ Storage.call_set 16 17 "key1" "value1" 5 0 ].

(** [Set("y","vy",10); Set("x","vx",1)] at clock 0, the allocations of the
    first call below those of the second. *)
Definition long_then_short : list (Storage.call string) :=
  [ Storage.call_set 16 17 "y" "vy" 10 0;
    Storage.call_set 32 33 "x" "vx" 1 0 ].

(** [Set("k","v1",1); Set("k","v2",1)] at clock 0. *)
Definition same_key_twice : list (Storage.call string) :=
  [ Storage.call_set 16 17 "k" "v1" 1 0;
    Storage.call_set 32 33 "k" "v2" 1 0 ].

(** [Set("key1","value1",5)] at clock 0, then
    [Set("key1","value1_new",10)] at clock 3 (the test [UpdateTTL]). *)
Definition update_ttl : list (Storage.call string) :=
  [ Storage.call_set 16 17 "key1" "value1" 5 0;
    Storage.call_set 32 33 "key1" "value1_new" 10 3 ].

(** [Set("k","v0",5); Set("k","v",0)] at clock 0. *)
Definition finite_then_permanent : list (Storage.call string) :=
  [ Storage.call_set 16 17 "k" "v0" 5 0;
    Storage.call_set 32 33 "k" "v" 0 0 ].

(** [Set("a","val1",5); Set("a","val2",7)] at clock 0. *)
Definition two_deadlines : list (Storage.call string) :=
  [ Storage.call_set 16 17 "a" "val1" 5 0;
    Storage.call_set 32 33 "a" "val2" 7 0 ].

(** [Set("b","val1",3); Set("b","val2",0)] at clock 0. *)
Definition permanent_after_finite : list (Storage.call string) :=
  [ Storage.call_set 16 17 "b" "val1" 3 0;
    Storage.call_set 32 33 "b" "val2" 0 0 ].

(** [Set("c","val3",4); Set("c","val4",9); Remove("c")] at clock 0. *)
Definition removed_after_two_deadlines : list (Storage.call string) :=
  [ Storage.call_set 16 17 "c" "val3" 4 0;
    Storage.call_set 32 33 "c" "val4" 9 0;
    Storage.call_remove "c" ].

(** [Set("key1","value1",5)] at clock 0 and, at clock 6,
    [RemoveOneExpiredEntry()]. *)
Definition one_key_evicted : list (Storage.call string) :=
  [ Storage.call_set 16 17 "key1" "value1" 5 0;
    Storage.call_removeOneExpiredEntry 6 ].

(** [dict.set("a","1"); dict.set("b","2"); dict.remove("a");
    dict.get("b"); dict.find("c")]. *)
Definition set_set_remove_get_find : list (Dict.command string string) :=
  [ Dict.do_set "a" "1"; Dict.do_set "b" "2"; Dict.do_remove "a";
    Dict.do_get "b"; Dict.do_find "c" ].

(** The dictionary a sequence of commands leaves behind when run on a
    new dictionary of [size] buckets (the new dictionary itself when one
    of the commands raises). *)
Definition dictionary_after (hash : string -> N) (size : N)
    (cs : list (Dict.command string string)) : Dict.Dictionary string string :=
  match Dict.exec_all hash cs (Dict.create size) with
  | Done d => d
  | Raise _ => Dict.create size
  end.

(** The dictionary [FillDictionary(dict, count, "k")] leaves behind when
    [dict] is new and has [size] buckets (the new dictionary itself when
    one of the [set]s raises). *)
Definition dictionary_filled (hash : string -> N) (size : N) (count : nat)
    : Dict.Dictionary string string :=
  match FillDictionary hash (Dict.create size) count "k" with
  | Done d => d
  | Raise _ => Dict.create size
  end.

(** That dictionary after [dict.get(key)]. *)
Definition dictionary_filled_then_get (hash : string -> N) (size : N) (count : nat)
    (key : string) : Dict.Dictionary string string :=
  match Dict.get hash key (dictionary_filled hash size count) with
  | Done (_, d) => d
  | Raise _ => Dict.create size
  end.

End Scenario.

(** * Properties of [std::set] under a strict total order *)

Module StdSetFacts.
Import StdSet.

Section Ordered.
Context {A : Type}.
Variable less : A -> A -> bool.
Hypothesis less_irrefl : forall x, less x x = false.
Hypothesis less_trans : forall x y z, less x y = true -> less y z = true -> less x z = true.
Hypothesis less_total : forall x y, less x y = false -> less y x = false -> x = y.

Local Abbreviation sorted := (StronglySorted (fun a b => less a b = true)).

Lemma filter_all (P : A -> Prop) `{forall x, Decision (P x)} (l : list A) :
  Forall P l -> filter P l = l.
Proof.
  induction 1 as [|x l Hx Hl IH]; [done|].
  rewrite filter_cons_True by done. by rewrite IH.
Qed.

Lemma insert_elem x y l : y ∈ insert less x l <-> y = x \/ y ∈ l.
Proof.
  induction l as [|z l IH]; simpl.
  - rewrite list_elem_of_singleton. split; [by left|].
    intros [?|?%elem_of_nil]; done.
  - destruct (less x z) eqn:Hxz; [apply elem_of_cons|].
    destruct (less z x) eqn:Hzx.
    + rewrite !elem_of_cons, IH. tauto.
    + rewrite (less_total x z Hxz Hzx), elem_of_cons. tauto.
Qed.

Lemma insert_sorted x l : sorted l -> sorted (insert less x l).
Proof.
  induction 1 as [|z l Hs IH Hz]; simpl.
  - repeat constructor.
  - destruct (less x z) eqn:Hxz.
    + constructor; [by constructor|]. constructor; [done|].
      rewrite Forall_forall in Hz |- *. intros w Hw. eauto.
    + destruct (less z x) eqn:Hzx; [|by constructor].
      constructor; [done|]. rewrite Forall_forall in Hz |- *.
      intros w [->|Hw]%insert_elem; auto.
Qed.

Lemma insert_present x l : sorted l -> x ∈ l -> insert less x l = l.
Proof.
  induction 1 as [|z l Hs IH Hz]; simpl.
  - by intros ?%elem_of_nil.
  - rewrite Forall_forall in Hz. intros Hx.
    destruct (less x z) eqn:Hxz.
    + apply elem_of_cons in Hx as [->|Hx]; [by rewrite less_irrefl in Hxz|].
      apply Hz in Hx. pose proof (less_trans _ _ _ Hxz Hx) as Hxx.
      by rewrite less_irrefl in Hxx.
    + destruct (less z x) eqn:Hzx; [|done].
      apply elem_of_cons in Hx as [->|Hx]; [by rewrite less_irrefl in Hzx|].
      by rewrite IH.
Qed.

Lemma find_erase_elem x y l :
  sorted l -> y ∈ find_erase less x l <-> y ∈ l /\ y <> x.
Proof.
  induction 1 as [|z l Hs IH Hz]; simpl.
  - split; [by intros ?%elem_of_nil | by intros [?%elem_of_nil _]].
  - rewrite Forall_forall in Hz.
    destruct (less z x) eqn:Hzx.
    + rewrite !elem_of_cons, IH. split; [|tauto].
      intros [->|[? ?]]; [|tauto]. split; [tauto|].
      intros ->. by rewrite less_irrefl in Hzx.
    + destruct (less x z) eqn:Hxz.
      * split; [|tauto]. intros Hy. split; [done|]. intros ->.
        apply elem_of_cons in Hy as [->|Hy]; [by rewrite less_irrefl in Hxz|].
        apply Hz in Hy. congruence.
      * rewrite (less_total x z Hxz Hzx) in *. rewrite elem_of_cons.
        split; [|tauto]. intros Hy. split; [tauto|]. intros ->.
        apply Hz in Hy. by rewrite less_irrefl in Hy.
Qed.

Lemma find_erase_sorted x l : sorted l -> sorted (find_erase less x l).
Proof.
  induction 1 as [|z l Hs IH Hz]; simpl.
  - constructor.
  - destruct (less z x) eqn:Hzx.
    + constructor; [done|]. rewrite Forall_forall in Hz |- *.
      intros w Hw. apply find_erase_elem in Hw as [Hw _]; auto.
    + destruct (less x z); [by constructor | done].
Qed.

(** On a sorted sequence [lower_bound] keeps exactly the elements that
    are not less than the bound. *)
Lemma lower_bound_filter x l :
  sorted l -> lower_bound less x l = filter (fun y => less y x = false) l.
Proof.
  induction 1 as [|z l Hs IH Hz]; simpl; [done|].
  destruct (less z x) eqn:Hzx.
  - rewrite filter_cons_False; [done | by rewrite Hzx].
  - rewrite filter_cons_True by done. f_equal.
    symmetry. apply filter_all. rewrite Forall_forall in Hz |- *.
    intros w Hw. destruct (less w x) eqn:Hwx; [|done].
    by rewrite (less_trans _ _ _ (Hz w Hw) Hwx) in Hzx.
Qed.

End Ordered.
End StdSetFacts.

(** * Properties of the dictionary *)

Module DictFacts.
Import Dict.

Section Chains.
Context {Key Value : Type} `{EqDecision Key}.
Implicit Types (c : chain Key Value) (key : Key) (value : Value).

Lemma chain_find_key key c n : chain_find key c = Some n -> n.1 = key.
Proof.
  induction c as [|[k v] c IH]; simpl; [done|].
  destruct (decide (k = key)); [|done].
  intros [= <-]. done.
Qed.

Lemma chain_find_None key c : chain_find key c = None <-> key ∉ c.*1.
Proof.
  induction c as [|[k v] c IH]; simpl.
  - split; [intros _; apply not_elem_of_nil | done].
  - rewrite not_elem_of_cons. destruct (decide (k = key)) as [->|Hne].
    + split; [done | by intros [? _]].
    + rewrite IH. split; [by intros ?; split | by intros [_ ?]].
Qed.

Lemma chain_assign_keys key value c : (chain_assign key value c).*1 = c.*1.
Proof.
  induction c as [|[k v] c IH]; simpl; [done|].
  destruct (decide (k = key)); simpl; [done|]. f_equal. exact IH.
Qed.

Lemma chain_find_assign key value key' c :
  is_Some (chain_find key c) ->
  snd <$> chain_find key' (chain_assign key value c)
  = if decide (key' = key) then Some value else snd <$> chain_find key' c.
Proof.
  induction c as [|[k v] c IH]; simpl.
  - intros [? [=]].
  - intros Hs. destruct (decide (k = key)) as [->|Hne]; simpl.
    + destruct (decide (key = key')) as [->|]; simpl.
      * by rewrite decide_True.
      * by rewrite decide_False.
    + destruct (decide (k = key')) as [->|]; simpl.
      * by rewrite decide_False.
      * by apply IH.
Qed.

Lemma chain_find_cons key value key' c :
  snd <$> chain_find key' ((key, value) :: c)
  = if decide (key' = key) then Some value else snd <$> chain_find key' c.
Proof.
  simpl. destruct (decide (key = key')) as [->|].
  - by rewrite decide_True.
  - by rewrite decide_False.
Qed.

Lemma chain_unlink_subset key c k : k ∈ (chain_unlink key c).*1 -> k ∈ c.*1.
Proof.
  induction c as [|[k0 v] c IH]; simpl; [done|].
  destruct (decide (k0 = key)); simpl; rewrite ?elem_of_cons; tauto.
Qed.

Lemma chain_unlink_NoDup key c : NoDup c.*1 -> NoDup (chain_unlink key c).*1.
Proof.
  induction c as [|[k v] c IH]; simpl; [done|].
  rewrite NoDup_cons. intros [Hk Hc].
  destruct (decide (k = key)); simpl; [done|].
  apply NoDup_cons. split; [|by apply IH].
  intros Hin. by apply Hk, (chain_unlink_subset key).
Qed.

Lemma chain_find_unlink key key' c :
  NoDup c.*1 ->
  snd <$> chain_find key' (chain_unlink key c)
  = if decide (key' = key) then None else snd <$> chain_find key' c.
Proof.
  induction c as [|[k v] c IH]; simpl.
  - by destruct (decide (key' = key)).
  - rewrite NoDup_cons. intros [Hk Hc].
    destruct (decide (k = key)) as [->|Hne]; simpl.
    + destruct (decide (key' = key)) as [->|Hne'].
      * apply chain_find_None in Hk. by rewrite Hk.
      * by rewrite decide_False.
    + destruct (decide (k = key')) as [->|]; simpl.
      * by rewrite decide_False.
      * by apply IH.
Qed.

Lemma read_Some (a : list (chain Key Value)) (i : N) c :
  a !! N.to_nat i = Some c -> read a i = Done c.
Proof. unfold read. by intros ->. Qed.

Lemma write_Some (a : list (chain Key Value)) (i : N) c c' :
  a !! N.to_nat i = Some c -> write a i c' = Done (<[N.to_nat i := c']> a).
Proof.
  intros Hi. unfold write. apply lookup_lt_Some in Hi. by rewrite decide_True.
Qed.

End Chains.

Section Settled.
Context {Key Value : Type} `{EqDecision Key}.
Variable hash : Key -> N.
Implicit Types (c : chain Key Value) (d : Dictionary Key Value) (key : Key).

Lemma settled_index key d :
  settled d ->
  (N.to_nat (hash key mod _dictionarySize d) < length (_dictionary d))%nat.
Proof.
  intros (_ & [Hpos _] & Hlen & _). rewrite Hlen.
  pose proof (N.mod_lt (hash key) (_dictionarySize d)). lia.
Qed.

Lemma settled_bucket key d :
  settled d ->
  _dictionary d !! N.to_nat (hash key mod _dictionarySize d) = Some (bucket hash key d)
  /\ NoDup (bucket hash key d).*1.
Proof.
  intros Hd. pose proof (settled_index key d Hd) as Hlt.
  unfold bucket.
  destruct (_dictionary d !! N.to_nat (hash key mod _dictionarySize d)) as [c|] eqn:Hc.
  - simpl. split; [reflexivity|].
    destruct Hd as (_ & _ & _ & Hnd).
    rewrite Forall_forall in Hnd. apply Hnd. eapply list_elem_of_lookup_2, Hc.
  - apply lookup_ge_None in Hc. lia.
Qed.

Lemma preCommandActions_settled d : settled d -> preCommandActions d = Done d.
Proof.
  intros (Hidx & [_ Hle] & _). unfold preCommandActions, isRehashing, isNeedRehash.
  rewrite Hidx, N.eqb_refl.
  apply N.ltb_ge in Hle. rewrite Hle. reflexivity.
Qed.

Lemma isRehashing_settled d : settled d -> isRehashing d = false.
Proof. intros (Hidx & _). unfold isRehashing. by rewrite Hidx, N.eqb_refl. Qed.

Lemma getBucketIndex_settled key d :
  settled d ->
  getBucketIndex hash key (_dictionarySize d)
  = Done (hash key mod _dictionarySize d)%N.
Proof.
  intros (_ & [Hpos _] & _). unfold getBucketIndex.
  destruct (N.eqb_spec (_dictionarySize d) 0); [lia | done].
Qed.

(** [get] on a settled dictionary reads the bucket and changes nothing. *)
Lemma get_settled key d :
  settled d -> get hash key d = Done (lookup hash key d, d).
Proof.
  intros Hd. unfold get. rewrite (preCommandActions_settled d Hd). simpl.
  rewrite (isRehashing_settled d Hd). unfold _get.
  rewrite (getBucketIndex_settled key d Hd). simpl.
  destruct (settled_bucket key d Hd) as [Hb _].
  by rewrite (read_Some _ _ _ Hb).
Qed.

(** The primary array after bucket [key] was given the chain [c']. *)
Lemma settled_update key d c' used :
  settled d ->
  NoDup c'.*1 ->
  let d' := set_used used
              (assign ref_dictionary
                 (<[N.to_nat (hash key mod _dictionarySize d) := c']> (_dictionary d)) d) in
  settled d'
  /\ bucket hash key d' = c'
  /\ forall key', (hash key' mod _dictionarySize d <> hash key mod _dictionarySize d)%N ->
                 bucket hash key' d' = bucket hash key' d.
Proof.
  intros Hd Hc'. pose proof (settled_index key d Hd) as Hlt.
  destruct Hd as (Hidx & Hsz & Hlen & Hnd). intros d'.
  split; [|split].
  - subst d'. unfold settled. simpl. split; [done|]. split; [done|].
    split; [by rewrite length_insert | by apply Forall_insert].
  - subst d'. unfold bucket. simpl. by rewrite list_lookup_insert_eq.
  - intros key' Hne. subst d'. unfold bucket. simpl.
    rewrite list_lookup_insert_ne; [done|]. lia.
Qed.

Lemma bucket_same_index key key' d :
  (hash key' mod _dictionarySize d = hash key mod _dictionarySize d)%N ->
  bucket hash key' d = bucket hash key d.
Proof. intros Heq. unfold bucket. by rewrite Heq. Qed.

(** Replacing the chain of the bucket of [key] by one that answers [r]
    for [key] and the same as before for the other keys. *)
Lemma settled_update_lookup key d c' used (r : option Value) :
  settled d ->
  NoDup c'.*1 ->
  (forall key', snd <$> chain_find key' c'
                = if decide (key' = key) then r
                  else snd <$> chain_find key' (bucket hash key d)) ->
  let d' := set_used used
              (assign ref_dictionary
                 (<[N.to_nat (hash key mod _dictionarySize d) := c']> (_dictionary d)) d) in
  settled d'
  /\ forall key', lookup hash key' d'
                 = if decide (key' = key) then r else lookup hash key' d.
Proof.
  intros Hd Hnd Hc'.
  destruct (settled_update key d c' used Hd Hnd) as (Hd' & Hsame & Hother).
  cbv zeta in *. split; [exact Hd'|].
  intros key'. unfold lookup.
  destruct (decide (hash key' mod _dictionarySize d
                    = hash key mod _dictionarySize d)%N) as [Heq|Hne].
  - rewrite (bucket_same_index key key' d Heq), <- Hc'.
    match goal with
    | |- context [bucket hash key' ?D] =>
        rewrite (bucket_same_index key key' D Heq), Hsame
    end. reflexivity.
  - rewrite decide_False by congruence.
    by rewrite (Hother key' Hne).
Qed.

(** [set] on a settled dictionary binds [key] to [value] and nothing
    else changes. *)
Lemma set_settled key value d :
  settled d ->
  exists d', set hash key value d = Done d'
    /\ settled d'
    /\ forall key', lookup hash key' d'
                   = if decide (key' = key) then Some value else lookup hash key' d.
Proof.
  intros Hd. unfold set. rewrite (preCommandActions_settled d Hd). cbn [bind deref].
  rewrite (isRehashing_settled d Hd). unfold _set.
  rewrite (getBucketIndex_settled key d Hd). cbn [bind deref].
  destruct (settled_bucket key d Hd) as [Hb Hnd].
  rewrite (read_Some _ _ _ Hb). cbn [bind deref].
  destruct (bucket hash key d) as [|n c] eqn:Hc.
  - rewrite (write_Some _ _ _ _ Hb). cbn [bind deref]. eexists. split; [reflexivity|].
    apply settled_update_lookup; [done | | ].
    + simpl. apply NoDup_singleton.
    + intros key'. rewrite Hc. apply chain_find_cons.
  - destruct (chain_find key (n :: c)) as [m|] eqn:Hf.
    + rewrite (write_Some _ _ _ _ Hb). cbn [bind deref]. eexists. split; [reflexivity|].
      replace (assign ref_dictionary _ d) with
        (set_used (_dictionaryUsed d)
           (assign ref_dictionary
              (<[N.to_nat (hash key mod _dictionarySize d)
                 := chain_assign key value (n :: c)]> (_dictionary d)) d))
        by (by destruct d).
      apply settled_update_lookup; [done | | ].
      * by rewrite chain_assign_keys.
      * intros key'. rewrite Hc. apply chain_find_assign. by rewrite Hf.
    + rewrite (write_Some _ _ _ _ Hb). cbn [bind deref]. eexists. split; [reflexivity|].
      apply settled_update_lookup; [done | | ].
      * change (NoDup (key :: (n :: c).*1)).
        apply NoDup_cons_2; [|done].
        apply chain_find_None. exact Hf.
      * intros key'. rewrite Hc. apply chain_find_cons.
Qed.

(** [remove] on a settled dictionary unbinds [key] and tells whether it
    was bound. *)
Lemma remove_settled key d :
  settled d ->
  exists d', remove hash key d = Done (has_value (lookup hash key d), d')
    /\ settled d'
    /\ forall key', lookup hash key' d'
                   = if decide (key' = key) then None else lookup hash key' d.
Proof.
  intros Hd. unfold remove. rewrite (preCommandActions_settled d Hd). cbn [bind deref].
  rewrite (isRehashing_settled d Hd). unfold _remove.
  rewrite (getBucketIndex_settled key d Hd). cbn [bind deref].
  destruct (settled_bucket key d Hd) as [Hb Hnd].
  rewrite (read_Some _ _ _ Hb). cbn [bind deref]. unfold lookup at 1.
  destruct (chain_find key (bucket hash key d)) as [m|] eqn:Hf; cbn [bind fmap option_fmap option_map has_value].
  - rewrite (write_Some _ _ _ _ Hb). cbn [bind deref]. eexists. split; [reflexivity|].
    apply settled_update_lookup; [done | | ].
    + by apply chain_unlink_NoDup.
    + intros key'. by apply chain_find_unlink.
  - exists d. split; [reflexivity|]. split; [done|].
    intros key'. destruct (decide (key' = key)) as [->|]; [|done].
    unfold lookup. by rewrite Hf.
Qed.

Lemma create_settled (n : N) :
  (0 < n <= BASIC_DICTIONARY_SIZE)%N ->
  settled (create n : Dictionary Key Value)
  /\ forall key, lookup hash key (create n : Dictionary Key Value) = None.
Proof.
  intros Hn. split.
  - unfold settled, create. simpl. split; [done|]. split; [done|].
    split; [by rewrite length_replicate|].
    apply Forall_replicate. simpl. apply NoDup_nil_2.
  - intros key. unfold lookup, bucket, create. simpl.
    rewrite lookup_replicate_2; [done|].
    pose proof (N.mod_lt (hash key) n). lia.
Qed.

End Settled.

Section Rehash.
Context {Key Value : Type} `{EqDecision Key}.
Variable hash : Key -> N.
Implicit Types (d : Dictionary Key Value) (key : Key).

(** The loop of [rehash] on an array of the declared length: it runs to
    the end of its budget or of the array, whichever comes first, and
    touches nothing but the primary array and the cursor. *)
Lemma rehash_loop_runs (budget : nat) d :
  length (_dictionary d) = N.to_nat (_dictionarySize d) ->
  (_dictionarySize d < SIZE_MAX)%N ->
  (_rehashIndex d <= _dictionarySize d)%N ->
  exists a,
    rehash_loop budget d
    = Done (mkDictionary a (_dictionarySize d) (_dictionaryUsed d)
              (_alternativeDictionary d) (_alternativeDictionarySize d)
              (N.min (_rehashIndex d + N.of_nat budget) (_dictionarySize d)))
    /\ length a = N.to_nat (_dictionarySize d).
Proof.
  revert d. induction budget as [|budget IH]; intros d Hlen Hmax Hidx.
  - exists (_dictionary d). cbn [rehash_loop]. split; [|done].
    destruct d as [a n u alt altn i]. cbn in *. do 2 f_equal. lia.
  - cbn [rehash_loop]. destruct (N.ltb_spec (_rehashIndex d) (_dictionarySize d)) as [Hlt|Hge].
    + destruct (lookup_lt_is_Some_2 (_dictionary d) (N.to_nat (_rehashIndex d)))
        as [c Hc]; [lia|].
      rewrite (read_Some _ _ _ Hc). cbn [bind].
      assert (size_incr (_rehashIndex d) = (_rehashIndex d + 1)%N) as Hincr.
      { unfold size_incr. apply N.mod_small. unfold SIZE_MAX in Hmax. lia. }
      assert (exists a', match c with
                         | [] => Done (_dictionary d)
                         | _ :: _ => write (_dictionary d) (_rehashIndex d) []
                         end = Done a'
                         /\ length a' = N.to_nat (_dictionarySize d)) as (a' & -> & Hlen').
      { destruct c.
        - by exists (_dictionary d).
        - rewrite (write_Some _ _ _ _ Hc). eexists. split; [done|].
          by rewrite length_insert. }
      cbn [bind]. rewrite Hincr.
      edestruct (IH (mkDictionary a' (_dictionarySize d) (_dictionaryUsed d)
                       (_alternativeDictionary d) (_alternativeDictionarySize d)
                       (_rehashIndex d + 1)%N)) as (a & Hrun & Hlena);
        cbn [_dictionary _dictionarySize _rehashIndex]; [done | done | lia |].
      exists a. rewrite Hrun. cbn. split; [|done]. do 2 f_equal. lia.
    + exists (_dictionary d). split; [|done].
      destruct d as [a n u alt altn i]. cbn in *. do 2 f_equal. lia.
Qed.

(** Growth loses the table. When a growth rehash is due on a dictionary of
    at most [DICTIONARY_REHASH_BUCKET_COUNT] buckets, the next [get] starts
    and completes it: the primary array becomes the freshly allocated one,
    no chain is carried over, the declared capacity and the entry count stay
    as they were, and the key is not found, whatever was stored. *)
Lemma get_after_growth_finds_nothing key d :
  isRehashing d = false ->
  isNeedRehash d = true ->
  double_lt (fillFactor d) DICTIONARY_LOW_LIMIT_REHASH = false ->
  (_dictionarySize d <= 32)%N ->
  length (_dictionary d) = N.to_nat (_dictionarySize d) ->
  get hash key d
  = Done (None,
          mkDictionary (replicate (N.to_nat (2 * _dictionarySize d)) [])
            (_dictionarySize d) (_dictionaryUsed d) []
            (2 * _dictionarySize d)%N SIZE_MAX).
Proof.
  intros Hidle Hdue Hgrow Hsmall Hlen.
  assert (BASIC_DICTIONARY_SIZE < _dictionarySize d)%N as Hbig.
  { unfold isNeedRehash in Hdue. apply andb_true_iff in Hdue as [Hdue _].
    apply andb_true_iff in Hdue as [Hdue _]. by apply N.ltb_lt in Hdue. }
  unfold BASIC_DICTIONARY_SIZE in Hbig.
  unfold get, preCommandActions. rewrite Hidle, Hdue. unfold rehash.
  destruct (rehash_loop_runs DICTIONARY_REHASH_BUCKET_COUNT (prepareRehash d))
    as (a & -> & Hlena).
  { exact Hlen. }
  { cbn. unfold SIZE_MAX. lia. }
  { cbn. lia. }
  unfold prepareRehash.
  cbn [bind _rehashIndex _dictionary _dictionarySize _alternativeDictionary
       _dictionaryUsed _alternativeDictionarySize].
  replace (N.min (0 + N.of_nat DICTIONARY_REHASH_BUCKET_COUNT) (_dictionarySize d))
    with (_dictionarySize d)
    by (unfold DICTIONARY_REHASH_BUCKET_COUNT; lia).
  rewrite N.eqb_refl. unfold isRehashing.
  cbn [bind _rehashIndex _dictionary _dictionarySize _alternativeDictionary
       _dictionaryUsed _alternativeDictionarySize].
  rewrite N.eqb_refl. cbn [negb].
  rewrite Hgrow.
  assert (size_mul (_dictionarySize d) 2 = (2 * _dictionarySize d)%N) as ->.
  { unfold size_mul. rewrite N.mod_small; lia. }
  unfold _get, getBucketIndex.
  destruct (N.eqb_spec (_dictionarySize d) 0) as [?|_]; [lia|]. cbn [bind].
  unfold read. rewrite lookup_replicate_2; [reflexivity|].
  pose proof (N.mod_lt (hash key) (_dictionarySize d)). lia.
Qed.

End Rehash.

Section Schedule.
Context {Key Value : Type}.
Implicit Types d : Dictionary Key Value.

(** A [double] above the high limit is not below the low limit. *)
Lemma above_high_not_below_low (f : double) :
  double_lt DICTIONARY_HIGH_LIMIT_REHASH f = true ->
  double_lt f DICTIONARY_LOW_LIMIT_REHASH = false.
Proof.
  unfold double_lt, SFltb, DICTIONARY_HIGH_LIMIT_REHASH, DICTIONARY_LOW_LIMIT_REHASH.
  destruct f as [[]|[]| |[] m e]; cbn [SFcompare]; try discriminate; try reflexivity.
  destruct (Z.compare_spec e (-59)) as [He|He|He]; cbv beta iota;
    [ | | intros _; reflexivity];
    (destruct (Z.compare_spec (-52) e) as [H1|H1|H1]; cbv beta iota;
       [lia | lia | discriminate]).
Qed.

End Schedule.
End DictFacts.

(** * Properties of the storage *)

Module StorageFacts.
Import Storage.

(** [operator<] of [std::string] is a strict total order. *)
Lemma ComparatorPtrKey_lt a b : ComparatorPtrKey a b = true <-> String_as_OT.lt a b.
Proof.
  unfold ComparatorPtrKey, String.ltb. rewrite <- String_as_OT.cmp_lt.
  unfold String_as_OT.cmp. destruct (String.compare a b); split; congruence.
Qed.

Lemma ComparatorPtrKey_irrefl a : ComparatorPtrKey a a = false.
Proof.
  destruct (ComparatorPtrKey a a) eqn:Ha; [|done].
  apply ComparatorPtrKey_lt, String_as_OT.lt_not_eq in Ha. by destruct Ha.
Qed.

Lemma ComparatorPtrKey_trans a b c :
  ComparatorPtrKey a b = true -> ComparatorPtrKey b c = true ->
  ComparatorPtrKey a c = true.
Proof.
  rewrite !ComparatorPtrKey_lt. apply String_as_OT.lt_trans.
Qed.

Lemma ComparatorPtrKey_total a b :
  ComparatorPtrKey a b = false -> ComparatorPtrKey b a = false -> a = b.
Proof.
  unfold ComparatorPtrKey, String.ltb. rewrite (String.compare_antisym b a).
  destruct (String.compare a b) eqn:Hab; simpl; try done.
  intros _ _. by apply String.compare_eq_iff.
Qed.

Section Facts.
Context {Value : Type}.
Variable std_hash : string -> N.
Implicit Types (s : InMemoryKVStorage Value) (key : string) (now ttl : Z).

Local Abbreviation consistent := (@Storage.consistent Value std_hash).
Local Abbreviation value_of := (@Storage.value_of Value std_hash).
Local Abbreviation expiration_of := (@Storage.expiration_of Value std_hash).
Local Abbreviation expired := (@Storage.expired Value std_hash).

Lemma with_keyValueDictionary_id s :
  with_keyValueDictionary (_keyValueDictionary s) s = s.
Proof. by destruct s. Qed.

Lemma with_keyTtlDictionary_id s :
  with_keyTtlDictionary (_keyTtlDictionary s) s = s.
Proof. by destruct s. Qed.

Lemma create_consistent : consistent create.
Proof.
  assert (0 < Dict.BASIC_DICTIONARY_SIZE <= Dict.BASIC_DICTIONARY_SIZE)%N as Hn
    by (unfold Dict.BASIC_DICTIONARY_SIZE; lia).
  unfold consistent, create. simpl.
  split; [apply (DictFacts.create_settled std_hash _ Hn)|].
  split; [apply (DictFacts.create_settled std_hash _ Hn)|].
  split; [constructor|].
  intros key. unfold Storage.value_of. simpl.
  rewrite (proj2 (DictFacts.create_settled std_hash _ Hn)).
  split; [by intros ?%elem_of_nil | by intros [? ?]].
Qed.

Lemma isExist_consistent key s :
  consistent s -> isExist std_hash key s = Done (has_value (value_of key s), s).
Proof.
  intros (Hkv & _). unfold isExist.
  rewrite (DictFacts.get_settled std_hash key _ Hkv). cbn [bind].
  by rewrite with_keyValueDictionary_id.
Qed.

Lemma isExpired_consistent key now s :
  consistent s -> isExpired std_hash key now s = Done (expired key now s, s).
Proof.
  intros (_ & Hkt & _). unfold isExpired.
  rewrite (DictFacts.get_settled std_hash key _ Hkt). cbn [bind].
  unfold Storage.expired, Storage.expiration_of.
  rewrite with_keyTtlDictionary_id.
  by destruct (Dict.lookup std_hash key (_keyTtlDictionary s)).
Qed.

(** [get] leaves a consistent storage as it is and answers the stored
    value unless the expiration index holds a time before [now]. *)
Lemma get_consistent key now s :
  consistent s ->
  get std_hash key now s
  = Done (if expired key now s then None else value_of key s, s).
Proof.
  intros Hs. unfold get. rewrite (isExist_consistent key s Hs). cbn [bind].
  destruct (value_of key s) as [v|] eqn:Hv; cbn [has_value negb].
  - rewrite (isExpired_consistent key now s Hs). cbn [bind].
    destruct (expired key now s); [done|].
    destruct Hs as (Hkv & _).
    rewrite (DictFacts.get_settled std_hash key _ Hkv). cbn [bind].
    unfold Storage.value_of in Hv. rewrite Hv. cbn [value bind].
    by rewrite with_keyValueDictionary_id.
  - by destruct (expired key now s).
Qed.

Lemma keys_insert_sorted key (l : list string) :
  StronglySorted (fun a b => ComparatorPtrKey a b = true) l ->
  StronglySorted (fun a b => ComparatorPtrKey a b = true)
    (StdSet.insert ComparatorPtrKey key l).
Proof.
  apply (StdSetFacts.insert_sorted _ ComparatorPtrKey_irrefl
           ComparatorPtrKey_trans ComparatorPtrKey_total).
Qed.

Lemma keys_insert_elem key key' (l : list string) :
  key' ∈ StdSet.insert ComparatorPtrKey key l <-> key' = key \/ key' ∈ l.
Proof.
  apply (StdSetFacts.insert_elem _ ComparatorPtrKey_irrefl
           ComparatorPtrKey_trans ComparatorPtrKey_total).
Qed.

Lemma keys_erase_sorted key (l : list string) :
  StronglySorted (fun a b => ComparatorPtrKey a b = true) l ->
  StronglySorted (fun a b => ComparatorPtrKey a b = true)
    (StdSet.find_erase ComparatorPtrKey key l).
Proof.
  apply (StdSetFacts.find_erase_sorted _ ComparatorPtrKey_irrefl
           ComparatorPtrKey_trans ComparatorPtrKey_total).
Qed.

Lemma keys_erase_elem key key' (l : list string) :
  StronglySorted (fun a b => ComparatorPtrKey a b = true) l ->
  key' ∈ StdSet.find_erase ComparatorPtrKey key l <-> key' ∈ l /\ key' <> key.
Proof.
  apply (StdSetFacts.find_erase_elem _ ComparatorPtrKey_irrefl
           ComparatorPtrKey_trans ComparatorPtrKey_total).
Qed.

Lemma in_int_spec (z : Z) : in_int z = true <-> (INT_MIN <= z <= INT_MAX)%Z.
Proof. unfold in_int. rewrite andb_true_iff, !Z.leb_le. done. Qed.

(** [set] on a consistent storage, when [ttl] is zero or [ttl + now] is
    an [int]: the value index binds [key] to [value]; the expiration index
    and the expiration-ordered set change only when [ttl] is not zero. *)
Lemma set_consistent pKey pTtl key value ttl now s :
  consistent s ->
  (ttl <> 0%Z -> in_int (ttl + now) = true) ->
  exists s', set std_hash pKey pTtl key value ttl now s = Done s'
    /\ consistent s'
    /\ (forall key', value_of key' s'
                    = if decide (key' = key) then Some value else value_of key' s)
    /\ (forall key', expiration_of key' s'
                    = if decide (key' = key /\ ttl <> 0%Z) then Some (ttl + now)%Z
                      else expiration_of key' s)
    /\ _setSortedTtlPtr s'
       = (if decide (ttl = 0%Z) then _setSortedTtlPtr s
          else StdSet.insert less_pair
                 (make_shared pKey key, make_shared pTtl (ttl + now)%Z)
                 (_setSortedTtlPtr s))
    /\ _setSortedKeyPtr s' = StdSet.insert ComparatorPtrKey key (_setSortedKeyPtr s).
Proof.
  intros (Hkv & Hkt & Hsorted & Hkeys) Hint. unfold set.
  destruct (DictFacts.set_settled std_hash key value _ Hkv) as (kv & -> & Hkv' & Hlkv).
  cbn [bind].
  assert (forall kt, forall key' : string,
      key' ∈ StdSet.insert ComparatorPtrKey key (_setSortedKeyPtr s)
      <-> is_Some (Storage.value_of std_hash key'
                     (mkStorage kv kt
                        (StdSet.insert ComparatorPtrKey key (_setSortedKeyPtr s))
                        (_setSortedTtlPtr s)))) as Hkeys'.
  { intros kt key'. unfold Storage.value_of. simpl.
    rewrite keys_insert_elem, Hlkv, Hkeys. unfold Storage.value_of.
    destruct (decide (key' = key)) as [->|Hne]; [|tauto].
    split; [by eexists | by left]. }
  destruct (Z.eqb_spec ttl 0) as [->|Httl].
  - eexists. split; [reflexivity|]. split; [|split; [|split]].
    + split; [done|]. split; [done|]. split; [by apply keys_insert_sorted|].
      apply Hkeys'.
    + intros key'. unfold Storage.value_of. simpl. apply Hlkv.
    + intros key'. unfold Storage.expiration_of. simpl.
      rewrite decide_False; [done | tauto].
    + split; reflexivity.
  - unfold int_add. rewrite (Hint Httl). cbn [bind].
    destruct (DictFacts.set_settled std_hash key (ttl + now)%Z _ Hkt)
      as (kt & -> & Hkt' & Hlkt).
    cbn [bind]. eexists. split; [reflexivity|]. split; [|split; [|split]].
    + split; [done|]. split; [done|]. split; [by apply keys_insert_sorted|].
      intros key'. unfold Storage.value_of. simpl.
      specialize (Hkeys' kt key'). unfold Storage.value_of in Hkeys'. simpl in Hkeys'.
      exact Hkeys'.
    + intros key'. unfold Storage.value_of. simpl. apply Hlkv.
    + intros key'. unfold Storage.expiration_of. simpl. rewrite Hlkt.
      destruct (decide (key' = key)) as [->|Hne].
      * by rewrite decide_True.
      * rewrite decide_False; [done | tauto].
    + simpl. by rewrite decide_False.
Qed.

(** [set] with a [ttl] other than zero whose sum with the clock reading
    is not an [int] overflows. *)
Lemma set_overflow pKey pTtl key value ttl now s :
  consistent s ->
  ttl <> 0%Z ->
  in_int (ttl + now) = false ->
  set std_hash pKey pTtl key value ttl now s = Raise SignedOverflow.
Proof.
  intros (Hkv & _) Httl Hout. unfold set.
  destruct (DictFacts.set_settled std_hash key value _ Hkv) as (kv & -> & _).
  cbn [bind]. destruct (Z.eqb_spec ttl 0) as [?|_]; [done|].
  unfold int_add. by rewrite Hout.
Qed.

Lemma set_Done_in_int pKey pTtl key value ttl now s s' :
  consistent s ->
  set std_hash pKey pTtl key value ttl now s = Done s' ->
  ttl <> 0%Z -> in_int (ttl + now) = true.
Proof.
  intros Hs Hset Httl. destruct (in_int (ttl + now)) eqn:Hint; [done|].
  by rewrite (set_overflow pKey pTtl key value ttl now s Hs Httl Hint) in Hset.
Qed.

Lemma keys_insert_present key (l : list string) :
  StronglySorted (fun a b => ComparatorPtrKey a b = true) l ->
  key ∈ l -> StdSet.insert ComparatorPtrKey key l = l.
Proof.
  apply (StdSetFacts.insert_present _ ComparatorPtrKey_irrefl
           ComparatorPtrKey_trans ComparatorPtrKey_total).
Qed.

(** [remove] on a consistent storage. *)
Lemma remove_consistent key s :
  consistent s ->
  exists s', remove std_hash key s = Done (has_value (value_of key s), s')
    /\ consistent s'
    /\ (value_of key s = None -> s' = s)
    /\ (forall key', value_of key' s'
                    = if decide (key' = key) then None else value_of key' s)
    /\ (is_Some (value_of key s) ->
        (forall key', expiration_of key' s'
                      = if decide (key' = key) then None else expiration_of key' s)
        /\ _setSortedKeyPtr s'
           = StdSet.find_erase ComparatorPtrKey key (_setSortedKeyPtr s)
        /\ _setSortedTtlPtr s'
           = StdSet.find_if_erase
               (fun pair => bool_decide (pointee (fst pair) = key))
               (_setSortedTtlPtr s)).
Proof.
  intros Hs. unfold remove. rewrite (isExist_consistent key s Hs). cbn [bind].
  destruct (value_of key s) as [v|] eqn:Hv; cbn [has_value negb].
  - destruct Hs as (Hkv & Hkt & Hsorted & Hkeys).
    rewrite (DictFacts.get_settled std_hash key _ Hkv). cbn [bind].
    destruct (DictFacts.remove_settled std_hash key _ Hkv) as (kv & -> & Hkv' & Hlkv).
    cbn [bind]. unfold Storage.value_of in Hv. rewrite Hv. cbn [has_value].
    destruct (DictFacts.remove_settled std_hash key _ Hkt) as (kt & -> & Hkt' & Hlkt).
    cbn [bind]. eexists. split; [reflexivity|].
    split; [|split; [|split]].
    + split; [done|]. split; [done|]. split; [by apply keys_erase_sorted|].
      intros key'. unfold Storage.value_of. simpl.
      rewrite (keys_erase_elem _ _ _ Hsorted), Hlkv, Hkeys.
      unfold Storage.value_of.
      destruct (decide (key' = key)) as [->|Hne].
      * split; [tauto | by intros [? ?]].
      * tauto.
    + done.
    + intros key'. unfold Storage.value_of. simpl. apply Hlkv.
    + intros _. split; [|done].
      intros key'. unfold Storage.expiration_of. simpl. apply Hlkt.
  - exists s. split; [done|]. split; [done|]. split; [done|]. split.
    + intros key'. destruct (decide (key' = key)) as [->|]; done.
    + by intros [? ?].
Qed.

Lemma size_incr_decr (i : N) : (i < 2 ^ 64)%N -> size_incr (size_decr i) = i.
Proof.
  intros Hi. unfold size_incr, size_decr, SIZE_MAX.
  rewrite N.Div0.add_mod_idemp_l.
  replace (i + (2 ^ 64 - 1) + 1)%N with (i + 1 * 2 ^ 64)%N by lia.
  rewrite N.Div0.mod_add. by apply N.mod_small.
Qed.

Lemma size_incr_small (i : N) : (i < 2 ^ 64 - 1)%N -> size_incr i = (i + 1)%N.
Proof. intros Hi. unfold size_incr. apply N.mod_small. lia. Qed.

(** The loop of [getManySorted] from counter [i]: it appends the first
    [count - i] keys of the range that are not expired, each with its
    stored value, and leaves the storage as it is. *)
Lemma getManySorted_loop_consistent (it : list string) (i count : N) now
    (result : list (string * Value)) s :
  consistent s ->
  (i <= count)%N -> (count < 2 ^ 32)%N ->
  Forall (fun k => is_Some (value_of k s)) it ->
  exists more,
    getManySorted_loop std_hash it i count now result s = Done (result ++ more, s)
    /\ more.*1 = take (N.to_nat (count - i))
                   (filter (fun k => expired k now s = false) it)
    /\ Forall (fun kv => value_of kv.1 s = Some kv.2) more.
Proof.
  intros Hs Hi Hcount Hit. revert i result Hi.
  induction Hit as [|k it [v Hv] Hit IH]; intros i result Hi.
  - exists []. cbn [getManySorted_loop]. rewrite app_nil_r, filter_nil, take_nil. done.
  - cbn [getManySorted_loop]. destruct (N.ltb_spec i count) as [Hlt|Hge].
    + rewrite (isExpired_consistent k now s Hs). cbn [bind].
      destruct (expired k now s) eqn:Hexp.
      * rewrite size_incr_decr by lia.
        destruct (IH i result Hi) as (more & Hrun & Hkeys & Hvals).
        exists more. split; [exact Hrun|]. split; [|exact Hvals].
        rewrite filter_cons_False; [exact Hkeys | by rewrite Hexp].
      * rewrite (get_consistent k now s Hs). cbn [bind].
        rewrite Hexp, Hv. cbn [value bind].
        rewrite size_incr_small by lia.
        destruct (IH (i + 1)%N (result ++ [(k, v)])) as (more & Hrun & Hkeys & Hvals);
          [lia|].
        exists ((k, v) :: more). split; [|split].
        -- rewrite Hrun. by rewrite <- app_assoc.
        -- rewrite filter_cons_True by done.
           replace (N.to_nat (count - i)) with (S (N.to_nat (count - (i + 1)))) by lia.
           rewrite fmap_cons. cbn [take]. f_equal. exact Hkeys.
        -- constructor; [exact Hv | exact Hvals].
    + exists []. rewrite app_nil_r. split; [done|]. split; [|done].
      replace (count - i)%N with 0%N by lia. done.
Qed.

(** [removeOneExpiredEntry] on a consistent storage looks at the first
    pair of the expiration-ordered set only. *)
Lemma removeOneExpiredEntry_consistent now s :
  consistent s ->
  removeOneExpiredEntry std_hash now s
  = match _setSortedTtlPtr s with
    | [] => Done (None, s)
    | it :: _ =>
        if (pointee (snd it) <? now)%Z then
          match value_of (pointee (fst it)) s with
          | Some v =>
              let* (_, s') := remove std_hash (pointee (fst it)) s in
              Done (Some (pointee (fst it), v), s')
          | None => Raise BadOptionalAccess
          end
        else Done (None, s)
    end.
Proof.
  intros (Hkv & _). unfold removeOneExpiredEntry.
  destruct (_setSortedTtlPtr s) as [|it l]; [done|].
  destruct (pointee (snd it) <? now)%Z; [|done].
  rewrite (DictFacts.get_settled std_hash _ _ Hkv). cbn [bind].
  rewrite with_keyValueDictionary_id. unfold Storage.value_of.
  by destruct (Dict.lookup std_hash (pointee (fst it)) (_keyValueDictionary s)).
Qed.

(** Every reachable storage is consistent. *)
Lemma reachable_consistent s : reachable std_hash s -> consistent s.
Proof.
  induction 1 as [|s pKey pTtl key value ttl now s' _ IH Hrun
                  |s key r s' _ IH Hrun
                  |s key now r s' _ IH Hrun
                  |s key count now r s' _ IH Hrun
                  |s now r s' _ IH Hrun].
  - apply create_consistent.
  - destruct (set_consistent pKey pTtl key value ttl now s IH
                (set_Done_in_int pKey pTtl key value ttl now s s' IH Hrun))
      as (s2 & Hs2 & Hc & _).
    congruence.
  - destruct (remove_consistent key s IH) as (s2 & Hs2 & Hc & _). congruence.
  - rewrite (get_consistent key now s IH) in Hrun. congruence.
  - revert Hrun. unfold getManySorted.
    generalize (StdSet.lower_bound ComparatorPtrKey key (_setSortedKeyPtr s)).
    intros it. generalize (@nil (string * Value)). generalize 0%N.
    induction it as [|k it IHit]; intros i result; cbn [getManySorted_loop].
    + congruence.
    + destruct (i <? count)%N; [|congruence].
      rewrite (isExpired_consistent k now s IH). cbn [bind].
      destruct (expired k now s) eqn:Hexp; [apply IHit|].
      rewrite (get_consistent k now s IH), Hexp. cbn [bind].
      destruct (value_of k s); cbn [value bind]; [apply IHit | done].
  - rewrite (removeOneExpiredEntry_consistent now s IH) in Hrun.
    destruct (_setSortedTtlPtr s) as [|it l]; [congruence|].
    destruct (pointee (snd it) <? now)%Z; [|congruence].
    destruct (value_of (pointee (fst it)) s); [|done].
    destruct (remove_consistent (pointee (fst it)) s IH) as (s2 & Hs2 & Hc & _).
    rewrite Hs2 in Hrun. cbn [bind] in Hrun. congruence.
Qed.

Lemma run_reachable (cs : list (call Value)) s s' :
  reachable std_hash s -> run std_hash cs s = Done s' -> reachable std_hash s'.
Proof.
  revert s. induction cs as [|c cs IH]; intros s Hs; cbn [run].
  - by intros [= <-].
  - destruct (step std_hash c s) as [s1|] eqn:Hstep; cbn [bind]; [|done].
    apply IH. destruct c; cbn [step] in Hstep.
    + eapply reachable_set; eassumption.
    + destruct (remove std_hash key s) as [[r s2]|] eqn:Hr; cbn [bind] in Hstep; [|done].
      injection Hstep as <-. eapply reachable_remove; eassumption.
    + destruct (get std_hash key now s) as [[r s2]|] eqn:Hr; cbn [bind] in Hstep; [|done].
      injection Hstep as <-. eapply reachable_get; eassumption.
    + destruct (getManySorted std_hash key count now s) as [[r s2]|] eqn:Hr;
        cbn [bind] in Hstep; [|done].
      injection Hstep as <-. eapply reachable_getManySorted; eassumption.
    + destruct (removeOneExpiredEntry std_hash now s) as [[r s2]|] eqn:Hr;
        cbn [bind] in Hstep; [|done].
      injection Hstep as <-. eapply reachable_removeOneExpiredEntry; eassumption.
Qed.

Lemma StronglySorted_sublist {A : Type} (R : A -> A -> Prop) (l1 l2 : list A) :
  l1 `sublist_of` l2 -> StronglySorted R l2 -> StronglySorted R l1.
Proof.
  induction 1 as [|x l1 l2 Hsub IH|x l1 l2 Hsub IH]; intros Hs.
  - constructor.
  - apply StronglySorted_inv in Hs as [Hs Hx]. constructor; [by apply IH|].
    rewrite Forall_forall in Hx |- *. intros y Hy. apply Hx.
    by eapply elem_of_sublist.
  - apply StronglySorted_inv in Hs as [Hs _]. by apply IH.
Qed.

(** X18. From a reachable storage and for a [uint32_t] count,
    [getManySorted] leaves the storage unchanged and returns, each with the
    value [get] returns for it, the first [count] (or all, when there are
    fewer) keys of the key-ordered set that are not less than the start key
    and for which the expiration index holds no time before the clock,
    which is what [isExpired] tests; the keys returned are strictly
    increasing, none is less than the start key, and there are at most
    [count] of them. The key-ordered set lists, strictly increasing,
    exactly the keys of the value index. *)
Theorem getManySorted_sorted_live_prefix s key (count : N) now :
  reachable std_hash s ->
  (count < 2 ^ 32)%N ->
  exists result,
    getManySorted std_hash key count now s = Done (result, s)
    /\ result.*1
       = take (N.to_nat count)
           (filter (fun k => expired k now s = false)
              (filter (fun k => ComparatorPtrKey k key = false)
                 (_setSortedKeyPtr s)))
    /\ Forall (fun kv => get std_hash kv.1 now s = Done (Some kv.2, s)) result
    /\ StronglySorted (fun a b => ComparatorPtrKey a b = true) result.*1
    /\ Forall (fun k => ComparatorPtrKey k key = false) result.*1
    /\ (length result <= N.to_nat count)%nat
    /\ StronglySorted (fun a b => ComparatorPtrKey a b = true) (_setSortedKeyPtr s)
    /\ (forall k, k ∈ _setSortedKeyPtr s <-> is_Some (value_of k s)).
Proof.
  intros Hreach Hcount. pose proof (reachable_consistent s Hreach) as Hs.
  pose proof Hs as (_ & _ & Hsorted & Hkeys).
  unfold getManySorted.
  rewrite (StdSetFacts.lower_bound_filter _ ComparatorPtrKey_irrefl
             ComparatorPtrKey_trans ComparatorPtrKey_total _ _ Hsorted).
  set (range := filter (fun k => ComparatorPtrKey k key = false) (_setSortedKeyPtr s)).
  assert (Forall (fun k => is_Some (value_of k s)) range) as Hrange.
  { apply Forall_forall. intros k Hk. subst range.
    apply list_elem_of_filter in Hk as [_ Hk]. by apply Hkeys. }
  destruct (getManySorted_loop_consistent range 0 count now [] s Hs
              ltac:(lia) Hcount Hrange) as (result & Hrun & Hres & Hvals).
  rewrite N.sub_0_r in Hres.
  assert (result.*1 `sublist_of` filter (fun k => expired k now s = false) range)
    as Hsub1 by (rewrite Hres; apply sublist_take).
  assert (result.*1 `sublist_of` range) as Hsub2
    by (etransitivity; [exact Hsub1 | apply sublist_filter]).
  exists result. split; [exact Hrun|]. split; [exact Hres|].
  split; [|split; [|split; [|split; [|split]]]].
  - assert (Forall (fun k => expired k now s = false) result.*1) as Hlive.
    { apply Forall_forall. intros k Hk.
      pose proof (elem_of_sublist _ _ _ Hk Hsub1) as Hk'.
      by apply list_elem_of_filter in Hk' as [Hk' _]. }
    clear Hres Hsub1 Hsub2 Hrun. induction Hvals as [|[k v] result Hkv Hvals IH].
    + constructor.
    + apply Forall_cons in Hlive as [Hk Hlive]. simpl in Hk, Hkv.
      constructor; [|by apply IH].
      simpl. rewrite (get_consistent k now s Hs), Hk. by rewrite Hkv.
  - eapply StronglySorted_sublist; [exact Hsub2|].
    eapply StronglySorted_sublist; [apply sublist_filter | exact Hsorted].
  - apply Forall_forall. intros k Hk.
    pose proof (elem_of_sublist _ _ _ Hk Hsub2) as Hk'. subst range.
    by apply list_elem_of_filter in Hk' as [Hk' _].
  - rewrite <- (length_fmap fst), Hres, length_take. lia.
  - exact Hsorted.
  - exact Hkeys.
Qed.

(** Whatever addresses the two allocations get, the pair at the lower key
    address comes first in the expiration-ordered set: when that is the
    pair of the entry that lives longer, [removeOneExpiredEntry] does not
    see the expired one. *)
Lemma removeOneExpiredEntry_looks_at_lowest_address
    (pKey1 pTtl1 pKey2 pTtl2 : N) (long short : string) (vLong vShort : Value) :
  (pKey1 < pKey2)%N ->
  long <> short ->
  exists s,
    run std_hash
      [call_set pKey1 pTtl1 long vLong 10 0; call_set pKey2 pTtl2 short vShort 1 0]
      create = Done s
    /\ value_of short s = Some vShort
    /\ expiration_of short s = Some 1%Z
    /\ removeOneExpiredEntry std_hash 2 s = Done (None, s).
Proof.
  intros Haddr Hne. cbn [run step].
  destruct (set_consistent pKey1 pTtl1 long vLong 10 0 create create_consistent
              (fun _ => eq_refl))
    as (s1 & -> & Hs1 & _ & _ & Hset1 & _).
  cbn [bind].
  destruct (set_consistent pKey2 pTtl2 short vShort 1 0 s1 Hs1
              (fun _ => eq_refl))
    as (s2 & -> & Hs2 & Hval2 & Hexp2 & Hset2 & _).
  cbn [bind]. exists s2. split; [reflexivity|].
  split; [by rewrite Hval2, decide_True|].
  split; [rewrite Hexp2; by apply decide_True|].
  rewrite (removeOneExpiredEntry_consistent 2 s2 Hs2), Hset2, Hset1.
  cbn [decide_rel create _setSortedTtlPtr StdSet.insert].
  rewrite !decide_False by done. cbn [StdSet.insert].
  unfold less_pair. cbn [fst snd address].
  assert ((pKey2 <? pKey1)%N = false) as -> by (apply N.ltb_ge; lia).
  assert ((pKey1 <? pKey2)%N = true) as -> by (apply N.ltb_lt; lia).
  cbn [orb andb negb]. reflexivity.
Qed.

(** Whatever distinct addresses the keys of two [set]s of one key get,
    the expiration-ordered set holds a pair for each; once both deadlines
    have passed, the first [removeOneExpiredEntry] removes the key and one
    pair, and the second finds the other pair and no value. *)
Lemma removeOneExpiredEntry_twice_on_reset_key
    (pKey1 pTtl1 pKey2 pTtl2 : N) (key : string) (v1 v2 : Value) :
  pKey1 <> pKey2 ->
  exists s s1,
    run std_hash
      [call_set pKey1 pTtl1 key v1 1 0; call_set pKey2 pTtl2 key v2 1 0]
      create = Done s
    /\ removeOneExpiredEntry std_hash 5 s = Done (Some (key, v2), s1)
    /\ removeOneExpiredEntry std_hash 5 s1 = Raise BadOptionalAccess.
Proof.
  intros Haddr. cbn [run step].
  destruct (set_consistent pKey1 pTtl1 key v1 1 0 create create_consistent
              (fun _ => eq_refl))
    as (s1 & -> & Hs1 & _ & _ & Hset1 & _).
  cbn [bind].
  destruct (set_consistent pKey2 pTtl2 key v2 1 0 s1 Hs1
              (fun _ => eq_refl))
    as (s2 & -> & Hs2 & Hval2 & _ & Hset2 & _).
  cbn [bind]. exists s2.
  assert (value_of key s2 = Some v2) as Hv2 by (by rewrite Hval2, decide_True).
  destruct (remove_consistent key s2 Hs2)
    as (s3 & Hrm & Hs3 & _ & Hval3 & Hrest).
  destruct Hrest as (_ & _ & Hset3); [by rewrite Hv2|].
  rewrite Hv2 in Hrm. cbn [has_value] in Hrm.
  assert (value_of key s3 = None) as Hv3 by (by rewrite Hval3, decide_True).
  rewrite Hset1 in Hset2. rewrite Hset2 in Hset3.
  cbn [create _setSortedTtlPtr StdSet.insert] in Hset2, Hset3.
  rewrite !decide_False in Hset2, Hset3 by done.
  cbn [StdSet.insert] in Hset2, Hset3.
  unfold less_pair in Hset2, Hset3. cbn [fst snd address] in Hset2, Hset3.
  exists s3.
  destruct (N.ltb_spec pKey2 pKey1) as [Hlt|Hge];
    cbn [orb] in Hset2, Hset3.
  - cbn [StdSet.find_if_erase fst pointee] in Hset3.
    rewrite bool_decide_eq_true_2 in Hset3 by done.
    split; [reflexivity|]. split.
    + rewrite (removeOneExpiredEntry_consistent 5 s2 Hs2), Hset2.
      cbn [fst snd pointee]. change (1 + 0 <? 5)%Z with true. cbv iota.
      by rewrite Hv2, Hrm.
    + rewrite (removeOneExpiredEntry_consistent 5 s3 Hs3), Hset3.
      cbn [fst snd pointee]. change (1 + 0 <? 5)%Z with true. cbv iota.
      by rewrite Hv3.
  - assert ((pKey1 <? pKey2)%N = true) as Hlt by (apply N.ltb_lt; lia).
    rewrite Hlt in Hset2, Hset3. cbn [orb andb negb] in Hset2, Hset3.
    cbn [StdSet.find_if_erase fst pointee] in Hset3.
    rewrite bool_decide_eq_true_2 in Hset3 by done.
    split; [reflexivity|]. split.
    + rewrite (removeOneExpiredEntry_consistent 5 s2 Hs2), Hset2.
      cbn [fst snd pointee]. change (1 + 0 <? 5)%Z with true. cbv iota.
      by rewrite Hv2, Hrm.
    + rewrite (removeOneExpiredEntry_consistent 5 s3 Hs3), Hset3.
      cbn [fst snd pointee]. change (1 + 0 <? 5)%Z with true. cbv iota.
      by rewrite Hv3.
Qed.

(** What holds of [remove] on every reachable storage: an absent key
    leaves the storage as it is, and after any [remove] the key is absent,
    so a second [remove] returns false. *)
Lemma remove_absent key s :
  reachable std_hash s -> value_of key s = None ->
  remove std_hash key s = Done (false, s).
Proof.
  intros Hreach Habsent.
  destruct (remove_consistent key s (reachable_consistent s Hreach))
    as (s' & Hrm & _ & Hsame & _).
  rewrite Hrm, Habsent. by rewrite (Hsame Habsent).
Qed.

Lemma remove_twice key s :
  reachable std_hash s ->
  exists s',
    remove std_hash key s = Done (has_value (value_of key s), s')
    /\ remove std_hash key s' = Done (false, s').
Proof.
  intros Hreach.
  destruct (remove_consistent key s (reachable_consistent s Hreach))
    as (s' & Hrm & _ & _ & Hval & _).
  exists s'. split; [exact Hrm|].
  apply remove_absent; [by eapply reachable_remove|].
  by rewrite Hval, decide_True.
Qed.

(** What holds of [set] with a zero ttl on every reachable storage: when
    the expiration index has no entry for the key, [get] returns the value
    whatever the clock reads. *)
Lemma set_permanent_without_expiration s (pKey pTtl : N) key (value : Value) now :
  reachable std_hash s ->
  expiration_of key s = None ->
  exists s',
    set std_hash pKey pTtl key value 0 now s = Done s'
    /\ forall now', get std_hash key now' s' = Done (Some value, s').
Proof.
  intros Hreach Hnone.
  destruct (set_consistent pKey pTtl key value 0 now s (reachable_consistent s Hreach)
              (fun H => False_ind _ (H eq_refl)))
    as (s' & Hset & Hs' & Hval & Hexp & _).
  exists s'. split; [exact Hset|]. intros now'.
  rewrite (get_consistent key now' s' Hs'). unfold Storage.expired.
  rewrite Hexp, decide_False by tauto.
  fold (expiration_of key s). rewrite Hnone.
  by rewrite Hval, decide_True.
Qed.

(** C4, as amended. After [set(key, value, ttl)] with a positive [ttl] at
    clock [T0] on a reachable storage, [T0 + ttl] being an [int],
    [get(key)] returns the value as long as the clock reads at most
    [T0 + ttl], and nothing once it reads more than [T0 + ttl]. *)
Theorem get_after_set_with_ttl s (pKey pTtl : N) key (value : Value) ttl T0 :
  reachable std_hash s ->
  (0 < ttl)%Z ->
  (INT_MIN <= T0 + ttl <= INT_MAX)%Z ->
  exists s',
    set std_hash pKey pTtl key value ttl T0 s = Done s'
    /\ forall now,
         ((now <= T0 + ttl)%Z -> get std_hash key now s' = Done (Some value, s'))
         /\ ((T0 + ttl < now)%Z -> get std_hash key now s' = Done (None, s')).
Proof.
  intros Hreach Httl Hint. pose proof (reachable_consistent s Hreach) as Hs.
  destruct (set_consistent pKey pTtl key value ttl T0 s Hs)
    as (s' & Hset & Hs' & Hval & Hexp & _).
  { intros _. apply in_int_spec. lia. }
  exists s'. split; [exact Hset|]. intros now.
  rewrite (get_consistent key now s' Hs'). unfold Storage.expired.
  rewrite Hexp, Hval, decide_True by (split; [done | lia]).
  rewrite decide_True by done.
  split; intros Hnow.
  - replace (ttl + T0 <? now)%Z with false; [done|]. symmetry. apply Z.ltb_ge. lia.
  - replace (ttl + T0 <? now)%Z with true; [done|]. symmetry. apply Z.ltb_lt. lia.
Qed.

(** C10, as amended. On a reachable storage, when [key] is in the value
    index and [get(key)] returns nothing because the entry has expired, a
    [set(key, value, ttl)] with a positive [ttl], [now + ttl] being an
    [int], succeeds, leaves the key-ordered set as it is (the entry is
    overwritten in place), records [now + ttl] as the expiration of [key],
    and [get(key)] then returns [value]. *)
Theorem set_revives_expired_key s (pKey pTtl : N) key (value : Value) ttl now :
  reachable std_hash s ->
  is_Some (value_of key s) ->
  get std_hash key now s = Done (None, s) ->
  (0 < ttl)%Z ->
  (INT_MIN <= now + ttl <= INT_MAX)%Z ->
  exists s',
    set std_hash pKey pTtl key value ttl now s = Done s'
    /\ _setSortedKeyPtr s' = _setSortedKeyPtr s
    /\ expiration_of key s' = Some (ttl + now)%Z
    /\ get std_hash key now s' = Done (Some value, s').
Proof.
  intros Hreach Hpresent _ Httl Hint. pose proof (reachable_consistent s Hreach) as Hs.
  destruct (set_consistent pKey pTtl key value ttl now s Hs)
    as (s' & Hset & Hs' & Hval & Hexp & _ & Hkeys).
  { intros _. apply in_int_spec. lia. }
  exists s'. split; [exact Hset|].
  split.
  { rewrite Hkeys. destruct Hs as (_ & _ & Hsorted & Hdom).
    apply keys_insert_present; [exact Hsorted | by apply Hdom]. }
  assert (expiration_of key s' = Some (ttl + now)%Z) as He.
  { rewrite Hexp. apply decide_True. split; [done | lia]. }
  split; [exact He|].
  rewrite (get_consistent key now s' Hs'). unfold Storage.expired.
  rewrite He, Hval, decide_True by done.
  replace (ttl + now <? now)%Z with false; [done|]. symmetry. apply Z.ltb_ge. lia.
Qed.

End Facts.
End StorageFacts.


(** * Concrete runs *)

Module ScenarioFacts.
Import Storage Scenario StorageFacts.
Local Open Scope string_scope.

Lemma storage_after_reachable (cs : list (call string)) :
  run std_hash_model cs create = Done (storage_after cs) ->
  reachable std_hash_model (storage_after cs).
Proof. intros Hrun. eapply run_reachable; [apply reachable_create | exact Hrun]. Qed.

(** C1. With [y] set for 10 seconds and then [x] for 1 second, at clock 2
    the entry of [x] is stored with expiration 1, yet
    [removeOneExpiredEntry] returns nothing: the first pair of the
    expiration-ordered set is the one of [y], whose address is lower.
    With [k] set twice for 1 second, at clock 5 the first call returns
    [k] and the second raises instead of returning nothing. *)
Theorem removeOneExpiredEntry_misses_expired_entry :
  (run std_hash_model long_then_short create = Done (storage_after long_then_short)
   /\ value_of std_hash_model "x" (storage_after long_then_short) = Some "vx"
   /\ expiration_of std_hash_model "x" (storage_after long_then_short) = Some 1%Z
   /\ removeOneExpiredEntry std_hash_model 2 (storage_after long_then_short)
      = Done (None, storage_after long_then_short))
  /\ (run std_hash_model same_key_twice create = Done (storage_after same_key_twice)
      /\ exists s1,
           removeOneExpiredEntry std_hash_model 5 (storage_after same_key_twice)
           = Done (Some ("k", "v2"), s1)
           /\ removeOneExpiredEntry std_hash_model 5 s1 = Raise BadOptionalAccess).
Proof.
  split.
  - repeat split; vm_compute; reflexivity.
  - split; [vm_compute; reflexivity|].
    eexists. split; [vm_compute; reflexivity|]. vm_compute. reflexivity.
Qed.

(** C2. After [Set("k","v0",5)] and [Set("k","v",0)] at clock 0,
    [Get("k")] returns [v] at clock 5 and nothing at clock 6, with no
    [Set] or [Remove] in between. *)
Theorem set_zero_ttl_keeps_old_deadline :
  run std_hash_model finite_then_permanent create
  = Done (storage_after finite_then_permanent)
  /\ get std_hash_model "k" 5 (storage_after finite_then_permanent)
     = Done (Some "v", storage_after finite_then_permanent)
  /\ get std_hash_model "k" 6 (storage_after finite_then_permanent)
     = Done (None, storage_after finite_then_permanent).
Proof. repeat split; vm_compute; reflexivity. Qed.

(** C7. After [Set("k","v0",5)] and [Set("k","v",0)] at clock 0 the key
    [k] is stored with the value [v] of a [Set] without expiry and is the
    one key of the key-ordered set. [GetManySorted] from the empty start
    key with count 10 returns it at clock 5 and returns nothing at clock
    6: it skips [k] as expired, by the expiration the first [Set] left in
    the expiration index. *)
Theorem getManySorted_skips_permanent_key :
  run std_hash_model finite_then_permanent create
  = Done (storage_after finite_then_permanent)
  /\ value_of std_hash_model "k" (storage_after finite_then_permanent) = Some "v"
  /\ _setSortedKeyPtr (storage_after finite_then_permanent) = ["k"]
  /\ getManySorted std_hash_model EmptyString 10 5 (storage_after finite_then_permanent)
     = Done ([("k", "v")], storage_after finite_then_permanent)
  /\ getManySorted std_hash_model EmptyString 10 6 (storage_after finite_then_permanent)
     = Done ([], storage_after finite_then_permanent).
Proof. repeat split; vm_compute; reflexivity. Qed.

(** C3. The storage left by the test [UpdateTTL] is reachable; at clock
    20 [removeOneExpiredEntry] returns the entry, the storage it leaves is
    reachable, and the next [removeOneExpiredEntry] raises
    [std::bad_optional_access]. *)
Theorem removeOneExpiredEntry_raises :
  reachable std_hash_model (storage_after update_ttl)
  /\ exists s1,
       removeOneExpiredEntry std_hash_model 20 (storage_after update_ttl)
       = Done (Some ("key1", "value1_new"), s1)
       /\ reachable std_hash_model s1
       /\ removeOneExpiredEntry std_hash_model 20 s1 = Raise BadOptionalAccess.
Proof.
  assert (reachable std_hash_model (storage_after update_ttl)) as Hreach
    by (apply storage_after_reachable; vm_compute; reflexivity).
  split; [exact Hreach|].
  eexists. split; [vm_compute; reflexivity|].
  split; [|vm_compute; reflexivity].
  eapply (reachable_removeOneExpiredEntry _ _ 20%Z); [exact Hreach|].
  vm_compute. reflexivity.
Qed.

(** C4, counterexample. After [Set("key1","value1",5)] at clock 0,
    [Get("key1")] at clock 5 returns the value. And
    [Set("key1","value1",2147483647)] at clock 1 does not complete: the
    sum of the ttl and the clock reading is not an [int]. *)
Lemma get_at_deadline_returns_value :
  ~ expires_from_deadline_on std_hash_model create 16 17 "key1" "value1" 5 0
  /\ ~ expires_from_deadline_on std_hash_model create 16 17 "key1" "value1" 2147483647 1.
Proof.
  split.
  - intros (s' & Hset & Hget).
    vm_compute in Hset. injection Hset as <-.
    destruct (Hget 5%Z) as [_ Hnone].
    specialize (Hnone ltac:(lia)). vm_compute in Hnone. discriminate Hnone.
  - intros (s' & Hset & _). vm_compute in Hset. discriminate Hset.
Qed.

(** C4, an instance: [Set("key1","value1_new",10)] at clock 3 on the
    storage that holds [key1] since clock 0. *)
Lemma get_after_set_with_ttl_witness :
  reachable std_hash_model (storage_after one_key_ttl5)
  /\ (0 < 10)%Z
  /\ (INT_MIN <= 3 + 10 <= INT_MAX)%Z
  /\ exists s',
       set std_hash_model 32 33 "key1" "value1_new" 10 3 (storage_after one_key_ttl5)
       = Done s'
       /\ forall now,
            ((now <= 3 + 10)%Z ->
             get std_hash_model "key1" now s' = Done (Some "value1_new", s'))
            /\ ((3 + 10 < now)%Z -> get std_hash_model "key1" now s' = Done (None, s')).
Proof.
  assert (reachable std_hash_model (storage_after one_key_ttl5)) as Hreach
    by (apply storage_after_reachable; vm_compute; reflexivity).
  assert (INT_MIN <= 3 + 10 <= INT_MAX)%Z as Hint by (unfold INT_MIN, INT_MAX; lia).
  split; [exact Hreach|]. split; [lia|]. split; [exact Hint|].
  apply (get_after_set_with_ttl std_hash_model); [exact Hreach | lia | exact Hint].
Defined.

(** X18, an instance: [GetManySorted("c", 2)] on the storage holding
    [a], [b], [d], [e]. *)
Lemma getManySorted_sorted_live_prefix_witness :
  reachable std_hash_model (storage_after four_keys)
  /\ (2 < 2 ^ 32)%N
  /\ exists result,
       getManySorted std_hash_model "c" 2 0 (storage_after four_keys)
       = Done (result, storage_after four_keys)
       /\ result.*1
          = take (N.to_nat 2)
              (filter (fun k => expired std_hash_model k 0 (storage_after four_keys) = false)
                 (filter (fun k => ComparatorPtrKey k "c" = false)
                    (_setSortedKeyPtr (storage_after four_keys))))
       /\ Forall (fun kv => get std_hash_model kv.1 0 (storage_after four_keys)
                            = Done (Some kv.2, storage_after four_keys)) result
       /\ StronglySorted (fun a b => ComparatorPtrKey a b = true) result.*1
       /\ Forall (fun k => ComparatorPtrKey k "c" = false) result.*1
       /\ (length result <= N.to_nat 2)%nat
       /\ StronglySorted (fun a b => ComparatorPtrKey a b = true)
            (_setSortedKeyPtr (storage_after four_keys))
       /\ (forall k, k ∈ _setSortedKeyPtr (storage_after four_keys)
                     <-> is_Some (value_of std_hash_model k (storage_after four_keys))).
Proof.
  assert (reachable std_hash_model (storage_after four_keys)) as Hreach
    by (apply storage_after_reachable; vm_compute; reflexivity).
  split; [exact Hreach|]. split; [lia|].
  apply (getManySorted_sorted_live_prefix std_hash_model); [exact Hreach | lia].
Defined.

(** The same call computed: the scenario of the interface comment. *)
Example getManySorted_c_2 :
  getManySorted std_hash_model "c" 2 0 (storage_after four_keys)
  = Done ([("d", "val3"); ("e", "val4")], storage_after four_keys).
Proof. vm_compute. reflexivity. Qed.

(** C8. After [Set("a","val1",5)] and [Set("a","val2",7)], [Remove("a")]
    returns true and empties both indexes and the key-ordered set of [a],
    but the expiration-ordered set still holds the pair of the second
    [Set]. *)
Theorem remove_leaves_expiration_pair :
  run std_hash_model two_deadlines create = Done (storage_after two_deadlines)
  /\ exists s',
       remove std_hash_model "a" (storage_after two_deadlines) = Done (true, s')
       /\ value_of std_hash_model "a" s' = None
       /\ expiration_of std_hash_model "a" s' = None
       /\ _setSortedKeyPtr s' = []
       /\ _setSortedTtlPtr s' = [(make_shared 32 "a", make_shared 33 7%Z)].
Proof.
  split; [vm_compute; reflexivity|].
  eexists. split; [vm_compute; reflexivity|].
  repeat split; vm_compute; reflexivity.
Qed.

(** C9. After [Set("b","val1",3)] and [Set("b","val2",0)] the key [b], last
    set without a TTL, is still in the expiration index and in the
    expiration-ordered set. After [Set("c","val3",4)], [Set("c","val4",9)]
    and [Remove("c")] the key [c] is in neither index but still in the
    expiration-ordered set. *)
Theorem expiration_views_disagree :
  (run std_hash_model permanent_after_finite create
   = Done (storage_after permanent_after_finite)
   /\ value_of std_hash_model "b" (storage_after permanent_after_finite) = Some "val2"
   /\ expiration_of std_hash_model "b" (storage_after permanent_after_finite) = Some 3%Z
   /\ _setSortedTtlPtr (storage_after permanent_after_finite)
      = [(make_shared 16 "b", make_shared 17 3%Z)])
  /\ (run std_hash_model removed_after_two_deadlines create
      = Done (storage_after removed_after_two_deadlines)
      /\ value_of std_hash_model "c" (storage_after removed_after_two_deadlines) = None
      /\ expiration_of std_hash_model "c" (storage_after removed_after_two_deadlines) = None
      /\ _setSortedTtlPtr (storage_after removed_after_two_deadlines)
         = [(make_shared 32 "c", make_shared 33 9%Z)]).
Proof. repeat split; vm_compute; reflexivity. Qed.

(** C10, counterexample. [key1], set for 5 seconds at clock 0, is in the
    value index and expired at clock 6; [Set("key1","fresh",2147483647)]
    at that clock does not complete, the sum of the ttl and the clock
    reading not being an [int]. *)
Lemma set_past_int_max_does_not_revive :
  is_Some (value_of std_hash_model "key1" (storage_after one_key_ttl5))
  /\ get std_hash_model "key1" 6 (storage_after one_key_ttl5)
     = Done (None, storage_after one_key_ttl5)
  /\ (0 < 2147483647)%Z
  /\ ~ revived_by_set std_hash_model (storage_after one_key_ttl5) 32 33
        "key1" "fresh" 2147483647 6.
Proof.
  split; [vm_compute; eexists; reflexivity|].
  split; [vm_compute; reflexivity|]. split; [lia|].
  intros (s' & Hset & _). vm_compute in Hset. discriminate Hset.
Qed.

(** C10, an instance: [key1], set for 5 seconds at clock 0, is expired at
    clock 6 and set again for 10 seconds. *)
Lemma set_revives_expired_key_witness :
  reachable std_hash_model (storage_after one_key_ttl5)
  /\ is_Some (value_of std_hash_model "key1" (storage_after one_key_ttl5))
  /\ get std_hash_model "key1" 6 (storage_after one_key_ttl5)
     = Done (None, storage_after one_key_ttl5)
  /\ (0 < 10)%Z
  /\ (INT_MIN <= 6 + 10 <= INT_MAX)%Z
  /\ exists s',
       set std_hash_model 32 33 "key1" "fresh" 10 6 (storage_after one_key_ttl5) = Done s'
       /\ _setSortedKeyPtr s' = _setSortedKeyPtr (storage_after one_key_ttl5)
       /\ expiration_of std_hash_model "key1" s' = Some (10 + 6)%Z
       /\ get std_hash_model "key1" 6 s' = Done (Some "fresh", s').
Proof.
  assert (reachable std_hash_model (storage_after one_key_ttl5)) as Hreach
    by (apply storage_after_reachable; vm_compute; reflexivity).
  assert (is_Some (value_of std_hash_model "key1" (storage_after one_key_ttl5)))
    as Hpresent by (vm_compute; eexists; reflexivity).
  assert (get std_hash_model "key1" 6 (storage_after one_key_ttl5)
          = Done (None, storage_after one_key_ttl5)) as Hexpired
    by (vm_compute; reflexivity).
  assert (INT_MIN <= 6 + 10 <= INT_MAX)%Z as Hint by (unfold INT_MIN, INT_MAX; lia).
  split; [exact Hreach|]. split; [exact Hpresent|]. split; [exact Hexpired|].
  split; [lia|]. split; [exact Hint|].
  apply (set_revives_expired_key std_hash_model);
    [exact Hreach | exact Hpresent | exact Hexpired | lia | exact Hint].
Defined.

(** C5. A dictionary of capacity 16 filled with the 20 keys [k0] ...
    [k19] counts 20 entries; the growth rehash that the next command
    starts and completes deletes every chain, so [get] finds none of the
    20 keys. The same holds under the other hash. With capacity 64 the
    78th [set] runs while the rehash is in progress and dereferences the
    key it has moved from. *)
Theorem growth_rehash_loses_keys :
  (exists d,
     FillDictionary ConflictHash (Dict.create 16) 20 "k" = Done d
     /\ Dict.size d = 20%N
     /\ Forall (fun i : nat =>
                 exists d', Dict.get ConflictHash ("k" +:+ pretty i) d = Done (None, d'))
          (seq 0 20))
  /\ (exists d,
        FillDictionary std_hash_model (Dict.create 16) 20 "k" = Done d
        /\ Forall (fun i : nat =>
                    exists d', Dict.get std_hash_model ("k" +:+ pretty i) d = Done (None, d'))
             (seq 0 20))
  /\ FillDictionary std_hash_model (Dict.create 64) 78 "k" = Raise NullDereference.
Proof.
  split; [|split].
  - eexists. split; [vm_compute; reflexivity|]. split; [reflexivity|].
    repeat (constructor; [eexists; vm_compute; reflexivity|]). constructor.
  - eexists. split; [vm_compute; reflexivity|].
    repeat (constructor; [eexists; vm_compute; reflexivity|]). constructor.
  - vm_compute. reflexivity.
Qed.

(** The base-capacity part of C5: 1000 keys set in a dictionary of the
    base capacity are all found again. *)
Example thousand_keys_at_base_capacity :
  exists d,
    FillDictionary std_hash_model (Dict.create Dict.BASIC_DICTIONARY_SIZE) 1000 "k" = Done d
    /\ forallb (fun i : nat =>
                  match Dict.get std_hash_model ("k" +:+ pretty i) d with
                  | Done (Some v, _) => String.eqb v ("val_" +:+ pretty i)
                  | _ => false
                  end) (seq 0 1000) = true.
Proof. eexists. split; [vm_compute; reflexivity|]. vm_compute. reflexivity. Qed.

(** C6, counterexample. A dictionary of capacity 16 that holds nothing has
    fill factor 0, below the band, and capacity above the base one, yet no
    rehash is due. *)
Lemma rehash_not_due_on_empty_table :
  ~ Dict.rehash_due_by_band_alone (Dict.create 16 : Dict.Dictionary string string).
Proof.
  unfold Dict.rehash_due_by_band_alone. intros [_ Hdue].
  assert (Dict.isNeedRehash (Dict.create 16 : Dict.Dictionary string string) = true)
    as Habsurd by (apply Hdue; split; [reflexivity | vm_compute; reflexivity]).
  vm_compute in Habsurd. discriminate Habsurd.
Qed.

End ScenarioFacts.

(** * More on the dictionary *)

Module DictMore.
Import Dict DictFacts.

Section BaseCapacity.
Context {Key Value : Type} `{EqDecision Key}.
Variable hash : Key -> N.
Implicit Types (c : chain Key Value) (d : Dictionary Key Value) (key : Key).

Lemma find_settled key d :
  settled d -> find hash key d = Done (chain_find key (bucket hash key d), d).
Proof.
  intros Hd. unfold find. rewrite (preCommandActions_settled hash d Hd). cbn [bind].
  rewrite (isRehashing_settled hash d Hd). unfold _get.
  rewrite (getBucketIndex_settled hash key d Hd). cbn [bind].
  destruct (settled_bucket hash key d Hd) as [Hb _].
  by rewrite (read_Some _ _ _ Hb).
Qed.

(** The dictionary [set] leaves, written out. *)
Lemma set_settled_shape key (value : Value) d :
  settled d ->
  set hash key value d
  = Done (match chain_find key (bucket hash key d) with
          | Some _ =>
              assign ref_dictionary
                (<[N.to_nat (hash key mod _dictionarySize d)
                   := chain_assign key value (bucket hash key d)]> (_dictionary d)) d
          | None =>
              set_used (size_incr (_dictionaryUsed d))
                (assign ref_dictionary
                   (<[N.to_nat (hash key mod _dictionarySize d)
                      := (key, value) :: bucket hash key d]> (_dictionary d)) d)
          end).
Proof.
  intros Hd. unfold set. rewrite (preCommandActions_settled hash d Hd). cbn [bind].
  rewrite (isRehashing_settled hash d Hd). unfold _set.
  rewrite (getBucketIndex_settled hash key d Hd). cbn [bind deref].
  destruct (settled_bucket hash key d Hd) as [Hb _].
  rewrite (read_Some _ _ _ Hb). cbn [bind].
  destruct (bucket hash key d) as [|n c] eqn:Hc.
  - rewrite (write_Some _ _ _ _ Hb). reflexivity.
  - destruct (chain_find key (n :: c)) as [m|] eqn:Hf.
    + rewrite (write_Some _ _ _ _ Hb). reflexivity.
    + rewrite (write_Some _ _ _ _ Hb). reflexivity.
Qed.

(** The result of [remove] and the dictionary it leaves, written out. *)
Lemma remove_settled_shape key d :
  settled d ->
  remove hash key d
  = Done (match chain_find key (bucket hash key d) with
          | Some _ =>
              (true,
               set_used (size_decr (_dictionaryUsed d))
                 (assign ref_dictionary
                    (<[N.to_nat (hash key mod _dictionarySize d)
                       := chain_unlink key (bucket hash key d)]> (_dictionary d)) d))
          | None => (false, d)
          end).
Proof.
  intros Hd. unfold remove. rewrite (preCommandActions_settled hash d Hd). cbn [bind].
  rewrite (isRehashing_settled hash d Hd). unfold _remove.
  rewrite (getBucketIndex_settled hash key d Hd). cbn [bind deref].
  destruct (settled_bucket hash key d Hd) as [Hb _].
  rewrite (read_Some _ _ _ Hb). cbn [bind].
  destruct (chain_find key (bucket hash key d)) as [m|] eqn:Hf; [|reflexivity].
  rewrite (write_Some _ _ _ _ Hb). reflexivity.
Qed.

Lemma length_concat_insert {A : Type} (l : list (list A)) (i : nat) (c c' : list A) :
  l !! i = Some c ->
  (length (concat (<[i := c']> l)) + length c = length (concat l) + length c')%nat.
Proof.
  revert i. induction l as [|x l IH]; intros [|i] Hi; try done.
  - injection Hi as ->. cbn [concat]. change (<[0%nat := c']> (c :: l)) with (c' :: l).
    cbn [concat]. rewrite !length_app. lia.
  - change (<[S i := c']> (x :: l)) with (x :: <[i := c']> l).
    cbn [concat]. rewrite !length_app. specialize (IH i Hi). lia.
Qed.

Lemma elem_of_concat_keys (l : list (chain Key Value)) (k : Key) :
  k ∈ (concat l).*1 <-> exists i c, l !! i = Some c /\ k ∈ c.*1.
Proof.
  induction l as [|x l IH].
  - split; [by intros ?%elem_of_nil | by intros (i & c & ? & _)].
  - cbn [concat]. rewrite fmap_app, elem_of_app, IH. split.
    + intros [Hx|(i & c & Hi & Hc)].
      * by exists 0%nat, x.
      * by exists (S i), c.
    + intros ([|i] & c & Hi & Hc).
      * injection Hi as ->. by left.
      * right. by exists i, c.
Qed.

Lemma NoDup_concat_by_index (f : Key -> nat) (l : list (chain Key Value)) (off : nat) :
  (forall i c k, l !! i = Some c -> k ∈ c.*1 -> f k = (off + i)%nat) ->
  Forall (fun c : chain Key Value => NoDup (c.*1)) l ->
  NoDup (concat l).*1.
Proof.
  revert off. induction l as [|x l IH]; intros off Hidx Hnd.
  - apply NoDup_nil_2.
  - apply Forall_cons in Hnd as [Hx Hl]. cbn [concat]. rewrite fmap_app.
    apply NoDup_app. split; [exact Hx|]. split.
    + intros k Hk (i & c & Hi & Hc)%elem_of_concat_keys.
      pose proof (Hidx 0%nat x k eq_refl Hk).
      pose proof (Hidx (S i) c k Hi Hc). lia.
    + apply (IH (S off)); [|exact Hl].
      intros i c k Hi Hc. rewrite (Hidx (S i) c k Hi Hc). lia.
Qed.

Lemma chain_assign_length key (value : Value) c :
  length (chain_assign key value c) = length c.
Proof.
  induction c as [|[k v] c IH]; [done|]. cbn [chain_assign].
  destruct (decide (k = key)); cbn [length]; [done | by rewrite IH].
Qed.

Lemma chain_unlink_length key c n :
  chain_find key c = Some n -> S (length (chain_unlink key c)) = length c.
Proof.
  induction c as [|[k v] c IH]; [done|]. cbn [chain_find chain_unlink].
  destruct (decide (k = key)); cbn [length]; [done|].
  intros Hf. by rewrite (IH Hf).
Qed.

(** Replacing the chain of the bucket of [key] in a tidy dictionary by a
    chain of keys of that bucket, the counter following the length. *)
Lemma tidy_update key d c' (used : N) :
  tidy hash d ->
  NoDup c'.*1 ->
  (forall k, k ∈ c'.*1 -> k = key \/ k ∈ (bucket hash key d).*1) ->
  (N.of_nat (length (concat (_dictionary d)) + length c') mod 2 ^ 64
   = (used + N.of_nat (length (bucket hash key d))) mod 2 ^ 64)%N ->
  (used < 2 ^ 64)%N ->
  tidy hash
    (set_used used
       (assign ref_dictionary
          (<[N.to_nat (hash key mod _dictionarySize d) := c']> (_dictionary d)) d)).
Proof.
  intros (Hd & Hidx & Hused) Hnd Hkeys Hcount Hsmall.
  destruct (settled_update hash key d c' used Hd Hnd) as (Hd' & _ & _).
  destruct (settled_bucket hash key d Hd) as [Hb _].
  split; [exact Hd'|]. split.
  - cbn [set_used assign _dictionary _dictionarySize]. intros i c k Hi Hk.
    destruct (decide (i = N.to_nat (hash key mod _dictionarySize d))) as [->|Hne].
    + rewrite list_lookup_insert_eq in Hi by (by eapply lookup_lt_Some).
      injection Hi as <-. destruct (Hkeys k Hk) as [->|Hk']; [done|].
      by apply (Hidx _ _ _ Hb).
    + rewrite list_lookup_insert_ne in Hi by done. by apply (Hidx _ _ _ Hi).
  - cbn [set_used assign _dictionary _dictionaryUsed].
    pose proof (length_concat_insert (_dictionary d) _ _ c' Hb) as Hlen.
    apply (f_equal N.of_nat) in Hlen. rewrite !Nat2N.inj_add in Hlen.
    rewrite <- (N.mod_small used (2 ^ 64)) at 1 by done.
    set (L' := N.of_nat (length (concat (<[_ := c']> (_dictionary d))))) in *.
    set (B := N.of_nat (length (bucket hash key d))) in *.
    rewrite Nat2N.inj_add, <- Hlen in Hcount.
    assert (((L' + B) mod 2 ^ 64 = (used + B) mod 2 ^ 64)%N) as Heq by exact Hcount.
    clear -Heq.
    assert (forall a b : N, ((a + B) mod 2 ^ 64 = (b + B) mod 2 ^ 64 ->
                            a mod 2 ^ 64 = b mod 2 ^ 64)%N) as Hcancel.
    { intros a b Hab.
      pose proof (N.Div0.div_mod (a + B) (2 ^ 64)) as Ha.
      pose proof (N.Div0.div_mod (b + B) (2 ^ 64)) as Hb'.
      pose proof (N.Div0.div_mod a (2 ^ 64)) as Ha'.
      pose proof (N.Div0.div_mod b (2 ^ 64)) as Hb''.
      pose proof (N.mod_upper_bound a (2 ^ 64) ltac:(lia)).
      pose proof (N.mod_upper_bound b (2 ^ 64) ltac:(lia)).
      rewrite Hab in Ha.
      set (qa := ((a + B) / 2 ^ 64)%N) in *. set (qb := ((b + B) / 2 ^ 64)%N) in *.
      set (r := ((b + B) mod 2 ^ 64)%N) in *.
      set (qa' := (a / 2 ^ 64)%N) in *. set (qb' := (b / 2 ^ 64)%N) in *.
      set (ra := (a mod 2 ^ 64)%N) in *. set (rb := (b mod 2 ^ 64)%N) in *.
      lia. }
    symmetry. by apply Hcancel.
Qed.

Lemma size_incr_bound (n : N) : (size_incr n < 2 ^ 64)%N.
Proof. unfold size_incr. apply N.mod_upper_bound. lia. Qed.

Lemma size_decr_bound (n : N) : (size_decr n < 2 ^ 64)%N.
Proof. unfold size_decr. apply N.mod_upper_bound. lia. Qed.

Lemma tidy_used_bound d : tidy hash d -> (_dictionaryUsed d < 2 ^ 64)%N.
Proof. intros (_ & _ & ->). apply N.mod_upper_bound. lia. Qed.

Lemma create_tidy (n : N) :
  (0 < n <= BASIC_DICTIONARY_SIZE)%N -> tidy hash (create n : Dictionary Key Value).
Proof.
  intros Hn. split; [apply (create_settled hash n Hn)|]. split.
  - cbn [create _dictionary]. intros i c k [-> _]%lookup_replicate Hk.
    by apply elem_of_nil in Hk.
  - cbn [create _dictionary _dictionaryUsed].
    assert (forall m : nat, concat (replicate m ([] : chain Key Value)) = []) as Hnil.
    { induction m as [|m IH]; [done | exact IH]. }
    unfold chain in Hnil. by rewrite Hnil.
Qed.

(** [set] on a tidy dictionary. *)
Lemma set_tidy key (value : Value) d :
  tidy hash d ->
  exists d',
    set hash key value d = Done d'
    /\ tidy hash d'
    /\ _dictionarySize d' = _dictionarySize d
    /\ (forall k, lookup hash k d'
                 = if decide (k = key) then Some value else lookup hash k d)
    /\ _dictionaryUsed d'
       = if lookup hash key d is Some _ then _dictionaryUsed d
         else size_incr (_dictionaryUsed d).
Proof.
  intros Hd. pose proof Hd as (Hs & Hidx & Hused).
  destruct (set_settled hash key value d Hs) as (d' & Hset & _ & Hlook).
  exists d'. split; [exact Hset|].
  rewrite (set_settled_shape key value d Hs) in Hset.
  destruct (settled_bucket hash key d Hs) as [Hb Hnd].
  destruct (chain_find key (bucket hash key d)) as [n|] eqn:Hf;
    injection Hset as <-.
  - split; [|split; [reflexivity | split; [exact Hlook | by unfold lookup; rewrite Hf]]].
    apply (tidy_update key d (chain_assign key value (bucket hash key d))
             (_dictionaryUsed d));
      [done | by rewrite chain_assign_keys | | | by apply tidy_used_bound].
    + intros k Hk. right. by rewrite chain_assign_keys in Hk.
    + rewrite chain_assign_length, Hused, Nat2N.inj_add.
      by rewrite N.Div0.add_mod_idemp_l.
  - split; [|split; [reflexivity | split; [exact Hlook | by unfold lookup; rewrite Hf]]].
    apply (tidy_update key d ((key, value) :: bucket hash key d)
             (size_incr (_dictionaryUsed d)));
      [done | | | | apply size_incr_bound].
    + change (NoDup (key :: (bucket hash key d).*1)).
      apply NoDup_cons_2; [by apply chain_find_None | done].
    + intros k Hk. change (k ∈ key :: (bucket hash key d).*1) in Hk.
      apply elem_of_cons in Hk. tauto.
    + cbn [length]. unfold size_incr. rewrite Hused.
      rewrite (N.Div0.add_mod_idemp_l (N.of_nat (length (concat (_dictionary d)))) 1).
      rewrite N.Div0.add_mod_idemp_l. f_equal. lia.
Qed.

(** [remove] on a tidy dictionary. *)
Lemma remove_tidy key d :
  tidy hash d ->
  exists d',
    remove hash key d = Done (has_value (lookup hash key d), d')
    /\ tidy hash d'
    /\ _dictionarySize d' = _dictionarySize d
    /\ (forall k, lookup hash k d'
                 = if decide (k = key) then None else lookup hash k d)
    /\ _dictionaryUsed d'
       = if lookup hash key d is Some _ then size_decr (_dictionaryUsed d)
         else _dictionaryUsed d.
Proof.
  intros Hd. pose proof Hd as (Hs & Hidx & Hused).
  destruct (remove_settled hash key d Hs) as (d' & Hrm & _ & Hlook).
  exists d'. split; [exact Hrm|].
  rewrite (remove_settled_shape key d Hs) in Hrm.
  destruct (settled_bucket hash key d Hs) as [Hb Hnd].
  unfold lookup in Hrm at 1.
  destruct (chain_find key (bucket hash key d)) as [n|] eqn:Hf;
    cbn [fmap option_fmap option_map has_value] in Hrm;
    injection Hrm as <-.
  - split; [|split; [reflexivity | split; [exact Hlook | by unfold lookup; rewrite Hf]]].
    apply (tidy_update key d (chain_unlink key (bucket hash key d))
             (size_decr (_dictionaryUsed d)));
      [done | by apply chain_unlink_NoDup | | | apply size_decr_bound].
    + intros k Hk. right. by apply (chain_unlink_subset key).
    + pose proof (chain_unlink_length key _ n Hf) as Hlen.
      unfold size_decr, SIZE_MAX. rewrite Hused.
      rewrite (N.Div0.add_mod_idemp_l (N.of_nat (length (concat (_dictionary d))))
                 (2 ^ 64 - 1)).
      rewrite N.Div0.add_mod_idemp_l.
      replace (N.of_nat (length (concat (_dictionary d))) + (2 ^ 64 - 1)
               + N.of_nat (length (bucket hash key d)))%N
        with (N.of_nat (length (concat (_dictionary d))
                        + length (chain_unlink key (bucket hash key d)))
              + 1 * 2 ^ 64)%N by lia.
      by rewrite N.Div0.mod_add.
  - split; [done|]. split; [done|]. split; [exact Hlook|].
    by unfold lookup; rewrite Hf.
Qed.

(** The keys stored in a tidy dictionary are listed once each, are the
    keys [lookup] finds, and are as many as the counter says. *)
Lemma tidy_stored_keys d :
  tidy hash d ->
  NoDup (stored_keys d)
  /\ (forall k, k ∈ stored_keys d <-> is_Some (lookup hash k d))
  /\ _dictionaryUsed d = (N.of_nat (length (stored_keys d)) mod 2 ^ 64)%N.
Proof.
  intros (Hs & Hidx & Hused). unfold stored_keys. split; [|split].
  - apply (NoDup_concat_by_index
             (fun k => N.to_nat (hash k mod _dictionarySize d)) _ 0%nat).
    + intros i c k Hi Hk. by apply (Hidx i c k).
    + by destruct Hs as (_ & _ & _ & Hnd).
  - intros k. rewrite elem_of_concat_keys. unfold lookup.
    destruct (settled_bucket hash k d Hs) as [Hb _]. split.
    + intros (i & c & Hi & Hk).
      pose proof (Hidx i c k Hi Hk) as <-. rewrite Hb in Hi. injection Hi as <-.
      destruct (chain_find k (bucket hash k d)) eqn:Hf; [by eexists|].
      by apply chain_find_None in Hf.
    + intros Hsome. eexists _, _. split; [exact Hb|].
      destruct (chain_find k (bucket hash k d)) eqn:Hf.
      * destruct (decide (k ∈ (bucket hash k d).*1)) as [|Hnot]; [done|].
        apply chain_find_None in Hnot. congruence.
      * by destruct Hsome.
  - by rewrite length_fmap.
Qed.

(** Commands on a tidy dictionary that holds the map [m]. *)
Lemma exec_all_tidy (cs : list (command Key Value)) d (m : Key -> option Value) :
  tidy hash d ->
  (forall k, lookup hash k d = m k) ->
  exists d',
    exec_all hash cs d = Done d'
    /\ tidy hash d'
    /\ _dictionarySize d' = _dictionarySize d
    /\ (forall k, lookup hash k d' = contents cs m k)
    /\ (length (stored_keys d') <= length (stored_keys d) + length cs)%nat.
Proof.
  revert d m. induction cs as [|c cs IH]; intros d m Hd Hm.
  - exists d. cbn [exec_all contents length].
    split; [done|]. split; [exact Hd|]. split; [done|]. split; [exact Hm|]. lia.
  - cbn [exec_all]. destruct c as [key value|key|key|key]; cbn [exec contents].
    + destruct (set_tidy key value d Hd) as (d1 & -> & Hd1 & Hsz & Hl1 & _).
      cbn [bind].
      destruct (IH d1 (fun k => if decide (k = key) then Some value else m k) Hd1)
        as (d' & Hrun & Hd' & Hsz' & Hl' & Hlen).
      { intros k. rewrite Hl1. by rewrite Hm. }
      exists d'. split; [exact Hrun|]. split; [exact Hd'|].
      split; [congruence|]. split; [exact Hl'|].
      assert (length (stored_keys d1) <= S (length (stored_keys d)))%nat; [|cbn [length]; lia].
      destruct (tidy_stored_keys d Hd) as (_ & Hin & _).
      destruct (tidy_stored_keys d1 Hd1) as (Hnd1 & Hin1 & _).
      change (S (length (stored_keys d))) with (length (key :: stored_keys d)).
      apply submseteq_length, NoDup_submseteq; [exact Hnd1|].
      intros k Hk. apply Hin1 in Hk. rewrite Hl1 in Hk.
      apply elem_of_cons. destruct (decide (k = key)); [by left|].
      right. by apply Hin.
    + destruct (remove_tidy key d Hd) as (d1 & -> & Hd1 & Hsz & Hl1 & _).
      cbn [bind].
      destruct (IH d1 (fun k => if decide (k = key) then None else m k) Hd1)
        as (d' & Hrun & Hd' & Hsz' & Hl' & Hlen).
      { intros k. rewrite Hl1. by rewrite Hm. }
      exists d'. split; [exact Hrun|]. split; [exact Hd'|].
      split; [congruence|]. split; [exact Hl'|].
      assert (length (stored_keys d1) <= length (stored_keys d))%nat; [|cbn [length]; lia].
      destruct (tidy_stored_keys d Hd) as (_ & Hin & _).
      destruct (tidy_stored_keys d1 Hd1) as (Hnd1 & Hin1 & _).
      apply submseteq_length, NoDup_submseteq; [exact Hnd1|].
      intros k Hk. apply Hin1 in Hk. rewrite Hl1 in Hk.
      destruct (decide (k = key)); [by destruct Hk|]. by apply Hin.
    + rewrite (get_settled hash key d (proj1 Hd)). cbn [bind].
      destruct (IH d m Hd Hm) as (d' & Hrun & Hd' & Hsz' & Hl' & Hlen).
      exists d'. split; [exact Hrun|]. split; [exact Hd'|]. split; [exact Hsz'|].
      split; [exact Hl'|]. cbn [length]. lia.
    + rewrite (find_settled key d (proj1 Hd)). cbn [bind].
      destruct (IH d m Hd Hm) as (d' & Hrun & Hd' & Hsz' & Hl' & Hlen).
      exists d'. split; [exact Hrun|]. split; [exact Hd'|]. split; [exact Hsz'|].
      split; [exact Hl'|]. cbn [length]. lia.
Qed.

(** X1. A dictionary built with a capacity from 1 to the base capacity 8
    is a map: any sequence of [set], [remove], [get] and [find] runs
    without a fault, never starts a rehash and keeps the capacity, and
    afterwards [get] returns for every key the last value set for it,
    nothing if it was removed since or never set, and leaves the
    dictionary as it is. *)
Theorem base_capacity_dictionary_is_a_map (n : N) (cs : list (command Key Value)) :
  (0 < n <= BASIC_DICTIONARY_SIZE)%N ->
  exists d,
    exec_all hash cs (create n) = Done d
    /\ _dictionarySize d = n
    /\ isRehashing d = false
    /\ forall key, get hash key d = Done (contents cs (fun _ => None) key, d).
Proof.
  intros Hn.
  destruct (exec_all_tidy cs (create n) (fun _ => None) (create_tidy n Hn))
    as (d & Hrun & Hd & Hsz & Hl & _).
  { intros k. apply (create_settled hash n Hn). }
  exists d. split; [exact Hrun|]. split; [exact Hsz|].
  split; [apply (isRehashing_settled hash d (proj1 Hd))|].
  intros key. rewrite (get_settled hash key d (proj1 Hd)). by rewrite Hl.
Qed.

(** X2. On a dictionary of capacity 1 to 8 reached by any sequence of
    commands, [find] returns the key asked for together with the value
    [get] returns, nothing when [get] returns nothing, and leaves the
    dictionary as it is. *)
Theorem find_agrees_with_get (n : N) (cs : list (command Key Value)) d key :
  (0 < n <= BASIC_DICTIONARY_SIZE)%N ->
  exec_all hash cs (create n) = Done d ->
  exists v,
    get hash key d = Done (v, d)
    /\ find hash key d = Done (pair key <$> v, d).
Proof.
  intros Hn Hrun.
  destruct (exec_all_tidy cs (create n) (fun _ => None) (create_tidy n Hn))
    as (d' & Hrun' & Hd & _).
  { intros k. apply (create_settled hash n Hn). }
  rewrite Hrun in Hrun'. injection Hrun' as <-.
  exists (lookup hash key d). split; [apply (get_settled hash key d (proj1 Hd))|].
  rewrite (find_settled key d (proj1 Hd)). unfold lookup.
  destruct (chain_find key (bucket hash key d)) as [[k v]|] eqn:Hf; [|done].
  apply chain_find_key in Hf. cbn in Hf. by subst k.
Qed.

(** X3. On a dictionary of capacity 1 to 8 reached by any sequence of
    commands, [size()] counts the keys [get] finds: there is a
    duplicate-free list of exactly those keys whose length, as a [size_t],
    is [size()]. When the sequence is shorter than [2^64] the count is
    exact, and [empty()] is true exactly when [get] finds no key. *)
Theorem size_counts_the_keys_found (n : N) (cs : list (command Key Value)) d :
  (0 < n <= BASIC_DICTIONARY_SIZE)%N ->
  exec_all hash cs (create n) = Done d ->
  exists keys : list Key,
    NoDup keys
    /\ (forall key, key ∈ keys <-> exists v, get hash key d = Done (Some v, d))
    /\ size d = (N.of_nat (length keys) mod 2 ^ 64)%N
    /\ ((N.of_nat (length cs) < 2 ^ 64)%N ->
        size d = N.of_nat (length keys)
        /\ (empty d = true <-> forall key, get hash key d = Done (None, d))).
Proof.
  intros Hn Hrun.
  destruct (exec_all_tidy cs (create n) (fun _ => None) (create_tidy n Hn))
    as (d' & Hrun' & Hd & _ & _ & Hlen).
  { intros k. apply (create_settled hash n Hn). }
  rewrite Hrun in Hrun'. injection Hrun' as <-.
  destruct (tidy_stored_keys d Hd) as (Hnd & Hin & Hused).
  assert (forall key, key ∈ stored_keys d
                      <-> exists v, get hash key d = Done (Some v, d)) as Hin'.
  { intros key. rewrite Hin, (get_settled hash key d (proj1 Hd)). split.
    - intros [v Hv]. exists v. by rewrite Hv.
    - intros [v Hv]. exists v. congruence. }
  exists (stored_keys d). split; [exact Hnd|]. split; [exact Hin'|].
  split; [exact Hused|]. intros Hshort.
  assert (length (stored_keys (create n : Dictionary Key Value)) = 0%nat) as Hzero.
  { destruct (tidy_stored_keys _ (create_tidy n Hn)) as (_ & Hin0 & _).
    destruct (stored_keys (create n : Dictionary Key Value)) as [|k l]; [done|].
    destruct (proj1 (Hin0 k)) as [v Hv]; [by left|].
    by rewrite (proj2 (create_settled hash n Hn)) in Hv. }
  rewrite Hzero in Hlen.
  assert (size d = N.of_nat (length (stored_keys d))) as Hsize.
  { unfold size. rewrite Hused. apply N.mod_small. lia. }
  split; [exact Hsize|].
  unfold empty. fold (size d). rewrite Hsize, N.eqb_eq. split.
  - intros Hnone key. rewrite (get_settled hash key d (proj1 Hd)).
    destruct (lookup hash key d) as [v|] eqn:Hv; [|done].
    assert (key ∈ stored_keys d) as Hk by (apply Hin; by eexists).
    destruct (stored_keys d); [by apply elem_of_nil in Hk | done].
  - intros Hnone. destruct (stored_keys d) as [|k l] eqn:Hkeys; [done|].
    destruct (proj1 (Hin' k)) as [v Hv]; [by left|].
    rewrite Hnone in Hv. done.
Qed.

(** X4. On a dictionary of capacity 1 to 8 reached by any sequence of
    commands, [set] of a key that [get] finds replaces the value and leaves
    [size()] as it is, [set] of a key that [get] does not find adds one to
    it; [remove] returns whether [get] finds the key, subtracts one from
    [size()] if so and changes nothing otherwise. *)
Theorem size_follows_set_and_remove (n : N) (cs : list (command Key Value)) d key
    (value : Value) :
  (0 < n <= BASIC_DICTIONARY_SIZE)%N ->
  exec_all hash cs (create n) = Done d ->
  exists found d1 d2,
    get hash key d = Done (found, d)
    /\ set hash key value d = Done d1
    /\ size d1 = (if found is Some _ then size d else size_incr (size d))
    /\ get hash key d1 = Done (Some value, d1)
    /\ remove hash key d = Done (has_value found, d2)
    /\ size d2 = (if found is Some _ then size_decr (size d) else size d)
    /\ (found = None -> d2 = d)
    /\ get hash key d2 = Done (None, d2).
Proof.
  intros Hn Hrun.
  destruct (exec_all_tidy cs (create n) (fun _ => None) (create_tidy n Hn))
    as (d' & Hrun' & Hd & _).
  { intros k. apply (create_settled hash n Hn). }
  rewrite Hrun in Hrun'. injection Hrun' as <-.
  destruct (set_tidy key value d Hd) as (d1 & Hset & Hd1 & _ & Hl1 & Hu1).
  destruct (remove_tidy key d Hd) as (d2 & Hrm & Hd2 & _ & Hl2 & Hu2).
  exists (lookup hash key d), d1, d2.
  split; [apply (get_settled hash key d (proj1 Hd))|].
  split; [exact Hset|]. split; [exact Hu1|].
  split; [rewrite (get_settled hash key d1 (proj1 Hd1)), Hl1; by rewrite decide_True|].
  split; [exact Hrm|]. split; [exact Hu2|]. split.
  - intros Hnone. rewrite (remove_settled_shape key d (proj1 Hd)) in Hrm.
    unfold lookup in Hnone.
    destruct (chain_find key (bucket hash key d)); [done|]. congruence.
  - rewrite (get_settled hash key d2 (proj1 Hd2)), Hl2. by rewrite decide_True.
Qed.

End BaseCapacity.

Section Rehashing.
Context {Key Value : Type} `{EqDecision Key}.
Variable hash : Key -> N.
Implicit Types (c : chain Key Value) (d : Dictionary Key Value) (key : Key).

(** The loop of [rehash], bucket by bucket: the buckets from the cursor to
    the place it stops are emptied, the others are left as they were. *)
Lemma rehash_loop_sweeps (budget : nat) d :
  (N.to_nat (_dictionarySize d) <= length (_dictionary d))%nat ->
  (_dictionarySize d < SIZE_MAX)%N ->
  (_rehashIndex d <= _dictionarySize d)%N ->
  exists a,
    rehash_loop budget d
    = Done (mkDictionary a (_dictionarySize d) (_dictionaryUsed d)
              (_alternativeDictionary d) (_alternativeDictionarySize d)
              (N.min (_rehashIndex d + N.of_nat budget) (_dictionarySize d)))
    /\ length a = length (_dictionary d)
    /\ forall j : nat,
         a !! j
         = if decide (N.to_nat (_rehashIndex d) <= j
                      < N.to_nat (N.min (_rehashIndex d + N.of_nat budget)
                                    (_dictionarySize d)))%nat
           then Some [] else _dictionary d !! j.
Proof.
  revert d. induction budget as [|budget IH]; intros d Hlen Hmax Hidx.
  - exists (_dictionary d). cbn [rehash_loop]. split; [|split; [done|]].
    + destruct d as [a n u alt altn i]. cbn in *. do 2 f_equal. lia.
    + intros j. rewrite decide_False; [done | lia].
  - cbn [rehash_loop].
    destruct (N.ltb_spec (_rehashIndex d) (_dictionarySize d)) as [Hlt|Hge].
    + destruct (lookup_lt_is_Some_2 (_dictionary d) (N.to_nat (_rehashIndex d)))
        as [c Hc]; [lia|].
      rewrite (read_Some _ _ _ Hc). cbn [bind].
      assert (size_incr (_rehashIndex d) = (_rehashIndex d + 1)%N) as Hincr.
      { unfold size_incr. apply N.mod_small. unfold SIZE_MAX in Hmax. lia. }
      assert (exists a', match c with
                         | [] => Done (_dictionary d)
                         | _ :: _ => write (_dictionary d) (_rehashIndex d) []
                         end = Done a'
                         /\ length a' = length (_dictionary d)
                         /\ a' !! N.to_nat (_rehashIndex d) = Some []
                         /\ forall j, j <> N.to_nat (_rehashIndex d) ->
                                      a' !! j = _dictionary d !! j)
        as (a' & -> & Hlen' & Hhere & Helse).
      { destruct c.
        - by exists (_dictionary d).
        - rewrite (write_Some _ _ _ _ Hc). eexists. split; [done|].
          split; [by rewrite length_insert|]. split.
          + apply list_lookup_insert_eq. by eapply lookup_lt_Some.
          + intros j Hj. by apply list_lookup_insert_ne. }
      cbn [bind]. rewrite Hincr.
      edestruct (IH (mkDictionary a' (_dictionarySize d) (_dictionaryUsed d)
                       (_alternativeDictionary d) (_alternativeDictionarySize d)
                       (_rehashIndex d + 1)%N)) as (a & Hrun & Hlena & Ha);
        cbn [_dictionary _dictionarySize _rehashIndex]; [lia | done | lia |].
      cbn [_dictionary _dictionarySize _rehashIndex _dictionaryUsed
           _alternativeDictionary _alternativeDictionarySize] in Hrun, Ha.
      exists a. rewrite Hrun. split; [|split; [by rewrite Hlena|]].
      * do 2 f_equal. lia.
      * intros j. rewrite Ha.
        replace (_rehashIndex d + 1 + N.of_nat budget)%N
          with (_rehashIndex d + N.of_nat (S budget))%N by lia.
        destruct (decide (j = N.to_nat (_rehashIndex d))) as [->|Hne].
        -- rewrite decide_False by lia. rewrite decide_True by lia. exact Hhere.
        -- destruct (decide (N.to_nat (_rehashIndex d + 1) <= j < _)%nat) as [Hin|Hout].
           ++ by rewrite decide_True by lia.
           ++ rewrite decide_False by lia. exact (Helse j Hne).
    + exists (_dictionary d). split; [|split; [done|]].
      * destruct d as [a n u alt altn i]. cbn in *. do 2 f_equal. lia.
      * intros j. rewrite decide_False; [done | lia].
Qed.

(** The command prologue on a dictionary of more than
    [DICTIONARY_REHASH_BUCKET_COUNT] buckets on which a rehash is due:
    the alternative array is allocated, the first 32 buckets of the
    primary array are emptied and the dictionary is left rehashing. *)
Lemma preCommandActions_starts_rehash d :
  isRehashing d = false ->
  isNeedRehash d = true ->
  (32 < _dictionarySize d < 2 ^ 63)%N ->
  length (_dictionary d) = N.to_nat (_dictionarySize d) ->
  exists a altSize,
    preCommandActions d
    = Done (mkDictionary a (_dictionarySize d) (_dictionaryUsed d)
              (replicate (N.to_nat altSize) []) altSize 32)
    /\ (16 <= altSize)%N
    /\ length a = N.to_nat (_dictionarySize d)
    /\ forall j : nat,
         a !! j = if decide (j < 32)%nat then Some [] else _dictionary d !! j.
Proof.
  intros Hidle Hdue Hsize Hlen.
  unfold preCommandActions. rewrite Hidle, Hdue. unfold rehash.
  destruct (rehash_loop_sweeps DICTIONARY_REHASH_BUCKET_COUNT (prepareRehash d))
    as (a & -> & Hlena & Ha).
  { cbn [prepareRehash _dictionary _dictionarySize]. lia. }
  { cbn. unfold SIZE_MAX. lia. }
  { cbn. lia. }
  cbn [bind _rehashIndex _dictionarySize _dictionary _dictionaryUsed
       _alternativeDictionary _alternativeDictionarySize prepareRehash] in Ha, Hlena |- *.
  rewrite Hlen in Hlena.
  replace (N.min (0 + N.of_nat DICTIONARY_REHASH_BUCKET_COUNT) (_dictionarySize d))
    with 32%N in Ha |- * by (unfold DICTIONARY_REHASH_BUCKET_COUNT; lia).
  destruct (N.eqb_spec 32 (_dictionarySize d)) as [?|_]; [lia|].
  eexists a, _. split; [reflexivity|]. split; [|split; [exact Hlena|]].
  - destruct (double_lt (fillFactor d) DICTIONARY_LOW_LIMIT_REHASH).
    + assert (32 / 2 <= _dictionarySize d / 2)%N by (apply N.Div0.div_le_mono; lia).
      change (32 / 2)%N with 16%N in *. lia.
    + unfold size_mul. rewrite N.mod_small; lia.
  - intros j. rewrite Ha.
    destruct (decide (j < 32)%nat); [by rewrite decide_True by lia|].
    by rewrite decide_False by lia.
Qed.

(** X5. Incremental rehash on a large table. When a rehash is due on a
    dictionary of more than 32 buckets (and fewer than [2^63]), the [get]
    that starts it empties the first 32 buckets and leaves the dictionary
    rehashing with the cursor at 32, the capacity and the count unchanged:
    a key whose bucket index is below 32 is not found, whatever was stored,
    and any other key is answered from its bucket as before. *)
Theorem get_that_starts_a_rehash key d :
  isRehashing d = false ->
  isNeedRehash d = true ->
  (32 < _dictionarySize d < 2 ^ 63)%N ->
  length (_dictionary d) = N.to_nat (_dictionarySize d) ->
  exists d',
    get hash key d
    = Done (if decide (hash key mod _dictionarySize d < 32)%N then None
            else lookup hash key d, d')
    /\ _rehashIndex d' = 32%N
    /\ isRehashing d' = true
    /\ _dictionarySize d' = _dictionarySize d
    /\ _dictionaryUsed d' = _dictionaryUsed d.
Proof.
  intros Hidle Hdue Hsize Hlen.
  destruct (preCommandActions_starts_rehash d Hidle Hdue Hsize Hlen)
    as (a & altSize & Hpre & Halt & Hlena & Ha).
  unfold get. rewrite Hpre. cbn [bind].
  exists (mkDictionary a (_dictionarySize d) (_dictionaryUsed d)
            (replicate (N.to_nat altSize) []) altSize 32).
  split; [|by repeat split].
  unfold isRehashing. cbn [_rehashIndex _dictionary _dictionarySize
                           _alternativeDictionary _alternativeDictionarySize].
  change (32 =? SIZE_MAX)%N with false. cbn [negb].
  unfold _get, getBucketIndex.
  destruct (N.eqb_spec altSize 0) as [?|_]; [lia|]. cbn [bind].
  unfold read at 1. rewrite lookup_replicate_2
    by (pose proof (N.mod_lt (hash key) altSize); lia).
  cbn [bind chain_find].
  destruct (N.eqb_spec (_dictionarySize d) 0) as [?|_]; [lia|]. cbn [bind].
  unfold read. rewrite Ha. unfold lookup, bucket.
  pose proof (N.mod_lt (hash key) (_dictionarySize d) ltac:(lia)) as Hlt.
  destruct (decide (N.to_nat (hash key mod _dictionarySize d) < 32)%nat) as [Hin|Hout].
  - rewrite decide_True by lia. reflexivity.
  - rewrite decide_False by lia.
    destruct (lookup_lt_is_Some_2 (_dictionary d)
                (N.to_nat (hash key mod _dictionarySize d))) as [c Hc]; [lia|].
    unfold chain in *. rewrite Hc. reflexivity.
Qed.

(** X6. A [set] cannot run while a rehash is in progress: on a dictionary
    of more than 32 buckets on which a rehash is due, [set] starts the
    rehash, writes the node into the alternative array and then
    dereferences the key pointer it has moved from. *)
Theorem set_that_starts_a_rehash_faults key (value : Value) d :
  isRehashing d = false ->
  isNeedRehash d = true ->
  (32 < _dictionarySize d < 2 ^ 63)%N ->
  length (_dictionary d) = N.to_nat (_dictionarySize d) ->
  set hash key value d = Raise NullDereference.
Proof.
  intros Hidle Hdue Hsize Hlen.
  destruct (preCommandActions_starts_rehash d Hidle Hdue Hsize Hlen)
    as (a & altSize & Hpre & Halt & Hlena & Ha).
  unfold set. rewrite Hpre. cbn [bind].
  unfold isRehashing. cbn [_rehashIndex _alternativeDictionarySize].
  change (32 =? SIZE_MAX)%N with false. cbn [negb].
  unfold _set, getBucketIndex.
  destruct (N.eqb_spec altSize 0) as [?|_]; [lia|]. cbn [bind deref _alternativeDictionary].
  pose proof (N.mod_lt (hash key) altSize ltac:(lia)) as Hlt.
  unfold read. rewrite lookup_replicate_2 by lia. cbn [bind].
  unfold write. rewrite decide_True by (rewrite length_replicate; lia).
  reflexivity.
Qed.

(** X7. The [remove] that starts a rehash on such a dictionary returns
    true exactly for a key that is stored in a bucket the first sweep does
    not reach; a key stored in one of the first 32 buckets is reported
    absent. *)
Theorem remove_that_starts_a_rehash key d :
  isRehashing d = false ->
  isNeedRehash d = true ->
  (32 < _dictionarySize d < 2 ^ 63)%N ->
  length (_dictionary d) = N.to_nat (_dictionarySize d) ->
  exists d',
    remove hash key d
    = Done (if decide (hash key mod _dictionarySize d < 32)%N then false
            else has_value (lookup hash key d), d')
    /\ isRehashing d' = true.
Proof.
  intros Hidle Hdue Hsize Hlen.
  destruct (preCommandActions_starts_rehash d Hidle Hdue Hsize Hlen)
    as (a & altSize & Hpre & Halt & Hlena & Ha).
  unfold remove. rewrite Hpre. cbn [bind].
  unfold isRehashing at 1. cbn [_rehashIndex _alternativeDictionarySize _dictionarySize].
  change (32 =? SIZE_MAX)%N with false. cbn [negb].
  unfold _remove at 1, getBucketIndex.
  destruct (N.eqb_spec altSize 0) as [?|_]; [lia|]. cbn [bind deref _alternativeDictionary].
  pose proof (N.mod_lt (hash key) altSize ltac:(lia)) as Hlt.
  unfold read at 1. rewrite lookup_replicate_2 by lia. cbn [bind chain_find].
  unfold _remove, getBucketIndex.
  cbn [_dictionarySize _dictionary _dictionaryUsed].
  destruct (N.eqb_spec (_dictionarySize d) 0) as [?|_]; [lia|].
  cbn [bind deref _dictionary].
  pose proof (N.mod_lt (hash key) (_dictionarySize d) ltac:(lia)) as Hlt'.
  unfold read. rewrite Ha. unfold lookup, bucket.
  destruct (decide (N.to_nat (hash key mod _dictionarySize d) < 32)%nat) as [Hin|Hout].
  - rewrite decide_True by lia. cbn [bind chain_find]. eexists. split; reflexivity.
  - rewrite decide_False by lia.
    destruct (lookup_lt_is_Some_2 (_dictionary d)
                (N.to_nat (hash key mod _dictionarySize d))) as [c Hc]; [lia|].
    unfold chain in *. rewrite Hc. cbn [bind default from_option].
    destruct (chain_find key c) as [n|] eqn:Hf; cbn [fmap option_fmap option_map has_value].
    + unfold write. unfold chain in *. rewrite decide_True by lia. cbn [bind].
      eexists. split; [unfold id; rewrite Hf; reflexivity | reflexivity].
    + eexists. split; [unfold id; rewrite Hf; reflexivity | reflexivity].
Qed.

(** [get] on a dictionary of any capacity that is not rehashing and on
    which no rehash is due. *)
Lemma get_when_no_rehash_is_due key d :
  isRehashing d = false ->
  isNeedRehash d = false ->
  (0 < _dictionarySize d)%N ->
  length (_dictionary d) = N.to_nat (_dictionarySize d) ->
  get hash key d = Done (lookup hash key d, d).
Proof.
  intros Hidle Hquiet Hpos Hlen. unfold get, preCommandActions.
  rewrite Hidle, Hquiet. cbn [bind]. rewrite Hidle. unfold _get, getBucketIndex.
  destruct (N.eqb_spec (_dictionarySize d) 0) as [?|_]; [lia|]. cbn [bind].
  pose proof (N.mod_lt (hash key) (_dictionarySize d) ltac:(lia)) as Hlt.
  destruct (lookup_lt_is_Some_2 (_dictionary d)
              (N.to_nat (hash key mod _dictionarySize d))) as [c Hc]; [lia|].
  unfold read, lookup, bucket. unfold chain in *. by rewrite Hc.
Qed.

(** X8. On a dictionary of any capacity that is not rehashing and on
    which no rehash is due, [set] succeeds, keeps the capacity and binds
    the key without touching the other keys; and if no rehash is due
    after it either, [get] returns the value just set and the former
    values of the other keys. *)
Theorem set_then_get_while_no_rehash_is_due key (value : Value) d :
  isRehashing d = false ->
  isNeedRehash d = false ->
  (0 < _dictionarySize d)%N ->
  length (_dictionary d) = N.to_nat (_dictionarySize d) ->
  exists d',
    set hash key value d = Done d'
    /\ _dictionarySize d' = _dictionarySize d
    /\ isRehashing d' = false
    /\ (forall k, lookup hash k d'
                 = if decide (k = key) then Some value else lookup hash k d)
    /\ (isNeedRehash d' = false ->
        get hash key d' = Done (Some value, d')
        /\ forall k, k <> key -> get hash k d' = Done (lookup hash k d, d')).
Proof.
  intros Hidle Hquiet Hpos Hlen.
  pose proof (N.mod_lt (hash key) (_dictionarySize d) ltac:(lia)) as Hlt.
  destruct (lookup_lt_is_Some_2 (_dictionary d)
              (N.to_nat (hash key mod _dictionarySize d))) as [c Hc]; [lia|].
  assert (bucket hash key d = c) as Hbucket.
  { unfold bucket. unfold chain in *. by rewrite Hc. }
  assert (forall (c' : chain Key Value) (used : N),
    (forall k, snd <$> chain_find k c'
               = if decide (k = key) then Some value else snd <$> chain_find k c) ->
    let d' := set_used used
                (assign ref_dictionary
                   (<[N.to_nat (hash key mod _dictionarySize d) := c']> (_dictionary d)) d) in
    _dictionarySize d' = _dictionarySize d
    /\ isRehashing d' = false
    /\ (forall k, lookup hash k d'
                 = if decide (k = key) then Some value else lookup hash k d)
    /\ (isNeedRehash d' = false ->
        get hash key d' = Done (Some value, d')
        /\ forall k, k <> key -> get hash k d' = Done (lookup hash k d, d'))) as Hshape.
  { intros c' used Hc' d'.
    assert (forall k, lookup hash k d'
                      = if decide (k = key) then Some value else lookup hash k d) as Hlook.
    { intros k. unfold lookup, bucket. subst d'.
      cbn [set_used assign _dictionary _dictionarySize].
      destruct (decide (N.to_nat (hash k mod _dictionarySize d)
                        = N.to_nat (hash key mod _dictionarySize d))) as [Heq|Hne].
      - rewrite Heq, list_lookup_insert_eq by (unfold chain in *; lia).
        cbn [default from_option id]. rewrite Hc'.
        unfold chain in *. by rewrite Hc.
      - rewrite list_lookup_insert_ne by done.
        rewrite decide_False; [done|]. by intros ->. }
    split; [done|]. split; [exact Hidle|]. split; [exact Hlook|].
    intros Hquiet'.
    assert (forall k, get hash k d' = Done (lookup hash k d', d')) as Hget.
    { intros k. apply get_when_no_rehash_is_due; [exact Hidle | exact Hquiet' | exact Hpos |].
      subst d'. cbn [set_used assign _dictionary _dictionarySize].
      by rewrite length_insert. }
    split.
    - rewrite Hget, Hlook. by rewrite decide_True.
    - intros k Hk. rewrite Hget, Hlook. by rewrite decide_False. }
  unfold set, preCommandActions. rewrite Hidle, Hquiet. cbn [bind]. rewrite Hidle.
  unfold _set, getBucketIndex.
  destruct (N.eqb_spec (_dictionarySize d) 0) as [?|_]; [lia|]. cbn [bind deref].
  rewrite (read_Some _ _ _ Hc). cbn [bind].
  destruct c as [|n c].
  - rewrite (write_Some _ _ _ _ Hc). cbn [bind]. eexists. split; [reflexivity|].
    apply Hshape. intros k. apply chain_find_cons.
  - destruct (chain_find key (n :: c)) as [m|] eqn:Hf.
    + rewrite (write_Some _ _ _ _ Hc). cbn [bind]. eexists. split; [reflexivity|].
      apply (Hshape (chain_assign key value (n :: c)) (_dictionaryUsed d)
             : _ -> _ /\ _ /\ _ /\ _).
      intros k. apply chain_find_assign. by rewrite Hf.
    + rewrite (write_Some _ _ _ _ Hc). cbn [bind]. eexists. split; [reflexivity|].
      apply Hshape. intros k. apply chain_find_cons.
Qed.

(** The command prologue when a rehash is due: the alternative array is
    allocated with half or twice the buckets and the first 32 buckets of
    the primary array are swept; a primary array of at most 32 buckets is
    swept whole and replaced at once. *)
Lemma preCommandActions_due d :
  isRehashing d = false ->
  isNeedRehash d = true ->
  length (_dictionary d) = N.to_nat (_dictionarySize d) ->
  (_dictionarySize d < 2 ^ 63)%N ->
  exists a,
    length a = length (_dictionary d)
    /\ preCommandActions d
       = Done (let altSize :=
                 if double_lt (fillFactor d) DICTIONARY_LOW_LIMIT_REHASH
                 then (_dictionarySize d / 2)%N else (2 * _dictionarySize d)%N in
               if decide (32 < _dictionarySize d)%N
               then mkDictionary a (_dictionarySize d) (_dictionaryUsed d)
                      (replicate (N.to_nat altSize) []) altSize 32
               else mkDictionary (replicate (N.to_nat altSize) []) (_dictionarySize d)
                      (_dictionaryUsed d) [] altSize SIZE_MAX).
Proof.
  intros Hidle Hdue Hlen Hcap.
  unfold preCommandActions. rewrite Hidle, Hdue. unfold rehash.
  destruct (rehash_loop_sweeps DICTIONARY_REHASH_BUCKET_COUNT (prepareRehash d))
    as (a & -> & Hlena & _).
  { cbn [prepareRehash _dictionary _dictionarySize]. lia. }
  { cbn. unfold SIZE_MAX. lia. }
  { cbn. lia. }
  exists a. split; [exact Hlena|].
  cbn [bind _rehashIndex _dictionarySize _dictionary _dictionaryUsed
       _alternativeDictionary _alternativeDictionarySize prepareRehash].
  change (N.of_nat DICTIONARY_REHASH_BUCKET_COUNT) with 32%N.
  assert (size_mul (_dictionarySize d) 2 = (2 * _dictionarySize d)%N) as ->.
  { unfold size_mul. rewrite N.mod_small; lia. }
  cbv zeta.
  destruct (N.eqb_spec (N.min (0 + 32) (_dictionarySize d)) (_dictionarySize d))
    as [Heq|Hne].
  - by rewrite decide_False by lia.
  - rewrite decide_True by lia. do 2 f_equal. lia.
Qed.

(** The recorded capacity and count are accurate from the construction of
    a dictionary until its first rehash: the constructor makes them so,
    and a [set] or a [remove] on which no rehash is due keeps them so. *)
Lemma create_accurate (n : N) : accurate (create n : Dictionary Key Value).
Proof.
  split; [reflexivity|]. cbn [create _dictionary _dictionarySize _dictionaryUsed].
  split; [by rewrite length_replicate|].
  induction (N.to_nat n) as [|m IH]; [done|]. exact IH.
Qed.

Lemma update_accurate d (i : nat) c c' (used : N) :
  accurate d ->
  _dictionary d !! i = Some c ->
  (N.to_nat used + length c = N.to_nat (_dictionaryUsed d) + length c')%nat ->
  accurate (set_used used (assign ref_dictionary (<[i := c']> (_dictionary d)) d)).
Proof.
  intros (Hidle & Hlen & Hused) Hc Hcount.
  pose proof (length_concat_insert (_dictionary d) i c c' Hc) as Hsum.
  split; [exact Hidle|].
  cbn [set_used assign _dictionary _dictionarySize _dictionaryUsed].
  split; [by rewrite length_insert|]. rewrite Hused in Hcount.
  unfold chain in *. lia.
Qed.

Lemma set_accurate key (value : Value) d :
  accurate d ->
  isNeedRehash d = false ->
  (0 < _dictionarySize d)%N ->
  (_dictionaryUsed d < SIZE_MAX)%N ->
  exists d', set hash key value d = Done d' /\ accurate d'.
Proof.
  intros Hd Hquiet Hpos Hroom. pose proof Hd as (Hidle & Hlen & Hused).
  pose proof (N.mod_lt (hash key) (_dictionarySize d) ltac:(lia)) as Hlt.
  destruct (lookup_lt_is_Some_2 (_dictionary d)
              (N.to_nat (hash key mod _dictionarySize d))) as [c Hc]; [lia|].
  assert (N.to_nat (size_incr (_dictionaryUsed d)) = S (N.to_nat (_dictionaryUsed d)))
    as Hincr.
  { unfold size_incr. rewrite N.mod_small; unfold SIZE_MAX in Hroom; lia. }
  unfold set, preCommandActions. rewrite Hidle, Hquiet. cbn [bind]. rewrite Hidle.
  unfold _set, getBucketIndex.
  destruct (N.eqb_spec (_dictionarySize d) 0) as [?|_]; [lia|]. cbn [bind deref].
  rewrite (read_Some _ _ _ Hc). cbn [bind].
  destruct c as [|n c].
  - rewrite (write_Some _ _ _ _ Hc). cbn [bind]. eexists. split; [reflexivity|].
    apply (update_accurate d _ [] _ _ Hd Hc). cbn [length]. lia.
  - destruct (chain_find key (n :: c)) as [m|] eqn:Hf.
    + rewrite (write_Some _ _ _ _ Hc). cbn [bind]. eexists. split; [reflexivity|].
      destruct d as [a sz u alt altn idx].
      apply (update_accurate (mkDictionary a sz u alt altn idx) _ (n :: c) _ u Hd Hc).
      by rewrite chain_assign_length.
    + rewrite (write_Some _ _ _ _ Hc). cbn [bind]. eexists. split; [reflexivity|].
      apply (update_accurate d _ (n :: c) _ _ Hd Hc). cbn [length]. lia.
Qed.

Lemma remove_accurate key d :
  accurate d ->
  isNeedRehash d = false ->
  (0 < _dictionarySize d)%N ->
  (_dictionaryUsed d <= SIZE_MAX)%N ->
  exists r d', remove hash key d = Done (r, d') /\ accurate d'.
Proof.
  intros Hd Hquiet Hpos Hroom. pose proof Hd as (Hidle & Hlen & Hused).
  pose proof (N.mod_lt (hash key) (_dictionarySize d) ltac:(lia)) as Hlt.
  destruct (lookup_lt_is_Some_2 (_dictionary d)
              (N.to_nat (hash key mod _dictionarySize d))) as [c Hc]; [lia|].
  unfold remove, preCommandActions. rewrite Hidle, Hquiet. cbn [bind]. rewrite Hidle.
  unfold _remove, getBucketIndex.
  destruct (N.eqb_spec (_dictionarySize d) 0) as [?|_]; [lia|]. cbn [bind deref].
  rewrite (read_Some _ _ _ Hc). cbn [bind].
  destruct (chain_find key c) as [m|] eqn:Hf; [|by exists false, d].
  rewrite (write_Some _ _ _ _ Hc). cbn [bind]. eexists _, _. split; [reflexivity|].
  pose proof (chain_unlink_length hash key c m Hf) as Hshorter.
  assert (0 < _dictionaryUsed d)%N as Hsome.
  { pose proof (length_concat_insert (_dictionary d) _ c [] Hc) as Hsum.
    cbn [length] in Hsum. rewrite Hused. lia. }
  apply (update_accurate d _ c _ _ Hd Hc).
  assert (size_decr (_dictionaryUsed d) = (_dictionaryUsed d - 1)%N) as ->.
  { unfold size_decr, SIZE_MAX in *.
    replace (_dictionaryUsed d + (2 ^ 64 - 1))%N
      with ((_dictionaryUsed d - 1) + 1 * 2 ^ 64)%N by lia.
    rewrite N.Div0.mod_add. apply N.mod_small. lia. }
  lia.
Qed.

(** C6, as amended. Take a dictionary whose recorded capacity and count
    are those of its bucket array, the array having fewer than [2^63]
    buckets. A command starts a rehash exactly when the capacity exceeds
    the base capacity 8, the count is not zero and the fill factor, the
    quotient of the count and the capacity as [double]s, is below the low
    limit or above the high limit (the constants 0.01f and 1.2f): the
    command prologue then allocates a new array, of half as many buckets
    as the old one when the fill factor is below the low limit and of
    twice as many when it is above the high limit, and otherwise leaves
    the dictionary as it is. No rehash is started while the capacity is at
    most the base capacity. *)
Theorem rehash_schedule d :
  accurate d ->
  (N.of_nat (length (_dictionary d)) < 2 ^ 63)%N ->
  let capacity := N.of_nat (length (_dictionary d)) in
  let used := N.of_nat (length (concat (_dictionary d))) in
  let fill := double_div (double_of_size used) (double_of_size capacity) in
  let below := double_lt fill DICTIONARY_LOW_LIMIT_REHASH in
  let above := double_lt DICTIONARY_HIGH_LIMIT_REHASH fill in
  let due := (BASIC_DICTIONARY_SIZE <? capacity)%N && negb (used =? 0)%N
             && (below || above) in
  (due = true ->
   exists d',
     preCommandActions d = Done d'
     /\ d' <> d
     /\ let new_array :=
          if isRehashing d' then _alternativeDictionary d' else _dictionary d' in
        (below = true -> N.of_nat (length new_array) = (capacity / 2)%N)
        /\ (above = true -> N.of_nat (length new_array) = (2 * capacity)%N))
  /\ (due = false -> preCommandActions d = Done d)
  /\ ((capacity <= BASIC_DICTIONARY_SIZE)%N -> preCommandActions d = Done d).
Proof.
  intros (Hidle & Hlen & Hused) Hcap. cbv zeta.
  assert (N.of_nat (length (_dictionary d)) = _dictionarySize d) as Hn
    by (rewrite Hlen; apply N2Nat.id).
  rewrite <- Hused. rewrite Hn in *.
  change (double_div (double_of_size (_dictionaryUsed d))
            (double_of_size (_dictionarySize d))) with (fillFactor d).
  change ((BASIC_DICTIONARY_SIZE <? _dictionarySize d)%N
          && negb (_dictionaryUsed d =? 0)%N
          && (double_lt (fillFactor d) DICTIONARY_LOW_LIMIT_REHASH
              || double_lt DICTIONARY_HIGH_LIMIT_REHASH (fillFactor d)))
    with (isNeedRehash d).
  assert (isNeedRehash d = false -> preCommandActions d = Done d) as Hquiet.
  { intros Hq. unfold preCommandActions. by rewrite Hidle, Hq. }
  split; [|split; [exact Hquiet|]].
  - intros Hdue.
    assert (BASIC_DICTIONARY_SIZE < _dictionarySize d)%N as Hbig.
    { unfold isNeedRehash in Hdue. rewrite !andb_true_iff, N.ltb_lt in Hdue. tauto. }
    unfold BASIC_DICTIONARY_SIZE in Hbig.
    destruct (preCommandActions_due d Hidle Hdue Hlen Hcap) as (a & Hlena & ->).
    cbv zeta. eexists. split; [reflexivity|].
    assert (_rehashIndex d = SIZE_MAX) as Hcursor.
    { unfold isRehashing in Hidle. apply negb_false_iff, N.eqb_eq in Hidle. exact Hidle. }
    destruct (decide (32 < _dictionarySize d)%N) as [Hlong|Hshort].
    + split.
      { intros Heq. apply (f_equal _rehashIndex) in Heq. cbn in Heq.
        rewrite Hcursor in Heq. discriminate Heq. }
      unfold isRehashing. cbn [_rehashIndex _alternativeDictionary negb].
      change (32 =? SIZE_MAX)%N with false. cbn [negb].
      rewrite length_replicate, N2Nat.id. split.
      * by intros ->.
      * intros Habove. by rewrite (above_high_not_below_low _ Habove).
    + split.
      { intros Heq. apply (f_equal (fun x => N.of_nat (length (_dictionary x)))) in Heq.
        cbn [_dictionary] in Heq. rewrite length_replicate, N2Nat.id, Hn in Heq.
        assert (_dictionarySize d / 2 < _dictionarySize d)%N by (apply N.div_lt; lia).
        destruct (double_lt (fillFactor d) DICTIONARY_LOW_LIMIT_REHASH); lia. }
      unfold isRehashing. cbn [_rehashIndex _dictionary].
      rewrite N.eqb_refl. cbn [negb].
      rewrite length_replicate, N2Nat.id. split.
      * by intros ->.
      * intros Habove. by rewrite (above_high_not_below_low _ Habove).
  - intros Hsmall. apply Hquiet. unfold isNeedRehash.
    apply N.ltb_ge in Hsmall. by rewrite Hsmall.
Qed.

(** The command prologue while a rehash is in progress: the next 32
    buckets, or those that are left, are emptied; when the cursor reaches
    the capacity, the alternative array takes the place of the primary
    one, and the capacity and the count stay as they were. *)
Lemma preCommandActions_continues_rehash d :
  isRehashing d = true ->
  (_rehashIndex d <= _dictionarySize d)%N ->
  (_dictionarySize d < SIZE_MAX)%N ->
  (N.to_nat (_dictionarySize d) <= length (_dictionary d))%nat ->
  exists a,
    length a = length (_dictionary d)
    /\ (forall j : nat,
          a !! j
          = if decide (N.to_nat (_rehashIndex d) <= j
                       < N.to_nat (N.min (_rehashIndex d + 32) (_dictionarySize d)))%nat
            then Some [] else _dictionary d !! j)
    /\ preCommandActions d
       = Done (if decide (N.min (_rehashIndex d + 32) (_dictionarySize d)
                          < _dictionarySize d)%N
               then mkDictionary a (_dictionarySize d) (_dictionaryUsed d)
                      (_alternativeDictionary d) (_alternativeDictionarySize d)
                      (N.min (_rehashIndex d + 32) (_dictionarySize d))
               else mkDictionary (_alternativeDictionary d) (_dictionarySize d)
                      (_dictionaryUsed d) [] (_alternativeDictionarySize d) SIZE_MAX).
Proof.
  intros Hbusy Hidx Hmax Hlen.
  unfold preCommandActions. rewrite Hbusy. unfold rehash.
  destruct (rehash_loop_sweeps DICTIONARY_REHASH_BUCKET_COUNT d Hlen Hmax Hidx)
    as (a & -> & Hlena & Ha).
  change (N.of_nat DICTIONARY_REHASH_BUCKET_COUNT) with 32%N in *.
  exists a. split; [exact Hlena|]. split; [exact Ha|].
  cbn [bind _rehashIndex _dictionarySize _dictionary _dictionaryUsed
       _alternativeDictionary _alternativeDictionarySize].
  destruct (N.eqb_spec (N.min (_rehashIndex d + 32) (_dictionarySize d))
              (_dictionarySize d)) as [Heq|Hne].
  - by rewrite decide_False by lia.
  - by rewrite decide_True by lia.
Qed.

(** X9. [get] while a rehash is in progress (the cursor is at most the
    capacity, the primary array has at least that many buckets, the
    alternative array is as allocated). The next 32 buckets are emptied.
    If the cursor stops short of the capacity, the dictionary stays
    rehashing, a key whose bucket was emptied is not found and any other
    key is answered from its bucket as before. Otherwise the alternative
    array becomes the primary one while the capacity and the count keep
    their old values: the key is not found if its bucket index, taken
    modulo the old capacity, lies within the new array, and the read
    falls outside the array if it does not. *)
Theorem get_while_rehashing key d :
  isRehashing d = true ->
  (_rehashIndex d <= _dictionarySize d)%N ->
  (0 < _dictionarySize d < SIZE_MAX)%N ->
  (N.to_nat (_dictionarySize d) <= length (_dictionary d))%nat ->
  (0 < _alternativeDictionarySize d)%N ->
  _alternativeDictionary d = replicate (N.to_nat (_alternativeDictionarySize d)) [] ->
  let stop := N.min (_rehashIndex d + 32) (_dictionarySize d) in
  let index := (hash key mod _dictionarySize d)%N in
  if decide (stop < _dictionarySize d)%N then
    exists d',
      get hash key d
      = Done (if decide (_rehashIndex d <= index < stop)%N then None
              else lookup hash key d, d')
      /\ _rehashIndex d' = stop
      /\ isRehashing d' = true
      /\ _dictionarySize d' = _dictionarySize d
      /\ _dictionaryUsed d' = _dictionaryUsed d
  else
    get hash key d
    = if decide (index < _alternativeDictionarySize d)%N then
        Done (None,
              mkDictionary (_alternativeDictionary d) (_dictionarySize d)
                (_dictionaryUsed d) [] (_alternativeDictionarySize d) SIZE_MAX)
      else Raise OutOfBounds.
Proof.
  intros Hbusy Hidx Hsize Hlen Haltn Halt. cbv zeta.
  destruct (preCommandActions_continues_rehash d Hbusy Hidx (proj2 Hsize) Hlen)
    as (a & Hlena & Ha & Hpre).
  pose proof (N.mod_lt (hash key) (_dictionarySize d) ltac:(lia)) as Hlt.
  pose proof (N.mod_lt (hash key) (_alternativeDictionarySize d) ltac:(lia)) as Hlt'.
  unfold get. rewrite Hpre.
  destruct (decide (N.min (_rehashIndex d + 32) (_dictionarySize d)
                    < _dictionarySize d)%N) as [Hshort|Hfull]; cbn [bind].
  - assert (isRehashing
              (mkDictionary a (_dictionarySize d) (_dictionaryUsed d)
                 (_alternativeDictionary d) (_alternativeDictionarySize d)
                 (N.min (_rehashIndex d + 32) (_dictionarySize d))) = true) as Hbusy'.
    { unfold isRehashing. cbn [_rehashIndex].
      destruct (N.eqb_spec (N.min (_rehashIndex d + 32) (_dictionarySize d)) SIZE_MAX);
        [lia | done]. }
    exists (mkDictionary a (_dictionarySize d) (_dictionaryUsed d)
              (_alternativeDictionary d) (_alternativeDictionarySize d)
              (N.min (_rehashIndex d + 32) (_dictionarySize d))).
    split; [|split; [reflexivity|split; [exact Hbusy'|split; reflexivity]]].
    rewrite Hbusy'. clear Hbusy'.
    cbn [_rehashIndex _dictionary _dictionarySize
         _alternativeDictionary _alternativeDictionarySize].
    unfold _get, getBucketIndex.
    destruct (N.eqb_spec (_alternativeDictionarySize d) 0) as [?|_]; [lia|]. cbn [bind].
    rewrite Halt. unfold read at 1. rewrite lookup_replicate_2 by lia.
    cbn [bind chain_find].
    destruct (N.eqb_spec (_dictionarySize d) 0) as [?|_]; [lia|]. cbn [bind].
    unfold read. rewrite Ha. unfold lookup, bucket.
    destruct (decide (_rehashIndex d <= hash key mod _dictionarySize d
                      < N.min (_rehashIndex d + 32) (_dictionarySize d))%N) as [Hin|Hout].
    + rewrite decide_True by lia. reflexivity.
    + rewrite decide_False by lia.
      destruct (lookup_lt_is_Some_2 (_dictionary d)
                  (N.to_nat (hash key mod _dictionarySize d))) as [c Hc]; [lia|].
      unfold chain in *. rewrite Hc. reflexivity.
  - unfold isRehashing. cbn [_rehashIndex _dictionary _dictionarySize
                             _alternativeDictionary _alternativeDictionarySize].
    rewrite N.eqb_refl. cbn [negb].
    unfold _get, getBucketIndex.
    destruct (N.eqb_spec (_dictionarySize d) 0) as [?|_]; [lia|]. cbn [bind].
    unfold read. rewrite Halt at 1.
    destruct (decide (hash key mod _dictionarySize d < _alternativeDictionarySize d)%N)
      as [Hin|Hout].
    + rewrite lookup_replicate_2 by lia. reflexivity.
    + rewrite lookup_ge_None_2 by (rewrite length_replicate; lia). reflexivity.
Qed.

End Rehashing.
End DictMore.

(** * More on the storage *)
Module StorageMore.
Import Storage StorageFacts.

Section Reachable.
Context {Value : Type}.
Variable std_hash : string -> N.
Implicit Types (s : InMemoryKVStorage Value) (key : string) (now ttl : Z).

Local Abbreviation consistent := (@Storage.consistent Value std_hash).
Local Abbreviation value_of := (@Storage.value_of Value std_hash).
Local Abbreviation expiration_of := (@Storage.expiration_of Value std_hash).
Local Abbreviation expired := (@Storage.expired Value std_hash).

(** [getManySorted] leaves a consistent storage as it is, whatever the
    count. *)
Lemma getManySorted_keeps_storage key (count : N) now s r s' :
  consistent s -> getManySorted std_hash key count now s = Done (r, s') -> s' = s.
Proof.
  intros Hs. unfold getManySorted.
  generalize (StdSet.lower_bound ComparatorPtrKey key (_setSortedKeyPtr s)).
  intros it. generalize (@nil (string * Value)). generalize 0%N.
  induction it as [|k it IHit]; intros i result; cbn [getManySorted_loop].
  - congruence.
  - destruct (i <? count)%N; [|congruence].
    rewrite (isExpired_consistent std_hash k now s Hs). cbn [bind].
    destruct (expired k now s) eqn:Hexp; [apply IHit|].
    rewrite (get_consistent std_hash k now s Hs), Hexp. cbn [bind].
    destruct (value_of k s); cbn [value bind]; [apply IHit | done].
Qed.

(** The three ways [removeOneExpiredEntry] ends on a consistent storage. *)
Lemma removeOneExpiredEntry_cases now s :
  consistent s ->
  removeOneExpiredEntry std_hash now s = Done (None, s)
  \/ (exists it v s',
        head (_setSortedTtlPtr s) = Some it
        /\ (pointee (snd it) < now)%Z
        /\ value_of (pointee (fst it)) s = Some v
        /\ remove std_hash (pointee (fst it)) s = Done (true, s')
        /\ removeOneExpiredEntry std_hash now s
           = Done (Some (pointee (fst it), v), s'))
  \/ (exists it,
        head (_setSortedTtlPtr s) = Some it
        /\ (pointee (snd it) < now)%Z
        /\ value_of (pointee (fst it)) s = None
        /\ removeOneExpiredEntry std_hash now s = Raise BadOptionalAccess).
Proof.
  intros Hs. rewrite (removeOneExpiredEntry_consistent std_hash now s Hs).
  destruct (_setSortedTtlPtr s) as [|it l]; [by left|].
  destruct (Z.ltb_spec (pointee (snd it)) now) as [Hlt|_]; [|by left].
  right. destruct (value_of (pointee (fst it)) s) as [v|] eqn:Hv.
  - left. destruct (remove_consistent std_hash (pointee (fst it)) s Hs)
      as (s' & Hrm & _).
    rewrite Hv in Hrm. cbn [has_value] in Hrm.
    exists it, v, s'. rewrite Hrm. cbn [bind]. done.
  - right. by exists it.
Qed.

(** A property of the empty storage that [set] and the [remove] of a
    stored key preserve holds of every reachable storage. *)
Lemma reachable_invariant (P : InMemoryKVStorage Value -> Prop) :
  P create ->
  (forall s pKey pTtl key value ttl now s',
     reachable std_hash s -> P s ->
     set std_hash pKey pTtl key value ttl now s = Done s' -> P s') ->
  (forall s key s',
     reachable std_hash s -> P s -> is_Some (value_of key s) ->
     remove std_hash key s = Done (true, s') -> P s') ->
  forall s, reachable std_hash s -> P s.
Proof.
  intros Hcreate Hset Hremove.
  induction 1 as [|s pKey pTtl key value ttl now s' Hreach IH Hrun
                  |s key r s' Hreach IH Hrun
                  |s key now r s' Hreach IH Hrun
                  |s key count now r s' Hreach IH Hrun
                  |s now r s' Hreach IH Hrun].
  - exact Hcreate.
  - by eapply Hset.
  - pose proof (reachable_consistent std_hash s Hreach) as Hs.
    destruct (remove_consistent std_hash key s Hs) as (s2 & Hs2 & _ & Hsame & _).
    destruct (value_of key s) as [v|] eqn:Hv.
    + eapply (Hremove s key s'); [exact Hreach | exact IH | by rewrite Hv |].
      rewrite Hrun in Hs2 |- *. by injection Hs2 as -> ->.
    + rewrite Hrun in Hs2. injection Hs2 as -> ->. by rewrite (Hsame eq_refl).
  - pose proof (reachable_consistent std_hash s Hreach) as Hs.
    rewrite (get_consistent std_hash key now s Hs) in Hrun. congruence.
  - pose proof (reachable_consistent std_hash s Hreach) as Hs.
    by rewrite (getManySorted_keeps_storage key count now s r s' Hs Hrun).
  - pose proof (reachable_consistent std_hash s Hreach) as Hs.
    destruct (removeOneExpiredEntry_cases now s Hs)
      as [Hnone|[(it & v & s2 & _ & _ & Hv & Hrm & Hsome)|(it & _ & _ & _ & Hraise)]].
    + rewrite Hrun in Hnone. by injection Hnone as -> ->.
    + rewrite Hrun in Hsome. injection Hsome as -> ->.
      eapply (Hremove s (pointee (fst it)) s2);
        [exact Hreach | exact IH | by rewrite Hv | exact Hrm].
    + congruence.
Qed.

(** Two consistent storages that hold the same value and the same
    expiration for a key answer [get] for it alike. *)
Lemma get_same key now s s' :
  consistent s -> consistent s' ->
  value_of key s' = value_of key s ->
  expiration_of key s' = expiration_of key s ->
  exists r, get std_hash key now s = Done (r, s)
            /\ get std_hash key now s' = Done (r, s').
Proof.
  intros Hs Hs' Hval Hexp.
  rewrite (get_consistent std_hash key now s Hs).
  rewrite (get_consistent std_hash key now s' Hs').
  unfold Storage.expired. rewrite Hval, Hexp. by eexists.
Qed.

(** The empty storage holds no value and no expiration. *)
Lemma create_holds_nothing key :
  value_of key create = None /\ expiration_of key create = None.
Proof.
  unfold Storage.value_of, Storage.expiration_of, Dict.lookup, Dict.bucket.
  cbn [create _keyValueDictionary _keyTtlDictionary Dict.create
       Dict._dictionary Dict._dictionarySize].
  assert (forall (A : Type) (n i : nat),
            default [] (replicate n ([] : list A) !! i) = []) as Hempty.
  { intros A n i. destruct (replicate n [] !! i) as [c|] eqn:Hc; [|done].
    by apply lookup_replicate in Hc as [-> _]. }
  unfold Dict.chain. by rewrite !Hempty.
Qed.

(** X11. [get] on a reachable storage never raises and never changes
    the storage. A miss stays a miss at every later clock reading, and a
    hit returns the entry of the value index and is a hit with the same
    value at every earlier reading. *)
Theorem get_is_a_read_and_a_miss_is_final s key now :
  reachable std_hash s ->
  exists r,
    get std_hash key now s = Done (r, s)
    /\ (r = None ->
        forall now', (now <= now')%Z -> get std_hash key now' s = Done (None, s))
    /\ (forall v, r = Some v ->
        value_of key s = Some v
        /\ forall now', (now' <= now)%Z -> get std_hash key now' s = Done (Some v, s)).
Proof.
  intros Hreach. pose proof (reachable_consistent std_hash s Hreach) as Hs.
  eexists. split; [apply (get_consistent std_hash key now s Hs)|].
  unfold Storage.expired. split.
  - intros Hmiss now' Hle. rewrite (get_consistent std_hash key now' s Hs).
    unfold Storage.expired. revert Hmiss.
    destruct (expiration_of key s) as [t|]; [|by intros ->].
    destruct (Z.ltb_spec t now) as [Hlt|Hge].
    + intros _. by rewrite (proj2 (Z.ltb_lt t now')) by lia.
    + intros ->. by destruct (t <? now')%Z.
  - intros v. destruct (expiration_of key s) as [t|] eqn:Ht.
    + destruct (Z.ltb_spec t now) as [Hlt|Hge]; [done|].
      intros Hhit. split; [exact Hhit|]. intros now' Hle.
      rewrite (get_consistent std_hash key now' s Hs). unfold Storage.expired.
      rewrite Ht. rewrite (proj2 (Z.ltb_ge t now')) by lia. by rewrite Hhit.
    + intros Hhit. split; [exact Hhit|]. intros now' Hle.
      rewrite (get_consistent std_hash key now' s Hs). unfold Storage.expired.
      rewrite Ht. by rewrite Hhit.
Qed.

(** X12. [set] of one key on a reachable storage, with a ttl of 0 or
    one whose sum with the clock reading is an [int], completes and leaves
    every other key as it was: [get] for another key returns, at every
    clock reading, what it returned before the [set]. With any other ttl
    the sum overflows. *)
Theorem set_leaves_other_keys s (pKey pTtl : N) key (value : Value) ttl now key' :
  reachable std_hash s ->
  key' <> key ->
  if decide (ttl = 0 \/ INT_MIN <= ttl + now <= INT_MAX)%Z then
  exists s',
    set std_hash pKey pTtl key value ttl now s = Done s'
    /\ forall now', exists r,
         get std_hash key' now' s = Done (r, s)
         /\ get std_hash key' now' s' = Done (r, s')
  else set std_hash pKey pTtl key value ttl now s = Raise SignedOverflow.
Proof.
  intros Hreach Hne. pose proof (reachable_consistent std_hash s Hreach) as Hs.
  destruct (decide (ttl = 0 \/ INT_MIN <= ttl + now <= INT_MAX)%Z) as [Hint|Hout].
  - destruct (set_consistent std_hash pKey pTtl key value ttl now s Hs)
      as (s' & Hset & Hs' & Hval & Hexp & _).
    { intros Httl. apply in_int_spec. tauto. }
    exists s'. split; [exact Hset|]. intros now'.
    apply get_same; [exact Hs | exact Hs' | |].
    + by rewrite Hval, decide_False.
    + rewrite Hexp, decide_False; [done|]. by intros [? _].
  - apply set_overflow; [exact Hs | tauto |].
    destruct (in_int (ttl + now)) eqn:Hin; [|done].
    apply in_int_spec in Hin. tauto.
Qed.

(** X13. [get] after [set] on any reachable storage, for a ttl of 0 or
    one whose sum with the clock reading is an [int].
    With a ttl other than 0 the key is returned with the new value until
    the clock reads more than [ttl + now], whatever was stored before. With
    ttl 0 the expiration the storage held for the key stays in force: the
    new value is returned unless that expiration is before the clock. *)
Theorem get_after_set_any_ttl s (pKey pTtl : N) key (value : Value) ttl now :
  reachable std_hash s ->
  (ttl <> 0 -> INT_MIN <= ttl + now <= INT_MAX)%Z ->
  exists s',
    set std_hash pKey pTtl key value ttl now s = Done s'
    /\ forall now',
         get std_hash key now' s'
         = Done (if (if decide (ttl = 0%Z) then expired key now' s
                     else (ttl + now <? now')%Z)
                 then None else Some value, s').
Proof.
  intros Hreach Hint. pose proof (reachable_consistent std_hash s Hreach) as Hs.
  destruct (set_consistent std_hash pKey pTtl key value ttl now s Hs)
    as (s' & Hset & Hs' & Hval & Hexp & _).
  { intros Httl. apply in_int_spec. auto. }
  exists s'. split; [exact Hset|]. intros now'.
  rewrite (get_consistent std_hash key now' s' Hs'). unfold Storage.expired.
  rewrite Hexp, Hval. rewrite (decide_True (P := key = key)) by done.
  destruct (decide (ttl = 0%Z)) as [Hz|Hnz].
  - by rewrite decide_False by tauto.
  - by rewrite decide_True by tauto.
Qed.

(** X14. [remove] on a reachable storage never raises and returns
    whether the value index holds the key, expired or not. Afterwards
    [get] for the key returns nothing at every clock reading, a second
    [remove] returns false and changes nothing, and every other key is
    answered as before. The [remove] of a key the value index does not
    hold leaves the storage as it is. *)
Theorem remove_then_get s key :
  reachable std_hash s ->
  exists s',
    remove std_hash key s = Done (has_value (value_of key s), s')
    /\ (forall now, get std_hash key now s' = Done (None, s'))
    /\ remove std_hash key s' = Done (false, s')
    /\ (forall key' now, key' <> key ->
        exists r, get std_hash key' now s = Done (r, s)
                  /\ get std_hash key' now s' = Done (r, s'))
    /\ (value_of key s = None -> s' = s).
Proof.
  intros Hreach. pose proof (reachable_consistent std_hash s Hreach) as Hs.
  destruct (remove_consistent std_hash key s Hs)
    as (s' & Hrm & Hs' & Hsame & Hval & Hpresent).
  assert (value_of key s' = None) as Hgone by (by rewrite Hval, decide_True).
  exists s'. split; [exact Hrm|]. split; [|split; [|split; [|exact Hsame]]].
  - intros now. rewrite (get_consistent std_hash key now s' Hs'), Hgone.
    by destruct (expired key now s').
  - destruct (remove_consistent std_hash key s' Hs') as (s2 & Hrm2 & _ & Hsame2 & _).
    rewrite Hrm2, Hgone. by rewrite (Hsame2 Hgone).
  - intros key' now Hne. apply get_same; [exact Hs | exact Hs' | |].
    + by rewrite Hval, decide_False.
    + destruct (value_of key s) as [v|] eqn:Hv.
      * destruct (Hpresent ltac:(by eexists)) as (Hexp & _).
        by rewrite Hexp, decide_False.
      * by rewrite (Hsame eq_refl).
Qed.

(** X15. In every reachable storage the expiration index holds only keys
    that the value index holds too: [remove] and [removeOneExpiredEntry]
    never leave an expiration behind in the index, and [set] never
    records one without the value. *)
Theorem expiration_only_for_stored_keys s key (t : Z) :
  reachable std_hash s ->
  expiration_of key s = Some t ->
  is_Some (value_of key s).
Proof.
  intros Hreach. revert key t.
  refine (reachable_invariant
            (fun s => forall key t, expiration_of key s = Some t ->
                                    is_Some (value_of key s)) _ _ _ s Hreach);
    clear s Hreach.
  - intros key' t. by rewrite (proj2 (create_holds_nothing key')).
  - intros s pKey pTtl key value ttl now s' Hreach IH Hrun key' t.
    pose proof (reachable_consistent std_hash s Hreach) as Hs.
    destruct (set_consistent std_hash pKey pTtl key value ttl now s Hs
                (set_Done_in_int std_hash pKey pTtl key value ttl now s s' Hs Hrun))
      as (s2 & Hset & _ & Hval & Hexp & _).
    rewrite Hrun in Hset. injection Hset as <-.
    rewrite Hval, Hexp. destruct (decide (key' = key)) as [->|Hne]; [by eexists|].
    rewrite decide_False by tauto. apply IH.
  - intros s key s' Hreach IH Hpresent Hrun key' t.
    pose proof (reachable_consistent std_hash s Hreach) as Hs.
    destruct (remove_consistent std_hash key s Hs)
      as (s2 & Hrm & _ & _ & Hval & Hexp).
    destruct Hpresent as [v Hv]. rewrite Hv in Hrm. cbn [has_value] in Hrm.
    rewrite Hrun in Hrm. injection Hrm as <-.
    destruct (Hexp ltac:(by eexists)) as (Hexp' & _).
    rewrite Hval, Hexp'. destruct (decide (key' = key)); [done | apply IH].
Qed.

(** X16. How [removeOneExpiredEntry] ends on a reachable storage. It
    looks at the first pair of the expiration-ordered set only. It
    returns nothing and changes nothing when the set is empty or the time
    of that pair is not before the clock. Otherwise it raises
    [bad_optional_access] when the value index does not hold the key of
    that pair, and no other fault ever; or it returns that key with the
    value the value index held for it, after which [get] returns nothing
    for the key and answers every other key as before. *)
Theorem removeOneExpiredEntry_outcomes s now :
  reachable std_hash s ->
  match removeOneExpiredEntry std_hash now s with
  | Done (None, s') =>
      s' = s
      /\ forall it, head (_setSortedTtlPtr s) = Some it -> (now <= pointee (snd it))%Z
  | Done (Some (k, v), s') =>
      (exists it, head (_setSortedTtlPtr s) = Some it
                  /\ pointee (fst it) = k /\ (pointee (snd it) < now)%Z)
      /\ value_of k s = Some v
      /\ (forall now', get std_hash k now' s' = Done (None, s'))
      /\ (forall k' now', k' <> k ->
          exists r, get std_hash k' now' s = Done (r, s)
                    /\ get std_hash k' now' s' = Done (r, s'))
  | Raise f =>
      f = BadOptionalAccess
      /\ exists it, head (_setSortedTtlPtr s) = Some it
                    /\ (pointee (snd it) < now)%Z
                    /\ value_of (pointee (fst it)) s = None
  end.
Proof.
  intros Hreach. pose proof (reachable_consistent std_hash s Hreach) as Hs.
  rewrite (removeOneExpiredEntry_consistent std_hash now s Hs).
  destruct (_setSortedTtlPtr s) as [|it l]; [by split|].
  destruct (Z.ltb_spec (pointee (snd it)) now) as [Hlt|Hge].
  - destruct (value_of (pointee (fst it)) s) as [v|] eqn:Hv.
    + destruct (remove_consistent std_hash (pointee (fst it)) s Hs)
        as (s' & Hrm & Hs' & _ & Hval & Hpresent).
      rewrite Hrm. cbn [bind].
      split; [by exists it|]. split; [exact Hv|]. split.
      * intros now'. rewrite (get_consistent std_hash _ now' s' Hs').
        rewrite Hval, decide_True by done. by destruct (expired _ now' s').
      * intros k' now' Hne. apply get_same; [exact Hs | exact Hs' | |].
        -- by rewrite Hval, decide_False.
        -- destruct (Hpresent ltac:(by rewrite Hv)) as (Hexp & _).
           by rewrite Hexp, decide_False.
    + split; [done|]. by exists it.
  - split; [done|]. cbn [head]. by intros ? [= <-].
Qed.

(** X17. A key that no [set] of a sequence of calls names is absent from
    the storage the sequence leaves when run from the empty storage:
    [get] returns nothing for it at every clock reading and [remove]
    returns false and changes nothing. *)
Theorem key_never_set_is_absent (cs : list (call Value)) s key :
  run std_hash cs create = Done s ->
  forallb (fun c => match c with
                    | call_set _ _ k _ _ _ => negb (String.eqb k key)
                    | _ => true
                    end) cs = true ->
  (forall now, get std_hash key now s = Done (None, s))
  /\ remove std_hash key s = Done (false, s).
Proof.
  intros Hrun Hcs.
  assert (forall s0, reachable std_hash s0 -> value_of key s0 = None ->
                     run std_hash cs s0 = Done s ->
                     reachable std_hash s /\ value_of key s = None) as Hgen.
  { clear Hrun. induction cs as [|c cs IH]; intros s0 Hreach Habsent; cbn [run].
    - by intros [= <-].
    - cbn [forallb] in Hcs. apply andb_prop in Hcs as [Hc Hcs].
      pose proof (reachable_consistent std_hash s0 Hreach) as Hs0.
      destruct (step std_hash c s0) as [s1|] eqn:Hstep; cbn [bind]; [|done].
      apply (IH Hcs).
      + eapply (run_reachable std_hash [c]); [exact Hreach|].
        cbn [run]. by rewrite Hstep.
      + destruct c as [pKey pTtl k value ttl now|k|k now|k count now|now];
          cbn [step] in Hstep.
        * destruct (set_consistent std_hash pKey pTtl k value ttl now s0 Hs0
                      (set_Done_in_int std_hash pKey pTtl k value ttl now s0 s1 Hs0 Hstep))
            as (s2 & Hset & _ & Hval & _).
          rewrite Hstep in Hset. injection Hset as <-.
          rewrite Hval, decide_False; [exact Habsent|].
          intros ->. by rewrite String.eqb_refl in Hc.
        * destruct (remove_consistent std_hash k s0 Hs0) as (s2 & Hrm & _ & _ & Hval & _).
          rewrite Hrm in Hstep. cbn [bind] in Hstep. injection Hstep as <-.
          rewrite Hval. by destruct (decide (key = k)).
        * rewrite (get_consistent std_hash k now s0 Hs0) in Hstep.
          cbn [bind] in Hstep. by injection Hstep as <-.
        * destruct (getManySorted std_hash k count now s0) as [[r s2]|] eqn:Hg;
            cbn [bind] in Hstep; [|done].
          injection Hstep as <-.
          by rewrite (getManySorted_keeps_storage k count now s0 r s2 Hs0 Hg).
        * destruct (removeOneExpiredEntry_cases now s0 Hs0)
            as [Hnone|[(it & v & s2 & _ & _ & _ & Hrm & Hsome)|(it & _ & _ & _ & Hraise)]].
          -- rewrite Hnone in Hstep. cbn [bind] in Hstep. by injection Hstep as <-.
          -- rewrite Hsome in Hstep. cbn [bind] in Hstep. injection Hstep as <-.
             destruct (remove_consistent std_hash (pointee (fst it)) s0 Hs0)
               as (s3 & Hrm3 & _ & _ & Hval & _).
             rewrite Hrm in Hrm3. injection Hrm3 as _ <-.
             rewrite Hval. by destruct (decide (key = pointee (fst it))).
          -- by rewrite Hraise in Hstep. }
  destruct (Hgen create (reachable_create std_hash)) as [Hreach Habsent];
    [| exact Hrun |].
  { apply create_holds_nothing. }
  pose proof (reachable_consistent std_hash s Hreach) as Hs. split.
  - intros now. rewrite (get_consistent std_hash key now s Hs), Habsent.
    by destruct (expired key now s).
  - by apply remove_absent.
Qed.

End Reachable.
End StorageMore.

(** * Instances of the further properties *)
Module MoreScenarios.
Import Scenario.
Local Open Scope string_scope.

(** C6, an instance: the dictionary of 16 buckets that holds the 20 keys
    [k0] ... [k19], on which a growth rehash is due. *)
Lemma rehash_schedule_witness :
  let d := dictionary_filled std_hash_model 16 20 in
  Dict.accurate d
  /\ (N.of_nat (length (Dict._dictionary d)) < 2 ^ 63)%N
  /\ let capacity := N.of_nat (length (Dict._dictionary d)) in
     let used := N.of_nat (length (concat (Dict._dictionary d))) in
     let fill := double_div (double_of_size used) (double_of_size capacity) in
     let below := double_lt fill Dict.DICTIONARY_LOW_LIMIT_REHASH in
     let above := double_lt Dict.DICTIONARY_HIGH_LIMIT_REHASH fill in
     let due := (Dict.BASIC_DICTIONARY_SIZE <? capacity)%N && negb (used =? 0)%N
                && (below || above) in
     (due = true ->
      exists d',
        Dict.preCommandActions d = Done d'
        /\ d' <> d
        /\ let new_array :=
             if Dict.isRehashing d' then Dict._alternativeDictionary d'
             else Dict._dictionary d' in
           (below = true -> N.of_nat (length new_array) = (capacity / 2)%N)
           /\ (above = true -> N.of_nat (length new_array) = (2 * capacity)%N))
     /\ (due = false -> Dict.preCommandActions d = Done d)
     /\ ((capacity <= Dict.BASIC_DICTIONARY_SIZE)%N -> Dict.preCommandActions d = Done d).
Proof.
  intros d.
  assert (Dict.accurate d) as Hd
    by (split; [|split]; vm_compute; reflexivity).
  assert (N.of_nat (length (Dict._dictionary d)) < 2 ^ 63)%N as Hcap
    by (vm_compute; reflexivity).
  split; [exact Hd|]. split; [exact Hcap|].
  pose proof (DictMore.rehash_schedule std_hash_model d Hd Hcap) as Hschedule.
  exact Hschedule.
Defined.

(** On that dictionary the rehash is due, and the command prologue
    replaces the 16 buckets by 32. *)
Example rehash_due_on_filled_table :
  let d := dictionary_filled std_hash_model 16 20 in
  Dict.isNeedRehash d = true
  /\ exists d',
       Dict.preCommandActions d = Done d'
       /\ length (Dict._dictionary d') = 32%nat.
Proof.
  intros d. split; [vm_compute; reflexivity|].
  eexists. split; [vm_compute; reflexivity|]. reflexivity.
Qed.

(** X1, an instance: five commands on a dictionary of the base
    capacity. *)
Lemma base_capacity_dictionary_is_a_map_witness :
  (0 < 8 <= Dict.BASIC_DICTIONARY_SIZE)%N
  /\ exists d,
       Dict.exec_all std_hash_model set_set_remove_get_find (Dict.create 8) = Done d
       /\ Dict._dictionarySize d = 8%N
       /\ Dict.isRehashing d = false
       /\ forall key,
            Dict.get std_hash_model key d
            = Done (Dict.contents set_set_remove_get_find (fun _ => None) key, d).
Proof.
  assert (0 < 8 <= Dict.BASIC_DICTIONARY_SIZE)%N as Hn
    by (unfold Dict.BASIC_DICTIONARY_SIZE; lia).
  split; [exact Hn|].
  exact (DictMore.base_capacity_dictionary_is_a_map std_hash_model 8
           set_set_remove_get_find Hn).
Defined.

(** X2, an instance: [find("b")] after the five commands. *)
Lemma find_agrees_with_get_witness :
  let d := dictionary_after std_hash_model 8 set_set_remove_get_find in
  (0 < 8 <= Dict.BASIC_DICTIONARY_SIZE)%N
  /\ Dict.exec_all std_hash_model set_set_remove_get_find (Dict.create 8) = Done d
  /\ exists v,
       Dict.get std_hash_model "b" d = Done (v, d)
       /\ Dict.find std_hash_model "b" d = Done (pair "b" <$> v, d).
Proof.
  intros d.
  assert (0 < 8 <= Dict.BASIC_DICTIONARY_SIZE)%N as Hn
    by (unfold Dict.BASIC_DICTIONARY_SIZE; lia).
  assert (Dict.exec_all std_hash_model set_set_remove_get_find (Dict.create 8) = Done d)
    as Hrun by (vm_compute; reflexivity).
  split; [exact Hn|]. split; [exact Hrun|].
  exact (DictMore.find_agrees_with_get std_hash_model 8 set_set_remove_get_find d "b"
           Hn Hrun).
Defined.

(** X3, an instance: the count after the five commands. *)
Lemma size_counts_the_keys_found_witness :
  let d := dictionary_after std_hash_model 8 set_set_remove_get_find in
  (0 < 8 <= Dict.BASIC_DICTIONARY_SIZE)%N
  /\ Dict.exec_all std_hash_model set_set_remove_get_find (Dict.create 8) = Done d
  /\ exists keys : list string,
       NoDup keys
       /\ (forall key, key ∈ keys
                       <-> exists v, Dict.get std_hash_model key d = Done (Some v, d))
       /\ Dict.size d = (N.of_nat (length keys) mod 2 ^ 64)%N
       /\ ((N.of_nat (length set_set_remove_get_find) < 2 ^ 64)%N ->
           Dict.size d = N.of_nat (length keys)
           /\ (Dict.empty d = true
               <-> forall key, Dict.get std_hash_model key d = Done (None, d))).
Proof.
  intros d.
  assert (0 < 8 <= Dict.BASIC_DICTIONARY_SIZE)%N as Hn
    by (unfold Dict.BASIC_DICTIONARY_SIZE; lia).
  assert (Dict.exec_all std_hash_model set_set_remove_get_find (Dict.create 8) = Done d)
    as Hrun by (vm_compute; reflexivity).
  split; [exact Hn|]. split; [exact Hrun|].
  exact (DictMore.size_counts_the_keys_found std_hash_model 8 set_set_remove_get_find d
           Hn Hrun).
Defined.

(** X4, an instance: [set("b","3")] and [remove("b")] after the five
    commands. *)
Lemma size_follows_set_and_remove_witness :
  let d := dictionary_after std_hash_model 8 set_set_remove_get_find in
  (0 < 8 <= Dict.BASIC_DICTIONARY_SIZE)%N
  /\ Dict.exec_all std_hash_model set_set_remove_get_find (Dict.create 8) = Done d
  /\ exists found d1 d2,
       Dict.get std_hash_model "b" d = Done (found, d)
       /\ Dict.set std_hash_model "b" "3" d = Done d1
       /\ Dict.size d1 = (if found is Some _ then Dict.size d else size_incr (Dict.size d))
       /\ Dict.get std_hash_model "b" d1 = Done (Some "3", d1)
       /\ Dict.remove std_hash_model "b" d = Done (has_value found, d2)
       /\ Dict.size d2 = (if found is Some _ then size_decr (Dict.size d) else Dict.size d)
       /\ (found = None -> d2 = d)
       /\ Dict.get std_hash_model "b" d2 = Done (None, d2).
Proof.
  intros d.
  assert (0 < 8 <= Dict.BASIC_DICTIONARY_SIZE)%N as Hn
    by (unfold Dict.BASIC_DICTIONARY_SIZE; lia).
  assert (Dict.exec_all std_hash_model set_set_remove_get_find (Dict.create 8) = Done d)
    as Hrun by (vm_compute; reflexivity).
  split; [exact Hn|]. split; [exact Hrun|].
  exact (DictMore.size_follows_set_and_remove std_hash_model 8 set_set_remove_get_find d
           "b" "3" Hn Hrun).
Defined.

(** X5, an instance: [get("k0")] on the dictionary of 64 buckets that
    holds the 77 keys [k0] ... [k76]. *)
Lemma get_that_starts_a_rehash_witness :
  let d := dictionary_filled std_hash_model 64 77 in
  Dict.isRehashing d = false
  /\ Dict.isNeedRehash d = true
  /\ (32 < Dict._dictionarySize d < 2 ^ 63)%N
  /\ length (Dict._dictionary d) = N.to_nat (Dict._dictionarySize d)
  /\ exists d',
       Dict.get std_hash_model "k0" d
       = Done (if decide (std_hash_model "k0" mod Dict._dictionarySize d < 32)%N
               then None else Dict.lookup std_hash_model "k0" d, d')
       /\ Dict._rehashIndex d' = 32%N
       /\ Dict.isRehashing d' = true
       /\ Dict._dictionarySize d' = Dict._dictionarySize d
       /\ Dict._dictionaryUsed d' = Dict._dictionaryUsed d.
Proof.
  intros d.
  assert (Dict.isRehashing d = false) as Hidle by (vm_compute; reflexivity).
  assert (Dict.isNeedRehash d = true) as Hdue by (vm_compute; reflexivity).
  assert (32 < Dict._dictionarySize d < 2 ^ 63)%N as Hsize
    by (split; vm_compute; reflexivity).
  assert (length (Dict._dictionary d) = N.to_nat (Dict._dictionarySize d)) as Hlen
    by (vm_compute; reflexivity).
  split; [exact Hidle|]. split; [exact Hdue|]. split; [exact Hsize|].
  split; [exact Hlen|].
  exact (DictMore.get_that_starts_a_rehash std_hash_model "k0" d Hidle Hdue Hsize Hlen).
Defined.

(** X6, an instance: the 78th [set] on that dictionary. *)
Lemma set_that_starts_a_rehash_faults_witness :
  let d := dictionary_filled std_hash_model 64 77 in
  Dict.isRehashing d = false
  /\ Dict.isNeedRehash d = true
  /\ (32 < Dict._dictionarySize d < 2 ^ 63)%N
  /\ length (Dict._dictionary d) = N.to_nat (Dict._dictionarySize d)
  /\ Dict.set std_hash_model "k77" "val_77" d = Raise NullDereference.
Proof.
  intros d.
  assert (Dict.isRehashing d = false) as Hidle by (vm_compute; reflexivity).
  assert (Dict.isNeedRehash d = true) as Hdue by (vm_compute; reflexivity).
  assert (32 < Dict._dictionarySize d < 2 ^ 63)%N as Hsize
    by (split; vm_compute; reflexivity).
  assert (length (Dict._dictionary d) = N.to_nat (Dict._dictionarySize d)) as Hlen
    by (vm_compute; reflexivity).
  split; [exact Hidle|]. split; [exact Hdue|]. split; [exact Hsize|].
  split; [exact Hlen|].
  exact (DictMore.set_that_starts_a_rehash_faults std_hash_model "k77" "val_77" d
           Hidle Hdue Hsize Hlen).
Defined.

(** X7, an instance: [remove("k0")] on that dictionary. *)
Lemma remove_that_starts_a_rehash_witness :
  let d := dictionary_filled std_hash_model 64 77 in
  Dict.isRehashing d = false
  /\ Dict.isNeedRehash d = true
  /\ (32 < Dict._dictionarySize d < 2 ^ 63)%N
  /\ length (Dict._dictionary d) = N.to_nat (Dict._dictionarySize d)
  /\ exists d',
       Dict.remove std_hash_model "k0" d
       = Done (if decide (std_hash_model "k0" mod Dict._dictionarySize d < 32)%N
               then false else has_value (Dict.lookup std_hash_model "k0" d), d')
       /\ Dict.isRehashing d' = true.
Proof.
  intros d.
  assert (Dict.isRehashing d = false) as Hidle by (vm_compute; reflexivity).
  assert (Dict.isNeedRehash d = true) as Hdue by (vm_compute; reflexivity).
  assert (32 < Dict._dictionarySize d < 2 ^ 63)%N as Hsize
    by (split; vm_compute; reflexivity).
  assert (length (Dict._dictionary d) = N.to_nat (Dict._dictionarySize d)) as Hlen
    by (vm_compute; reflexivity).
  split; [exact Hidle|]. split; [exact Hdue|]. split; [exact Hsize|].
  split; [exact Hlen|].
  exact (DictMore.remove_that_starts_a_rehash std_hash_model "k0" d
           Hidle Hdue Hsize Hlen).
Defined.

(** X8, an instance: [set("k5","new")] on the dictionary of 16 buckets
    that holds the 5 keys [k0] ... [k4]. *)
Lemma set_then_get_while_no_rehash_is_due_witness :
  let d := dictionary_filled std_hash_model 16 5 in
  Dict.isRehashing d = false
  /\ Dict.isNeedRehash d = false
  /\ (0 < Dict._dictionarySize d)%N
  /\ length (Dict._dictionary d) = N.to_nat (Dict._dictionarySize d)
  /\ exists d',
       Dict.set std_hash_model "k5" "new" d = Done d'
       /\ Dict._dictionarySize d' = Dict._dictionarySize d
       /\ Dict.isRehashing d' = false
       /\ (forall k, Dict.lookup std_hash_model k d'
                    = if decide (k = "k5") then Some "new"
                      else Dict.lookup std_hash_model k d)
       /\ (Dict.isNeedRehash d' = false ->
           Dict.get std_hash_model "k5" d' = Done (Some "new", d')
           /\ forall k, k <> "k5" ->
                        Dict.get std_hash_model k d'
                        = Done (Dict.lookup std_hash_model k d, d')).
Proof.
  intros d.
  assert (Dict.isRehashing d = false) as Hidle by (vm_compute; reflexivity).
  assert (Dict.isNeedRehash d = false) as Hquiet by (vm_compute; reflexivity).
  assert (0 < Dict._dictionarySize d)%N as Hpos by (vm_compute; reflexivity).
  assert (length (Dict._dictionary d) = N.to_nat (Dict._dictionarySize d)) as Hlen
    by (vm_compute; reflexivity).
  split; [exact Hidle|]. split; [exact Hquiet|]. split; [exact Hpos|].
  split; [exact Hlen|].
  exact (DictMore.set_then_get_while_no_rehash_is_due std_hash_model "k5" "new" d
           Hidle Hquiet Hpos Hlen).
Defined.

(** X9, an instance: the second [get] on the dictionary of 64 buckets
    that holds 77 keys. *)
Lemma get_while_rehashing_witness :
  let d := dictionary_filled_then_get std_hash_model 64 77 "k0" in
  Dict.isRehashing d = true
  /\ (Dict._rehashIndex d <= Dict._dictionarySize d)%N
  /\ (0 < Dict._dictionarySize d < SIZE_MAX)%N
  /\ (N.to_nat (Dict._dictionarySize d) <= length (Dict._dictionary d))%nat
  /\ (0 < Dict._alternativeDictionarySize d)%N
  /\ Dict._alternativeDictionary d
     = replicate (N.to_nat (Dict._alternativeDictionarySize d)) []
  /\ let stop := N.min (Dict._rehashIndex d + 32) (Dict._dictionarySize d) in
     let index := (std_hash_model "k1" mod Dict._dictionarySize d)%N in
     if decide (stop < Dict._dictionarySize d)%N then
       exists d',
         Dict.get std_hash_model "k1" d
         = Done (if decide (Dict._rehashIndex d <= index < stop)%N then None
                 else Dict.lookup std_hash_model "k1" d, d')
         /\ Dict._rehashIndex d' = stop
         /\ Dict.isRehashing d' = true
         /\ Dict._dictionarySize d' = Dict._dictionarySize d
         /\ Dict._dictionaryUsed d' = Dict._dictionaryUsed d
     else
       Dict.get std_hash_model "k1" d
       = if decide (index < Dict._alternativeDictionarySize d)%N then
           Done (None,
                 Dict.mkDictionary (Dict._alternativeDictionary d) (Dict._dictionarySize d)
                   (Dict._dictionaryUsed d) [] (Dict._alternativeDictionarySize d) SIZE_MAX)
         else Raise OutOfBounds.
Proof.
  intros d.
  assert (Dict.isRehashing d = true) as Hbusy by (vm_compute; reflexivity).
  assert (Dict._rehashIndex d <= Dict._dictionarySize d)%N as Hidx
    by (vm_compute; discriminate).
  assert (0 < Dict._dictionarySize d < SIZE_MAX)%N as Hsize
    by (split; vm_compute; reflexivity).
  assert (N.to_nat (Dict._dictionarySize d) <= length (Dict._dictionary d))%nat as Hlen
    by (apply Nat.leb_le; vm_compute; reflexivity).
  assert (0 < Dict._alternativeDictionarySize d)%N as Haltn by (vm_compute; reflexivity).
  assert (Dict._alternativeDictionary d
          = replicate (N.to_nat (Dict._alternativeDictionarySize d)) []) as Halt
    by (vm_compute; reflexivity).
  split; [exact Hbusy|]. split; [exact Hidx|]. split; [exact Hsize|].
  split; [exact Hlen|]. split; [exact Haltn|]. split; [exact Halt|].
  pose proof (DictMore.get_while_rehashing std_hash_model "k1" d
                Hbusy Hidx Hsize Hlen Haltn Halt) as Hget.
  exact Hget.
Defined.

(** X11, an instance: [Get("key1")] at clock 6 on the storage that holds
    [key1] until clock 5. *)
Lemma get_is_a_read_and_a_miss_is_final_witness :
  let s := storage_after one_key_ttl5 in
  Storage.reachable std_hash_model s
  /\ exists r,
       Storage.get std_hash_model "key1" 6 s = Done (r, s)
       /\ (r = None ->
           forall now', (6 <= now')%Z ->
                        Storage.get std_hash_model "key1" now' s = Done (None, s))
       /\ (forall v, r = Some v ->
           Storage.value_of std_hash_model "key1" s = Some v
           /\ forall now', (now' <= 6)%Z ->
                           Storage.get std_hash_model "key1" now' s = Done (Some v, s)).
Proof.
  intros s.
  assert (Storage.reachable std_hash_model s) as Hreach
    by (apply ScenarioFacts.storage_after_reachable; vm_compute; reflexivity).
  split; [exact Hreach|].
  exact (StorageMore.get_is_a_read_and_a_miss_is_final std_hash_model s "key1" 6 Hreach).
Defined.

(** X12, an instance: [Set("key2","value2",3)] at clock 1 next to
    [key1]. *)
Lemma set_leaves_other_keys_witness :
  let s := storage_after one_key_ttl5 in
  Storage.reachable std_hash_model s
  /\ "key1" <> "key2"
  /\ if decide (3 = 0 \/ Storage.INT_MIN <= 3 + 1 <= Storage.INT_MAX)%Z then
       exists s',
         Storage.set std_hash_model 32 33 "key2" "value2" 3 1 s = Done s'
         /\ forall now', exists r,
              Storage.get std_hash_model "key1" now' s = Done (r, s)
              /\ Storage.get std_hash_model "key1" now' s' = Done (r, s')
     else Storage.set std_hash_model 32 33 "key2" "value2" 3 1 s = Raise SignedOverflow.
Proof.
  intros s.
  assert (Storage.reachable std_hash_model s) as Hreach
    by (apply ScenarioFacts.storage_after_reachable; vm_compute; reflexivity).
  assert ("key1" <> "key2") as Hne by discriminate.
  split; [exact Hreach|]. split; [exact Hne|].
  pose proof (StorageMore.set_leaves_other_keys std_hash_model s 32 33 "key2" "value2"
                3 1 "key1" Hreach Hne) as Hset.
  exact Hset.
Defined.

(** X13, an instance: [Set("key1","value2",3)] at clock 1 on the storage
    that holds [key1] until clock 5. *)
Lemma get_after_set_any_ttl_witness :
  let s := storage_after one_key_ttl5 in
  Storage.reachable std_hash_model s
  /\ (3 <> 0 -> Storage.INT_MIN <= 3 + 1 <= Storage.INT_MAX)%Z
  /\ exists s',
       Storage.set std_hash_model 32 33 "key1" "value2" 3 1 s = Done s'
       /\ forall now',
            Storage.get std_hash_model "key1" now' s'
            = Done (if (if decide (3 = 0)%Z
                        then Storage.expired std_hash_model "key1" now' s
                        else (3 + 1 <? now')%Z)
                    then None else Some "value2", s').
Proof.
  intros s.
  assert (Storage.reachable std_hash_model s) as Hreach
    by (apply ScenarioFacts.storage_after_reachable; vm_compute; reflexivity).
  assert (3 <> 0 -> Storage.INT_MIN <= 3 + 1 <= Storage.INT_MAX)%Z as Hint
    by (unfold Storage.INT_MIN, Storage.INT_MAX; lia).
  split; [exact Hreach|]. split; [exact Hint|].
  exact (StorageMore.get_after_set_any_ttl std_hash_model s 32 33 "key1" "value2" 3 1
           Hreach Hint).
Defined.

(** X14, an instance: [Remove("b")] on the storage holding [a], [b],
    [d], [e]. *)
Lemma remove_then_get_witness :
  let s := storage_after four_keys in
  Storage.reachable std_hash_model s
  /\ exists s',
       Storage.remove std_hash_model "b" s
       = Done (has_value (Storage.value_of std_hash_model "b" s), s')
       /\ (forall now, Storage.get std_hash_model "b" now s' = Done (None, s'))
       /\ Storage.remove std_hash_model "b" s' = Done (false, s')
       /\ (forall key' now, key' <> "b" ->
           exists r, Storage.get std_hash_model key' now s = Done (r, s)
                     /\ Storage.get std_hash_model key' now s' = Done (r, s'))
       /\ (Storage.value_of std_hash_model "b" s = None -> s' = s).
Proof.
  intros s.
  assert (Storage.reachable std_hash_model s) as Hreach
    by (apply ScenarioFacts.storage_after_reachable; vm_compute; reflexivity).
  split; [exact Hreach|].
  exact (StorageMore.remove_then_get std_hash_model s "b" Hreach).
Defined.

(** X15, an instance: [key1], which expires at clock 5. *)
Lemma expiration_only_for_stored_keys_witness :
  let s := storage_after one_key_ttl5 in
  Storage.reachable std_hash_model s
  /\ Storage.expiration_of std_hash_model "key1" s = Some 5%Z
  /\ is_Some (Storage.value_of std_hash_model "key1" s).
Proof.
  intros s.
  assert (Storage.reachable std_hash_model s) as Hreach
    by (apply ScenarioFacts.storage_after_reachable; vm_compute; reflexivity).
  assert (Storage.expiration_of std_hash_model "key1" s = Some 5%Z) as Hexp
    by (vm_compute; reflexivity).
  split; [exact Hreach|]. split; [exact Hexp|].
  exact (StorageMore.expiration_only_for_stored_keys std_hash_model s "key1" 5
           Hreach Hexp).
Defined.

(** X16, an instance: [RemoveOneExpiredEntry()] at clock 6 on the storage
    that holds [key1] until clock 5. *)
Lemma removeOneExpiredEntry_outcomes_witness :
  let s := storage_after one_key_ttl5 in
  Storage.reachable std_hash_model s
  /\ match Storage.removeOneExpiredEntry std_hash_model 6 s with
     | Done (None, s') =>
         s' = s
         /\ forall it, head (Storage._setSortedTtlPtr s) = Some it ->
                       (6 <= Storage.pointee (snd it))%Z
     | Done (Some (k, v), s') =>
         (exists it, head (Storage._setSortedTtlPtr s) = Some it
                     /\ Storage.pointee (fst it) = k
                     /\ (Storage.pointee (snd it) < 6)%Z)
         /\ Storage.value_of std_hash_model k s = Some v
         /\ (forall now', Storage.get std_hash_model k now' s' = Done (None, s'))
         /\ (forall k' now', k' <> k ->
             exists r, Storage.get std_hash_model k' now' s = Done (r, s)
                       /\ Storage.get std_hash_model k' now' s' = Done (r, s'))
     | Raise f =>
         f = BadOptionalAccess
         /\ exists it, head (Storage._setSortedTtlPtr s) = Some it
                       /\ (Storage.pointee (snd it) < 6)%Z
                       /\ Storage.value_of std_hash_model (Storage.pointee (fst it)) s
                          = None
     end.
Proof.
  intros s.
  assert (Storage.reachable std_hash_model s) as Hreach
    by (apply ScenarioFacts.storage_after_reachable; vm_compute; reflexivity).
  split; [exact Hreach|].
  exact (StorageMore.removeOneExpiredEntry_outcomes std_hash_model s 6 Hreach).
Defined.

(** X17, an instance: [key2] after [Set("key1","value1",5)] and
    [RemoveOneExpiredEntry()]. *)
Lemma key_never_set_is_absent_witness :
  let s := storage_after one_key_evicted in
  Storage.run std_hash_model one_key_evicted Storage.create = Done s
  /\ forallb (fun c => match c with
                       | Storage.call_set _ _ k _ _ _ => negb (String.eqb k "key2")
                       | _ => true
                       end) one_key_evicted = true
  /\ (forall now, Storage.get std_hash_model "key2" now s = Done (None, s))
  /\ Storage.remove std_hash_model "key2" s = Done (false, s).
Proof.
  intros s.
  assert (Storage.run std_hash_model one_key_evicted Storage.create = Done s) as Hrun
    by (vm_compute; reflexivity).
  assert (forallb (fun c => match c with
                            | Storage.call_set _ _ k _ _ _ => negb (String.eqb k "key2")
                            | _ => true
                            end) one_key_evicted = true) as Hcs
    by reflexivity.
  split; [exact Hrun|]. split; [exact Hcs|].
  exact (StorageMore.key_never_set_is_absent std_hash_model one_key_evicted s "key2"
           Hrun Hcs).
Defined.

End MoreScenarios.
